(** * Image_Processing: spatial filtering and segmentation engine

    A shallow embedding of [Image_Processing/common.py] and
    [Image_Processing/segmentation.py], and the properties of their
    padding, convolution, normalization, thresholding and Kirsch code.

    Conventions of the embedding.
    - A numpy array of rank 2 is a [grid]: its [shape] and its rows.  An
      image is [Gray] (rank 2) or [Color] (rank 3 with 3 channels, one
      [rgb] triple per pixel), which is what [len(image.shape) == 3]
      tells apart in the source.
    - A pixel value is an [npfloat]: an exact rational, or one of the
      IEEE special values [PInf], [NInf], [NaN] that numpy produces on a
      division by zero.  Rounding of float64 is not modelled (finite
      arithmetic is exact), and zero has no sign.
    - Python integers are [Z]; [//] is [Z.div] and [%] is [Z.modulo].
    - A raised exception is [Raise e] in the [result] monad; logging calls
      and the [measure_runtime] and [book_reference] decorators are
      dropped.
    - The functions on values say what array a call returns; module [Heap]
      puts arrays in a store, to say whether the array returned is a new
      one or the argument itself. *)

From Stdlib Require Import ZArith QArith Qabs Qround Lia Lqa.
From stdpp Require Import base list strings gmap.

(** ** Exceptions and the error monad *)

Inductive exn : Type :=
  | ValueError (msg : string)
  | KeyError (msg : string)
  | IndexError (msg : string)
  | ZeroDivisionError (msg : string).

Inductive result (A : Type) : Type :=
  | Ok (a : A)
  | Raise (e : exn).
Arguments Ok {A} a.
Arguments Raise {A} e.

#[global] Instance result_ret : MRet result := fun _ a => Ok a.
#[global] Instance result_bind : MBind result := fun _ _ f m =>
  match m with Ok a => f a | Raise e => Raise e end.
#[global] Instance result_fmap : FMap result := fun _ _ f m =>
  match m with Ok a => Ok (f a) | Raise e => Raise e end.

(** Modelled from the spec: [log.raise_exception] of [Settings.settings],
    which is not among the sources.  The spec calls an even size "a fatal
    configuration error (fails with an invalid-argument condition)": the
    call raises the exception class it is given, with the message. *)
Definition raise_exception {A} (message : string) (exception : string → exn)
  : result A := Raise (exception message).

(** [for x in xs: s = body(x, s)], stopping at the first exception. *)
Fixpoint for_each {S X : Type} (xs : list X) (body : X → S → result S) (s : S)
  : result S :=
  match xs with
  | [] => Ok s
  | x :: xs' => s' ← body x s; for_each xs' body s'
  end.

(** Python's [range(a, b)]. *)
Definition range (a b : Z) : list Z := seqZ a (b - a).

(** ** numpy scalars *)

Inductive npfloat : Type :=
  | Num (q : Q)
  | PInf
  | NInf
  | NaN.

Definition Qltb (a b : Q) : bool := negb (Qle_bool b a).

Definition fneg (x : npfloat) : npfloat :=
  match x with
  | Num q => Num (- q)
  | PInf => NInf
  | NInf => PInf
  | NaN => NaN
  end.

Definition fadd (x y : npfloat) : npfloat :=
  match x, y with
  | NaN, _ | _, NaN => NaN
  | Num a, Num b => Num (a + b)
  | PInf, NInf | NInf, PInf => NaN
  | PInf, _ | _, PInf => PInf
  | NInf, _ | _, NInf => NInf
  end.

Definition fsub (x y : npfloat) : npfloat := fadd x (fneg y).

(** The infinity with the sign of [q] times the sign of [pos]; [NaN] when
    [q] is zero (0 * inf). *)
Definition inf_times (pos : bool) (q : Q) : npfloat :=
  if Qeq_bool q 0 then NaN
  else if Bool.eqb pos (Qltb 0 q) then PInf else NInf.

Definition fmul (x y : npfloat) : npfloat :=
  match x, y with
  | NaN, _ | _, NaN => NaN
  | Num a, Num b => Num (a * b)
  | PInf, Num q | Num q, PInf => inf_times true q
  | NInf, Num q | Num q, NInf => inf_times false q
  | PInf, PInf | NInf, NInf => PInf
  | PInf, NInf | NInf, PInf => NaN
  end.

(** numpy's true division: a division by zero is not an exception, it
    gives an infinity, or [NaN] for 0/0 (with a [RuntimeWarning]). *)
Definition fdiv (x y : npfloat) : npfloat :=
  match x, y with
  | NaN, _ | _, NaN => NaN
  | Num a, Num b =>
      if Qeq_bool b 0 then
        if Qeq_bool a 0 then NaN else if Qltb 0 a then PInf else NInf
      else Num (a / b)
  | Num _, (PInf | NInf) => Num 0
  | PInf, Num b => if Qle_bool 0 b then PInf else NInf
  | NInf, Num b => if Qle_bool 0 b then NInf else PInf
  | (PInf | NInf), (PInf | NInf) => NaN
  end.

(** [x <= y] and [x < y]; every comparison with [NaN] is [False]. *)
Definition fle (x y : npfloat) : bool :=
  match x, y with
  | NaN, _ | _, NaN => false
  | Num a, Num b => Qle_bool a b
  | NInf, _ | _, PInf => true
  | _, _ => false
  end.

Definition flt (x y : npfloat) : bool :=
  match x, y with
  | NaN, _ | _, NaN => false
  | Num a, Num b => Qltb a b
  | PInf, _ | _, NInf => false
  | _, _ => true
  end.

Definition fgt (x y : npfloat) : bool := flt y x.

(** [np.maximum], which propagates [NaN]. *)
Definition fmaximum (x y : npfloat) : npfloat :=
  match x, y with
  | NaN, _ | _, NaN => NaN
  | _, _ => if fle x y then y else x
  end.

Definition fminimum (x y : npfloat) : npfloat :=
  match x, y with
  | NaN, _ | _, NaN => NaN
  | _, _ => if fle x y then x else y
  end.

Definition fabs (x : npfloat) : npfloat :=
  match x with
  | Num q => Num (Qabs q)
  | PInf | NInf => PInf
  | NaN => NaN
  end.

(** A boolean used as a number: [True] is 1 and [False] is 0. *)
Definition of_bool (b : bool) : npfloat := Num (if b then 1 else 0).

(** Round half to even, numpy's rule in [np.round]. *)
Definition rint (q : Q) : Z :=
  let n := Qfloor q in
  let d := (q - inject_Z n)%Q in
  if Qltb d (1 # 2) then n
  else if Qltb (1 # 2) d then (n + 1)%Z
  else if Z.even n then n else (n + 1)%Z.

(** [np.round(x, 3)]: [rint(x * 1000) / 1000]. *)
Definition round3 (x : npfloat) : npfloat :=
  match x with
  | Num q => Num (rint (q * 1000) # 1000)
  | _ => x
  end.

(** Equality of values: the same special value, or equal rationals. *)
Definition feq (x y : npfloat) : Prop :=
  match x, y with
  | Num a, Num b => (a == b)%Q
  | PInf, PInf | NInf, NInf | NaN, NaN => True
  | _, _ => False
  end.

Definition finite (x : npfloat) : Prop :=
  match x with Num _ => True | _ => False end.

(** ** Arrays *)

Record grid (A : Type) : Type := Grid {
  shape0 : nat;
  shape1 : nat;
  cells : list (list A)
}.
Arguments Grid {A} shape0 shape1 cells.
Arguments shape0 {A} g.
Arguments shape1 {A} g.
Arguments cells {A} g.

(** The rows agree with the shape: what numpy guarantees of an array. *)
Definition wf {A} (g : grid A) : Prop :=
  length (cells g) = shape0 g ∧
  Forall (fun row => length row = shape1 g) (cells g).

(** [g[i, j]] for indices in range. *)
Definition at2 {A} (g : grid A) (i j : nat) : option A :=
  row ← cells g !! i; row !! j.

Definition grid_map {A B} (f : A → B) (g : grid A) : grid B :=
  Grid (shape0 g) (shape1 g) (map (map f) (cells g)).

(** [np.zeros(shape=(rows, cols))]; numpy refuses a negative dimension. *)
Definition np_zeros {A} (zero : A) (rows cols : Z) : result (grid A) :=
  if ((rows <? 0) || (cols <? 0))%Z
  then Raise (ValueError "negative dimensions are not allowed")
  else Ok (Grid (Z.to_nat rows) (Z.to_nat cols)
             (replicate (Z.to_nat rows) (replicate (Z.to_nat cols) zero))).

(** *** Slices

    A bound of a Python slice on an axis of length [len]: a negative
    bound counts from the end, and every bound is clipped to the axis.
    [-0] is [0], so [a[m:-m]] with [m = 0] is [a[0:0]]. *)
Definition slice_index (len : nat) (i : Z) : nat :=
  Z.to_nat (if (i <? 0)%Z then Z.max 0 (i + Z.of_nat len)
            else Z.min i (Z.of_nat len)).

(** First index and length of [start:stop]. *)
Definition slice_lo (len : nat) (start stop : Z) : nat := slice_index len start.
Definition slice_len (len : nat) (start stop : Z) : nat :=
  slice_index len stop - slice_index len start.

(** [g[r0:r1, c0:c1]]. *)
Definition grid_slice {A} (g : grid A) (r0 r1 c0 c1 : Z) : grid A :=
  Grid (slice_len (shape0 g) r0 r1) (slice_len (shape1 g) c0 c1)
    ((fun row => take (slice_len (shape1 g) c0 c1)
                   (drop (slice_lo (shape1 g) c0 c1) row))
     <$> take (slice_len (shape0 g) r0 r1)
           (drop (slice_lo (shape0 g) r0 r1) (cells g) : list (list A))).

(** An axis of length [src] broadcasts to one of length [tgt] when the
    lengths agree or [src] is 1. *)
Definition broadcasts_to (src tgt : nat) : bool :=
  (src =? tgt)%nat || (src =? 1)%nat.

Definition broadcast_ix (src i : nat) : nat := if (src =? 1)%nat then 0 else i.

(** [tgt[r0:r1, c0:c1] = src]: the source is broadcast to the shape of the
    slice, or numpy raises [ValueError]. *)
Definition setitem_slice {A} (tgt : grid A) (r0 r1 c0 c1 : Z) (src : grid A)
  : result (grid A) :=
  let rlo := slice_lo (shape0 tgt) r0 r1 in
  let h := slice_len (shape0 tgt) r0 r1 in
  let clo := slice_lo (shape1 tgt) c0 c1 in
  let w := slice_len (shape1 tgt) c0 c1 in
  if broadcasts_to (shape0 src) h && broadcasts_to (shape1 src) w then
    Ok (Grid (shape0 tgt) (shape1 tgt)
          (imap (fun i row =>
             imap (fun j x =>
               if bool_decide (rlo ≤ i < rlo + h ∧ clo ≤ j < clo + w)
               then default x (at2 src (broadcast_ix (shape0 src) (i - rlo))
                                       (broadcast_ix (shape1 src) (j - clo)))
               else x) row) (cells tgt)))
  else Raise (ValueError "could not broadcast input array").

(** ** Images *)

Definition rgb : Type := npfloat * npfloat * npfloat.

Inductive ndarray : Type :=
  | Gray (g : grid npfloat)
  | Color (g : grid rgb).

Definition ndarray_wf (img : ndarray) : Prop :=
  match img with Gray g => wf g | Color g => wf g end.

Definition shape (img : ndarray) : list nat :=
  match img with
  | Gray g => [shape0 g; shape1 g]
  | Color g => [shape0 g; shape1 g; 3]
  end.

Definition channel (ch : nat) (p : rgb) : option npfloat :=
  match ch with
  | 0 => Some p.1.1
  | 1 => Some p.1.2
  | 2 => Some p.2
  | _ => None
  end.

(** [image[r, c]] of a grayscale image (at channel 0) and [image[r, c, ch]]
    of a color image. *)
Definition pixel (img : ndarray) (r c ch : nat) : option npfloat :=
  match img with
  | Gray g => if (ch =? 0)%nat then at2 g r c else None
  | Color g => p ← at2 g r c; channel ch p
  end.

(** ** Padding *)

(** [image_settings.ZERO_PADDING]; the docstring of [pad_image] gives the
    value. *)
Definition ZERO_PADDING : string := "zero_padding".

Definition pad_grid {A} (zero : A) (g : grid A) (padding_type : string)
    (padding_size : Z) : result (grid A) :=
  let rows := (Z.of_nat (shape0 g) + 2 * padding_size)%Z in
  let cols := (Z.of_nat (shape1 g) + 2 * padding_size)%Z in
  padded_image ← np_zeros zero rows cols;
  if String.eqb padding_type ZERO_PADDING then
    setitem_slice padded_image padding_size (- padding_size)
      padding_size (- padding_size) g
  else Ok padded_image.

Definition zero : npfloat := Num 0.
Definition zero3 : rgb := (zero, zero, zero).

Definition pad_image (image : ndarray) (padding_type : string)
    (padding_size : Z) : result ndarray :=
  match image with
  | Gray g => Gray <$> pad_grid zero g padding_type padding_size
  | Color g => Color <$> pad_grid zero3 g padding_type padding_size
  end.

(** ** Elementwise operations and reductions *)

Definition rgb_map (f : npfloat → npfloat) (p : rgb) : rgb :=
  (f p.1.1, f p.1.2, f p.2).

Definition rgb_map2 (f : npfloat → npfloat → npfloat) (p q : rgb) : rgb :=
  (f p.1.1 q.1.1, f p.1.2 q.1.2, f p.2 q.2).

Definition ndarray_map (f : npfloat → npfloat) (a : ndarray) : ndarray :=
  match a with
  | Gray g => Gray (grid_map f g)
  | Color g => Color (grid_map (rgb_map f) g)
  end.

(** The shape two axes broadcast to. *)
Definition broadcast_dim (a b : nat) : option nat :=
  if (a =? b)%nat then Some a
  else if (a =? 1)%nat then Some b
  else if (b =? 1)%nat then Some a
  else None.

(** An axis of length 1 is repeated [n] times. *)
Definition stretch {A} (n : nat) (l : list A) : list A :=
  match l with
  | [x] => replicate n x
  | _ => l
  end.

(** A binary operation on two arrays of rank 2, with numpy's broadcasting. *)
Definition grid_map2 {A B C} (f : A → B → C) (a : grid A) (b : grid B)
  : result (grid C) :=
  match broadcast_dim (shape0 a) (shape0 b),
        broadcast_dim (shape1 a) (shape1 b) with
  | Some h, Some w =>
      Ok (Grid h w
            (zip_with (fun ra rb => zip_with f (stretch w ra) (stretch w rb))
               (stretch h (cells a)) (stretch h (cells b))))
  | _, _ => Raise (ValueError "operands could not be broadcast together")
  end.

(** A binary operation on two images.  In this code both operands always
    have the rank of the input image; operands of different rank are left
    as numpy's broadcast error. *)
Definition ndarray_map2 (f : npfloat → npfloat → npfloat) (a b : ndarray)
  : result ndarray :=
  match a, b with
  | Gray x, Gray y => Gray <$> grid_map2 f x y
  | Color x, Color y => Color <$> grid_map2 (rgb_map2 f) x y
  | _, _ => Raise (ValueError "operands could not be broadcast together")
  end.

Definition fsum (l : list npfloat) : npfloat := foldr fadd zero l.

(** All the values of an array, in row-major order. *)
Definition grid_flat (g : grid npfloat) : list npfloat := concat (cells g).

Definition flat (a : ndarray) : list npfloat :=
  match a with
  | Gray g => grid_flat g
  | Color g =>
      concat (map (fun row => concat (map (fun p : rgb => [p.1.1; p.1.2; p.2]) row))
                (cells g))
  end.

(** [np.sum]. *)
Definition np_sum (g : grid npfloat) : npfloat := fsum (grid_flat g).

(** [np.max] and [np.min]: numpy refuses an array with no element. *)
Definition np_max (l : list npfloat) : result npfloat :=
  match l with
  | [] => Raise (ValueError "zero-size array to reduction operation maximum which has no identity")
  | x :: l' => Ok (foldl fmaximum x l')
  end.

Definition np_min (l : list npfloat) : result npfloat :=
  match l with
  | [] => Raise (ValueError "zero-size array to reduction operation minimum which has no identity")
  | x :: l' => Ok (foldl fminimum x l')
  end.

(** An index on an axis of length [len]: a negative index counts from the
    end; out of range is an [IndexError]. *)
Definition index (len : nat) (i : Z) : result nat :=
  let j := (if i <? 0 then i + Z.of_nat len else i)%Z in
  if ((0 <=? j) && (j <? Z.of_nat len))%Z then Ok (Z.to_nat j)
  else Raise (IndexError "index is out of bounds").

(** [g[i, j] = v]. *)
Definition setitem {A} (g : grid A) (i j : Z) (v : A) : result (grid A) :=
  i' ← index (shape0 g) i;
  j' ← index (shape1 g) j;
  Ok (Grid (shape0 g) (shape1 g) (alter (<[j' := v]>) i' (cells g))).

(** ** Kernels *)

(** Modelled from the spec: the tags [image_settings.BOX_FILTER] and
    [image_settings.GAUSSIAN_FILTER], whose values are not among the
    sources; the spec names the two filter families "box" and "Gaussian". *)
Definition BOX_FILTER : string := "box".
Definition GAUSSIAN_FILTER : string := "gaussian".

Definition even_filter_msg : string :=
  "Filter size is an even number. Filters should be odd number size".
Definition missing_arguments_msg : string :=
  "Missing arguments for filter generation".

(** The Gaussian weights before normalization.  [math_exp] stands for
    [math.exp]; [k] and [sigma] are Python floats, so that [sigma = 0]
    raises [ZeroDivisionError]. *)
Definition gaussian_cells (math_exp : Q → Q) (filter_size : Z) (k sigma : Q)
    (kernel_matrix : grid npfloat) : result (grid npfloat) :=
  let center_position := (filter_size / 2)%Z in
  for_each (range 0 filter_size) (fun row kernel_matrix =>
    for_each (range 0 filter_size) (fun col kernel_matrix =>
      let r_squared :=
        (inject_Z ((row - center_position) ^ 2)
         + inject_Z ((col - center_position) ^ 2))%Q in
      if Qeq_bool (2 * (sigma * sigma)) 0
      then Raise (ZeroDivisionError "float division by zero")
      else setitem kernel_matrix row col
             (Num (k * math_exp (- r_squared / (2 * (sigma * sigma)))%Q)))
      kernel_matrix) kernel_matrix.

Definition normalize_kernel (kernel_matrix : grid npfloat) : grid npfloat :=
  grid_map (fun x => fdiv x (np_sum kernel_matrix)) kernel_matrix.

(** [filter_size] is an [int] here, the case [isinstance(filter_size, int)]
    of the source.  (For any other value, such as the tuple its docstring
    allows, the source makes no parity check and builds a kernel of shape
    [(1,)]; arrays of rank 1 are outside this model.)  The [try] block only
    catches the [KeyError] of a missing [k] or [sigma]. *)
Definition generate_filter (math_exp : Q → Q) (filter_type : string)
    (filter_size : Z) (kwargs : gmap string Q) : result (grid npfloat) :=
  if (filter_size mod 2 =? 0)%Z then
    raise_exception even_filter_msg ValueError
  else
    kernel_matrix ← np_zeros zero filter_size filter_size;
    if String.eqb filter_type BOX_FILTER then
      kernel_matrix ← np_zeros (Num 1) filter_size filter_size;
      Ok (normalize_kernel kernel_matrix)
    else if String.eqb filter_type GAUSSIAN_FILTER then
      match kwargs !! "k", kwargs !! "sigma" with
      | Some k, Some sigma =>
          kernel_matrix ← gaussian_cells math_exp filter_size k sigma kernel_matrix;
          Ok (normalize_kernel kernel_matrix)
      | _, _ => raise_exception missing_arguments_msg KeyError
      end
    else Ok kernel_matrix.

(** ** Sub-images *)

Definition even_sub_image_msg : string :=
  "The selected sub image is an even integer (sub image must have a center pixel, therefore, its size must be an odd integer)".

Definition extract_sub_image {A} (image : grid A) (position : Z * Z)
    (sub_image_size : Z) : result (grid A) :=
  if (sub_image_size mod 2 =? 0)%Z then
    raise_exception even_sub_image_msg ValueError
  else
    let row_start := (position.1 - sub_image_size / 2)%Z in
    let row_end := (position.1 + sub_image_size / 2 + 1)%Z in
    let col_start := (position.2 - sub_image_size / 2)%Z in
    let col_end := (position.2 + sub_image_size / 2 + 1)%Z in
    Ok (grid_slice image row_start row_end col_start col_end).

(** ** Normalization *)

Definition contrast_stretching (image : ndarray) : result ndarray :=
  max_value ← np_max (flat image);
  min_value ← np_min (flat image);
  let m := fdiv (Num 1) (fsub max_value min_value) in
  Ok (ndarray_map (fun x => fmul m (fsub x min_value)) image).

(** [image[image > 1] = 1] followed by [image[image < 0] = 0]. *)
Definition cutoff (x : npfloat) : npfloat :=
  let x := if fgt x (Num 1) then Num 1 else x in
  if flt x (Num 0) then Num 0 else x.

Definition image_normalization (image : ndarray) (normalization_method : string)
  : result ndarray :=
  if String.eqb normalization_method "unchanged" then Ok image
  else if String.eqb normalization_method "stretch" then
    contrast_stretching image
  else if String.eqb normalization_method "cutoff" then
    Ok (ndarray_map cutoff image)
  else Ok image.

(** ** Convolution *)

(** [np.sum(sub_image * kernel)]. *)
Definition weighted_sum (sub_image kernel : grid npfloat) : result npfloat :=
  np_sum <$> grid_map2 fmul sub_image kernel.

(** The three sums of a color pixel, over [sub_image[:, :, 0]],
    [sub_image[:, :, 1]] and [sub_image[:, :, 2]]. *)
Definition weighted_sum3 (sub_image : grid rgb) (kernel : grid npfloat)
  : result rgb :=
  red ← weighted_sum (grid_map (fun p : rgb => p.1.1) sub_image) kernel;
  green ← weighted_sum (grid_map (fun p : rgb => p.1.2) sub_image) kernel;
  blue ← weighted_sum (grid_map (fun p : rgb => p.2) sub_image) kernel;
  Ok (red, green, blue).

Definition not_symmetrical_msg : string := "Kernel is not symmetrical".

(** The two nested loops of [convolution_2d], for a pixel type [A]:
    [wsum] is the value written at a pixel. *)
Definition convolve_loop {A} (wsum : grid A → grid npfloat → result A)
    (image_shape : nat * nat) (padded_image : grid A) (kernel : grid npfloat)
    (convolution_image : grid A) : result (grid A) :=
  let kernel_size := Z.of_nat (shape0 kernel) in
  for_each
    (range (kernel_size / 2) (Z.of_nat image_shape.1 + kernel_size / 2))
    (fun row convolution_image =>
       for_each
         (range (kernel_size / 2) (Z.of_nat image_shape.2 + kernel_size / 2))
         (fun col convolution_image =>
            sub_image ← extract_sub_image padded_image (row, col) kernel_size;
            v ← wsum sub_image kernel;
            setitem convolution_image (row - kernel_size / 2)
              (col - kernel_size / 2) v)
         convolution_image)
    convolution_image.

(** The body of [convolution_2d] before the normalization; [zero] is what
    [np.zeros] fills with. *)
Definition convolve {A} (zero : A) (wsum : grid A → grid npfloat → result A)
    (image : grid A) (kernel : grid npfloat) (padding_type : string)
  : result (grid A) :=
  let kernel_size := Z.of_nat (shape0 kernel) in
  if negb (shape0 kernel =? shape1 kernel)%nat then
    raise_exception not_symmetrical_msg ValueError
  else
    padded_image ← pad_grid zero image padding_type (kernel_size / 2);
    convolution_image ←
      np_zeros zero (Z.of_nat (shape0 image)) (Z.of_nat (shape1 image));
    convolve_loop wsum (shape0 image, shape1 image) padded_image kernel
      convolution_image.

(** The array [convolution_image] that [convolution_2d] fills, before the
    normalization. *)
Definition convolve_image (image : ndarray) (kernel : grid npfloat)
    (padding_type : string) : result ndarray :=
  match image with
  | Gray g => Gray <$> convolve zero weighted_sum g kernel padding_type
  | Color g => Color <$> convolve zero3 weighted_sum3 g kernel padding_type
  end.

Definition convolution_2d (image : ndarray) (kernel : grid npfloat)
    (padding_type normalization_method : string) : result ndarray :=
  convolution_image ← convolve_image image kernel padding_type;
  image_normalization convolution_image normalization_method.

(** ** Thresholding *)

Definition thresholding (image : ndarray) (threshold_value : npfloat)
  : ndarray :=
  ndarray_map (fun x => of_bool (fgt x threshold_value)) image.

(** The NTSC formula. *)
Definition ntsc (p : rgb) : npfloat :=
  fadd (fadd (fmul (Num (2989 # 10000)) p.1.1)
             (fmul (Num (5870 # 10000)) p.1.2))
       (fmul (Num (1140 # 10000)) p.2).

(** The pixels of [convert_to_grayscale(image)], which has rank 2. *)
Definition grayscale (image : ndarray) : grid npfloat :=
  match image with
  | Color g => grid_map ntsc g
  | Gray g => g
  end.

Definition convert_to_grayscale (image : ndarray) : ndarray :=
  Gray (grayscale image).

(** ** Kirsch edge detection *)

Definition kernel3 (a b c d e f g h i : Q) : grid npfloat :=
  Grid 3 3 [[Num a; Num b; Num c]; [Num d; Num e; Num f]; [Num g; Num h; Num i]].

(** A Python dict as the list of its items, in insertion order. *)
Abbreviation dict V := (list (string * V)).

Definition dict_get {V} (d : dict V) (key : string) : result V :=
  match list_find (fun kv => String.eqb kv.1 key = true) d with
  | Some (_, kv) => Ok kv.2
  | None => Raise (KeyError key)
  end.

Definition kirsch_edge_detection_kernels : dict (grid npfloat) :=
  [ ("NORTH",      kernel3 (-3) (-3) 5   (-3) 0 5      (-3) (-3) 5);
    ("NORTH_WEST", kernel3 (-3) 5 5      (-3) 0 5      (-3) (-3) (-3));
    ("WEST",       kernel3 5 5 5         (-3) 0 (-3)   (-3) (-3) (-3));
    ("SOUTH_WEST", kernel3 5 5 (-3)      5 0 (-3)      (-3) (-3) (-3));
    ("SOUTH",      kernel3 5 (-3) (-3)   5 0 (-3)      5 (-3) (-3));
    ("SOUTH_EAST", kernel3 (-3) (-3) (-3) 5 0 (-3)     5 5 (-3));
    ("EAST",       kernel3 (-3) (-3) (-3) (-3) 0 (-3)  5 5 5);
    ("NORTH_EAST", kernel3 (-3) (-3) (-3) (-3) 0 5     (-3) 5 5) ].

(** Modelled from the spec: [image_settings.DEFAULT_NORMALIZATION_METHOD],
    the normalization [convolution_2d] applies when its caller names none;
    [Settings/image_settings.py] is not among the sources.  The spec says
    of the Kirsch responses "no normalization/threshold applied to
    intermediate results", and of the "unchanged" policy that it is a
    no-op. *)
Definition DEFAULT_NORMALIZATION_METHOD : string := "unchanged".

(** [np.zeros(shape=image.shape)]. *)
Definition zeros_like (image : ndarray) : ndarray :=
  match image with
  | Gray g =>
      Gray (Grid (shape0 g) (shape1 g)
              (replicate (shape0 g) (replicate (shape1 g) zero)))
  | Color g =>
      Color (Grid (shape0 g) (shape1 g)
               (replicate (shape0 g) (replicate (shape1 g) zero3)))
  end.

(** The first loop: the response of every direction. *)
Definition kirsch_post_convolution_images (image : ndarray)
    (padding_type : string) : result (dict ndarray) :=
  for_each kirsch_edge_detection_kernels
    (fun direction_kernel post_convolution_images =>
       filtered ← convolution_2d image direction_kernel.2 padding_type
                    DEFAULT_NORMALIZATION_METHOD;
       Ok (post_convolution_images ++ [(direction_kernel.1, filtered)]))
    [].

(** The second loop: the running maximum over the responses. *)
Definition kirsch_max_value_image (image : ndarray)
    (post_convolution_images : dict ndarray) : result ndarray :=
  for_each post_convolution_images
    (fun post_convolution_image max_value_image =>
       greater ← ndarray_map2 (fun x y => of_bool (fgt x y))
                   post_convolution_image.2 max_value_image;
       boolean_image ← ndarray_map2 fmul greater post_convolution_image.2;
       ndarray_map2 fmaximum boolean_image max_value_image)
    (zeros_like image).

(** The third loop: every direction against the maximum. *)
Definition kirsch_filtered_images (post_convolution_images : dict ndarray)
    (max_value_image : ndarray) : result (dict ndarray) :=
  for_each kirsch_edge_detection_kernels
    (fun direction filtered_images_dictionary =>
       post ← dict_get post_convolution_images direction.1;
       not_greater ← ndarray_map2 (fun x y => of_bool (fle x y))
                       post max_value_image;
       filtered ← ndarray_map2 fmul not_greater post;
       Ok (filtered_images_dictionary ++ [(direction.1, filtered)]))
    [].

Definition kirsch_edge_detection (image : ndarray) (padding_type : string)
  : result (dict ndarray) :=
  post_convolution_images ← kirsch_post_convolution_images image padding_type;
  max_value_image ← kirsch_max_value_image image post_convolution_images;
  kirsch_filtered_images post_convolution_images max_value_image.

(** ** Global thresholding *)

(** [np.count_nonzero(grayscale_image > global_threshold)]. *)
Definition count_above (g : grid npfloat) (t : npfloat) : nat :=
  length (filter (fun x => fgt x t = true) (grid_flat g)).

(** One pass of the loop: the new threshold computed from [global_threshold]. *)
Definition new_threshold (grayscale_image : grid npfloat)
    (global_threshold : npfloat) : npfloat :=
  let above_threshold_pixel_count := count_above grayscale_image global_threshold in
  let below_threshold_pixel_count :=
    (Z.of_nat (shape0 grayscale_image * shape1 grayscale_image)
     - Z.of_nat above_threshold_pixel_count)%Z in
  let above_threshold_image :=
    grid_map (fun x => fmul (of_bool (fgt x global_threshold)) x) grayscale_image in
  let below_threshold_image :=
    grid_map (fun x => fsub x (fmul (of_bool (fgt x global_threshold)) x))
      grayscale_image in
  let above_threshold_mean :=
    fdiv (np_sum above_threshold_image)
         (Num (inject_Z (Z.of_nat above_threshold_pixel_count))) in
  let below_threshold_mean :=
    fdiv (np_sum below_threshold_image)
         (Num (inject_Z below_threshold_pixel_count)) in
  round3 (fmul (Num (1 # 2)) (fadd above_threshold_mean below_threshold_mean)).

(** The [while True] loop, run for at most [fuel] passes: [Some] of the
    threshold at the [break] and of the list [thresholds], or [None] when
    the loop is still running after [fuel] passes. *)
Fixpoint global_threshold_search (fuel : nat) (grayscale_image : grid npfloat)
    (global_threshold delta_t : npfloat) (thresholds : list npfloat)
  : option (npfloat * list npfloat) :=
  match fuel with
  | O => None
  | S fuel' =>
      let new_global_threshold := new_threshold grayscale_image global_threshold in
      let thresholds := thresholds ++ [new_global_threshold] in
      if flt (fabs (fsub new_global_threshold global_threshold)) delta_t
      then Some (global_threshold, thresholds)
      else global_threshold_search fuel' grayscale_image
             (round3 new_global_threshold) delta_t thresholds
  end.

Definition global_thresholding (fuel : nat) (image : ndarray)
    (initial_threshold delta_t : npfloat) : option ndarray :=
  let grayscale_image := convert_to_grayscale image in
  let global_threshold := round3 initial_threshold in
  '(global_threshold, thresholds) ←
     global_threshold_search fuel (grayscale image) global_threshold
       delta_t [];
  Some (thresholding grayscale_image (round3 global_threshold)).

(** ** Arrays as objects

    The functions above compute the value of the array a function returns.
    To tell a new array from the input array itself, arrays live in a
    store: an address is the position of an array in the store, a function
    takes and returns addresses, and it can allocate an array, read one or
    overwrite one in place.  The store-passing functions below record, from
    the source, which expression makes a new array, which is a view or the
    argument itself, and which assignment writes in place; the values are
    those of the functions above. *)
Module Heap.

Abbreviation loc := nat.
Abbreviation state := (list ndarray).

(** A computation on the store: its outcome and the store it leaves. *)
Definition M (A : Type) : Type := state → result A * state.

Definition ret {A} (a : A) : M A := fun h => (Ok a, h).

Definition bind {A B} (m : M A) (f : A → M B) : M B := fun h =>
  match m h with
  | (Ok a, h') => f a h'
  | (Raise e, h') => (Raise e, h')
  end.

Declare Scope heap_scope.
Delimit Scope heap_scope with heap.
Notation "x <- m ;; k" := (bind m (fun x => k))
  (at level 100, m at next level, right associativity) : heap_scope.
Notation "m ;; k" := (bind m (fun _ => k))
  (at level 100, right associativity) : heap_scope.
Local Open Scope heap_scope.

(** A new array, at an address no array had before. *)
Definition alloc (a : ndarray) : M loc := fun h => (Ok (length h), h ++ [a]).

(** The array at an address.  An address of the model that holds no array
    stands for no Python object, and is refused. *)
Definition load (l : loc) : M ndarray := fun h =>
  match h !! l with
  | Some a => (Ok a, h)
  | None => (Raise (KeyError "no array at this address"), h)
  end.

(** An assignment into the array at an address, in place. *)
Definition store (l : loc) (a : ndarray) : M unit := fun h =>
  (Ok tt, <[l := a]> h).

Definition lift {A} (r : result A) : M A := fun h => (r, h).

(** [m * (image[:, :] - min_value)]: the slice is a view that is only
    read; the subtraction and the product are new arrays. *)
Definition contrast_stretching (image : loc) : M loc :=
  a <- load image;;
  max_value <- lift (np_max (flat a));;
  min_value <- lift (np_min (flat a));;
  let m := fdiv (Num 1) (fsub max_value min_value) in
  difference <- alloc (ndarray_map (fun x => fsub x min_value) a);;
  d <- load difference;;
  alloc (ndarray_map (fun x => fmul m x) d).

(** [return image] hands back the argument itself; the two masked
    assignments of "cutoff" write into the argument. *)
Definition image_normalization (image : loc) (normalization_method : string)
  : M loc :=
  if String.eqb normalization_method "unchanged" then ret image
  else if String.eqb normalization_method "stretch" then
    contrast_stretching image
  else if String.eqb normalization_method "cutoff" then
    a <- load image;;
    store image (ndarray_map (fun x => if fgt x (Num 1) then Num 1 else x) a);;
    a <- load image;;
    store image (ndarray_map (fun x => if flt x (Num 0) then Num 0 else x) a);;
    ret image
  else ret image.

(** [np.zeros] is a new array; the slice assignment writes into it, and
    [image[:, :]] is a view of the argument that is only read. *)
Definition pad_image (image : loc) (padding_type : string) (padding_size : Z)
  : M loc :=
  a <- load image;;
  padded <- lift (pad_image a padding_type padding_size);;
  alloc padded.

(** The padded image and [convolution_image] are new arrays; the loops
    read the first and write the second, which goes to
    [image_normalization]. *)
Definition convolution_2d (image : loc) (kernel : grid npfloat)
    (padding_type normalization_method : string) : M loc :=
  a <- load image;;
  if negb (shape0 kernel =? shape1 kernel)%nat then
    lift (raise_exception not_symmetrical_msg ValueError)
  else
    padded_image <- pad_image image padding_type
                      (Z.of_nat (shape0 kernel) / 2);;
    convolution_image <- alloc (zeros_like a);;
    filled <- lift (convolve_image a kernel padding_type);;
    store convolution_image filled;;
    image_normalization convolution_image normalization_method.

(** [(image > threshold_value).astype(float)]: the comparison and the
    conversion are new arrays. *)
Definition thresholding (image : loc) (threshold_value : npfloat) : M loc :=
  a <- load image;;
  mask <- alloc (ndarray_map (fun x => of_bool (fgt x threshold_value)) a);;
  b <- load mask;;
  alloc b.

End Heap.

(** ** Vocabulary of the statements *)

(** The number of channels, of rows and of columns of an image. *)
Definition channels (img : ndarray) : nat :=
  match img with Gray _ => 1 | Color _ => 3 end.

Definition rows (img : ndarray) : nat :=
  match img with Gray g | Color g => shape0 g end.

Definition cols (img : ndarray) : nat :=
  match img with Gray g | Color g => shape1 g end.

Definition chan (ch : nat) (p : rgb) : npfloat :=
  match ch with 0 => p.1.1 | 1 => p.1.2 | _ => p.2 end.

(** The channel [ch] of an image, as an array of rank 2: [image] itself
    when it is grayscale, [image[:, :, ch]] when it is a color image. *)
Definition plane (ch : nat) (img : ndarray) : grid npfloat :=
  match img with
  | Gray g => g
  | Color g => grid_map (chan ch) g
  end.

(** [b] is an array with the rank and the shape of [a]. *)
Definition like (a b : ndarray) : Prop :=
  ndarray_wf b ∧ rows b = rows a ∧ cols b = cols a ∧ channels b = channels a.

(** No pixel is an infinity or [NaN]. *)
Definition ndarray_finite (img : ndarray) : Prop := Forall finite (flat img).

(** The [K × K] window of the padded image whose top left corner is
    [(i, j)]: what [extract_sub_image] returns for the output pixel
    [(i, j)]. *)
Definition window {A} (padded : grid A) (K i j : nat) : grid A :=
  grid_slice padded (Z.of_nat i) (Z.of_nat (i + K)) (Z.of_nat j) (Z.of_nat (j + K)).

(** The value of [np.sum(sub_image * kernel)] for two arrays of one shape. *)
Definition dot (sub_image kernel : grid npfloat) : npfloat :=
  fsum (concat (zip_with (zip_with fmul) (cells sub_image) (cells kernel))).

(** The response of the 3×3 kernel [k] at the pixel [(r, c)] of channel
    [ch], read from the padded image [p]. *)
Definition response (p : ndarray) (r c ch : nat) (k : grid npfloat) : npfloat :=
  dot (window (plane ch p) 3 r c) k.

Definition Qsum (qs : list Q) : Q := foldr Qplus 0%Q qs.

(** What the second and the third loop of the Kirsch detector compute at
    one pixel: [np.maximum((r > m) * r, m)] and [(r <= M) * r]. *)
Definition running_max_step (m r : npfloat) : npfloat :=
  fmaximum (fmul (of_bool (fgt r m)) r) m.

Definition non_dominated (M r : npfloat) : npfloat :=
  fmul (of_bool (fle r M)) r.

(** The array at the address a call returns, if it returns one. *)
Definition returned (out : result Heap.loc * Heap.state) : result ndarray :=
  match out.1 with
  | Ok l => match out.2 !! l with
            | Some a => Ok a
            | None => Raise (KeyError "no array at this address")
            end
  | Raise e => Raise e
  end.

(** The outcome of a call leaves every array of the store [h] as it was,
    and an address it returns is that of a new array: not [l], and no
    address of [h]. *)
Definition fresh_result (h : Heap.state) (l : Heap.loc)
    (out : result Heap.loc * Heap.state) : Prop :=
  h `prefix_of` out.2 ∧
  ∀ l', out.1 = Ok l' → l' ≠ l ∧ h !! l' = None ∧ is_Some (out.2 !! l').

(** A computation that only adds arrays to the store, and returns the
    address of one it added. *)
Definition allocates (m : Heap.M Heap.loc) : Prop :=
  ∀ h, h `prefix_of` (m h).2 ∧
       ∀ l', (m h).1 = Ok l' → length h ≤ l' < length (m h).2.

(** ** Line detection *)

Definition line_detection_kernels : dict (grid npfloat) :=
  [ ("HORIZONTAL", kernel3 (-1) (-1) (-1)  2 2 2        (-1) (-1) (-1));
    ("PLUS_45",    kernel3 2 (-1) (-1)     (-1) 2 (-1)  (-1) (-1) 2);
    ("VERTICAL",   kernel3 (-1) 2 (-1)     (-1) 2 (-1)  (-1) 2 (-1));
    ("MINUS_45",   kernel3 (-1) (-1) 2     (-1) 2 (-1)  2 (-1) (-1)) ].

(** [convolution_2d] is called without a normalization method, so with
    [DEFAULT_NORMALIZATION_METHOD]; the keys of the kernels are distinct,
    so every assignment to [filtered_images_dictionary] adds an item. *)
Definition line_detection (image : ndarray) (padding_type : string)
    (threshold_value : npfloat) : result (dict ndarray) :=
  for_each line_detection_kernels
    (fun direction_kernel filtered_images_dictionary =>
       filtered_image ← convolution_2d image direction_kernel.2 padding_type
                          DEFAULT_NORMALIZATION_METHOD;
       Ok (filtered_images_dictionary
             ++ [(direction_kernel.1,
                  thresholding (ndarray_map fabs filtered_image)
                    threshold_value)]))
    [].

(** ** Arrays of integers

    [astype(int)] makes an array of [int64]; an array of integers has rank
    2, or rank 3 with 3 channels, like an array of floats. *)

Inductive intarray : Type :=
  | IntGray (g : grid Z)
  | IntColor (g : grid (Z * Z * Z)).

(** An array of either dtype. *)
Inductive anyarray : Type :=
  | Floats (a : ndarray)
  | Ints (a : intarray).

(** A Python number, as [scale_factor] is. *)
Inductive number : Type :=
  | PyInt (n : Z)
  | PyFloat (x : npfloat).

Definition int_map3 (f : Z → Z) (p : Z * Z * Z) : Z * Z * Z :=
  (f p.1.1, f p.1.2, f p.2).

Definition intarray_map (f : Z → Z) (a : intarray) : intarray :=
  match a with
  | IntGray g => IntGray (grid_map f g)
  | IntColor g => IntColor (grid_map (int_map3 f) g)
  end.

(** The values of an array of integers, in row-major order. *)
Definition intarray_flat (a : intarray) : list Z :=
  match a with
  | IntGray g => concat (cells g)
  | IntColor g =>
      concat (map (fun row =>
                     concat (map (fun p : Z * Z * Z => [p.1.1; p.1.2; p.2]) row))
                (cells g))
  end.

(** The integer a 64-bit product or sum wraps to. *)
Definition wrap64 (z : Z) : Z := ((z + 2 ^ 63) mod 2 ^ 64 - 2 ^ 63)%Z.

(** The conversion of a float to [int64] drops the fraction (it rounds
    toward zero).  For [NaN], an infinity or a value outside the range of
    [int64] the C conversion is undefined; numpy on x86-64 gives the
    smallest [int64], with a warning. *)
Definition astype_int (x : npfloat) : Z :=
  match x with
  | Num q =>
      let t := (Qnum q ÷ Z.pos (Qden q))%Z in
      if ((- 2 ^ 63 <=? t) && (t <? 2 ^ 63))%Z then t else (- 2 ^ 63)%Z
  | _ => (- 2 ^ 63)%Z
  end.

(** The conversion of an integer to a float. *)
Definition of_int (n : Z) : npfloat := Num (inject_Z n).

Definition to_floats (a : intarray) : ndarray :=
  match a with
  | IntGray g => Gray (grid_map of_int g)
  | IntColor g =>
      Color (grid_map (fun p : Z * Z * Z => (of_int p.1.1, of_int p.1.2, of_int p.2)) g)
  end.

(** [a.astype(int)]; an array of integers is copied as it is. *)
Definition astype_int_array (a : anyarray) : intarray :=
  match a with
  | Floats (Gray g) => IntGray (grid_map astype_int g)
  | Floats (Color g) =>
      IntColor (grid_map (fun p : rgb =>
                            (astype_int p.1.1, astype_int p.1.2, astype_int p.2)) g)
  | Ints a => a
  end.

(** [image * scale_factor]: the product of an array of integers and a
    Python [int] is an array of integers (a product wraps at 64 bits, and
    the [int] is taken to fit in 64 bits); every other product is an array
    of floats. *)
Definition times (image : anyarray) (scale_factor : number) : anyarray :=
  match image, scale_factor with
  | Floats a, PyInt n => Floats (ndarray_map (fun x => fmul x (of_int n)) a)
  | Floats a, PyFloat y => Floats (ndarray_map (fun x => fmul x y) a)
  | Ints a, PyInt n => Ints (intarray_map (fun x => wrap64 (x * n)) a)
  | Ints a, PyFloat y => Floats (ndarray_map (fun x => fmul x y) (to_floats a))
  end.

(** [scale_factor == n] for an integer [n]. *)
Definition number_eqb (scale_factor : number) (n : Z) : bool :=
  match scale_factor with
  | PyInt k => (k =? n)%Z
  | PyFloat (Num q) => Qeq_bool q (inject_Z n)
  | PyFloat _ => false
  end.

(** ** Scaling the pixel values *)

(** [copy.deepcopy] of the product, which is a new array already, changes
    no value. *)
Definition scale_image (image : anyarray) (scale_factor : number) : anyarray :=
  let scaled_image := times image scale_factor in
  if number_eqb scale_factor 255 then Ints (astype_int_array scaled_image)
  else scaled_image.

(** ** Histogram *)

(** [g[row][col]]. *)
Definition getitem {A} (g : grid A) (row col : Z) : result A :=
  i ← index (shape0 g) row;
  j ← index (shape1 g) col;
  match at2 g i j with
  | Some x => Ok x
  | None => Raise (IndexError "index is out of bounds")
  end.

(** The two loops of [calculate_histogram]:
    [histogram[image[row][col]] += 1], where a negative pixel value counts
    from the end of [histogram] and a value outside it is an [IndexError]. *)
Definition histogram_loop (image : grid Z) (histogram : list npfloat)
  : result (list npfloat) :=
  for_each (range 0 (Z.of_nat (shape0 image)))
    (fun row histogram =>
       for_each (range 0 (Z.of_nat (shape1 image)))
         (fun col histogram =>
            v ← getitem image row col;
            i ← index (length histogram) v;
            Ok (alter (fun x => fadd x (Num 1)) i histogram))
         histogram)
    histogram.

(** The body of [calculate_histogram] for an array of rank 2.
    [scale_image] with the factor 255 returns an array of integers of the
    rank of its argument, so the last case of the [match] does not
    arise.  The division [histogram /= (rows * cols)] is numpy's: by zero
    it gives [NaN] or an infinity and raises nothing. *)
Definition calculate_histogram_2d (image : anyarray) (normalize : bool)
  : result (list npfloat) :=
  match scale_image image (PyInt 255) with
  | Ints (IntGray image) =>
      histogram_loop image (replicate 256 zero) ≫= fun histogram : list npfloat =>
      if normalize then
        Ok ((fun x => fdiv x (of_int (Z.of_nat (shape0 image * shape1 image))))
              <$> histogram)
      else Ok histogram
  | _ => Raise (IndexError "too many indices for array")
  end.

(** What [calculate_histogram] returns: one histogram, or the tuple of the
    histograms of the three channels. *)
Inductive histograms : Type :=
  | Histogram (histogram : list npfloat)
  | Histograms (red green blue : list npfloat).

Definition int_chan (ch : nat) (p : Z * Z * Z) : Z :=
  match ch with 0 => p.1.1 | 1 => p.1.2 | _ => p.2 end.

(** [image[:, :, ch]] when [len(image.shape) == 3]. *)
Definition channel_image (ch : nat) (image : anyarray) : option anyarray :=
  match image with
  | Floats (Color g) => Some (Floats (Gray (grid_map (chan ch) g)))
  | Ints (IntColor g) => Some (Ints (IntGray (grid_map (int_chan ch) g)))
  | _ => None
  end.

Definition calculate_histogram (image : anyarray) (normalize : bool)
  : result histograms :=
  match channel_image 0 image, channel_image 1 image, channel_image 2 image with
  | Some red, Some green, Some blue =>
      red ← calculate_histogram_2d red normalize;
      green ← calculate_histogram_2d green normalize;
      blue ← calculate_histogram_2d blue normalize;
      Ok (Histograms red green blue)
  | _, _, _ => Histogram <$> calculate_histogram_2d image normalize
  end.

(** ** Lookup tables *)

(** [lookup_table[v]] for one pixel value [v]. *)
Definition table_entry (lookup_table : list npfloat) (v : Z) : result npfloat :=
  i ← index (length lookup_table) v;
  match lookup_table !! i with
  | Some x => Ok x
  | None => Raise (IndexError "index is out of bounds")
  end.

Definition grid_mapM {A B} (f : A → result B) (g : grid A) : result (grid B) :=
  rows ← mapM (mapM f) (cells g);
  Ok (Grid (shape0 g) (shape1 g) rows).

(** [image] is an array of integers (numpy refuses an array of floats as an
    index) and [lookup_table] an array of rank 1.  [new_image] is a copy of
    [image], so what is assigned to [new_image[:, :]] is converted to
    integers. *)
Definition use_lookup_table (image : intarray) (lookup_table : list npfloat)
  : result intarray :=
  match image with
  | IntGray g =>
      IntGray <$> grid_mapM (fun v => astype_int <$> table_entry lookup_table v) g
  | IntColor g =>
      IntColor <$>
        grid_mapM (fun p : Z * Z * Z =>
                     r ← table_entry lookup_table p.1.1;
                     g ← table_entry lookup_table p.1.2;
                     b ← table_entry lookup_table p.2;
                     Ok (astype_int r, astype_int g, astype_int b)) g
  end.

(** ** Salt and pepper noise *)

Definition cumsum (p : list Q) : list Q :=
  (foldl (fun acc x => (acc.1 + x, acc.2 ++ [acc.1 + x])%Q) (0%Q, []) p).2.

(** The tolerance of the check that the probabilities sum to 1: the square
    root of the machine epsilon [2 ^ -52] of [float64]. *)
Definition atol : Q := 1 # (2 ^ 26).

(** [numpy.random.choice(a, p=p)], given the number [u] that
    [random_sample] draws from [0, 1) for it: [a] and the probabilities are
    checked, and the element chosen is the one at
    [cdf.searchsorted(u, side='right')], the number of entries of [cdf]
    that are at most [u], where [cdf] is [p.cumsum()] divided by its last
    entry. *)
Definition random_choice (u : Q) (a : list npfloat) (p : list Q)
  : result npfloat :=
  if (length a =? 0)%nat then
    Raise (ValueError "'a' cannot be empty unless no samples are taken")
  else if negb (length p =? length a)%nat then
    Raise (ValueError "'a' and 'p' must have same size")
  else if existsb (fun x => Qltb x 0) p then
    Raise (ValueError "probabilities are not non-negative")
  else if Qltb atol (Qabs (Qsum p - 1)) then
    Raise (ValueError "probabilities do not sum to 1")
  else
    let cdf := cumsum p in
    let cdf := (fun c => c / default 0 (last cdf))%Q <$> cdf in
    let idx := length (filter (fun c => Qle_bool c u = true) cdf) in
    match a !! idx with
    | Some x => Ok x
    | None => Raise (IndexError "index is out of bounds")
    end.

(** [image] is an array of rank 2 and [random_sample row col] is the number
    drawn for the pixel [(row, col)].  The counters [pepper_pixels] and
    [salt_pixels] only feed the two log messages; the messages are built
    after the loops, and they divide by the number of pixels. *)
Definition salt_and_pepper (random_sample : Z → Z → Q) (image : grid npfloat)
    (pepper salt : Q) : result (grid npfloat) :=
  noisy_image ← np_zeros zero (Z.of_nat (shape0 image)) (Z.of_nat (shape1 image));
  noisy_image ←
    for_each (range 0 (Z.of_nat (shape0 image)))
      (fun row noisy_image =>
         for_each (range 0 (Z.of_nat (shape1 image)))
           (fun col noisy_image =>
              x ← getitem image row col;
              new_pixel ← random_choice (random_sample row col)
                            [Num 0; Num 1; x]
                            [pepper; salt; 1 - (pepper + salt)]%Q;
              setitem noisy_image row col new_pixel)
           noisy_image)
      noisy_image;
  if (Z.of_nat (shape0 image) * Z.of_nat (shape1 image) =? 0)%Z then
    Raise (ZeroDivisionError "division by zero")
  else Ok noisy_image.

(** ** Vocabulary of the further properties *)

(** The rows [[f 0 0; ...; f 0 (w-1)]; ...] of an array given by a
    formula. *)
Definition tabulate {A} (h w : nat) (f : nat → nat → A) : list (list A) :=
  (fun i => f i <$> seq 0 w) <$> seq 0 h.

(** The weight of the Gaussian filter of side [2m + 1] at [(i, j)], before
    the normalization and without the factor [k]. *)
Definition gaussian_weight (math_exp : Q → Q) (m : nat) (sigma : Q)
    (i j : nat) : Q :=
  math_exp (- (inject_Z ((Z.of_nat i - Z.of_nat m) ^ 2)
               + inject_Z ((Z.of_nat j - Z.of_nat m) ^ 2))
            / (2 * (sigma * sigma)))%Q.

Definition gaussian_total (math_exp : Q → Q) (m : nat) (sigma : Q) : Q :=
  Qsum (concat (tabulate (2 * m + 1) (2 * m + 1)
                  (gaussian_weight math_exp m sigma))).

(** A pixel value in the range [0, 1] of an image. *)
Definition in_unit (x : npfloat) : Prop :=
  match x with Num q => (0 <= q <= 1)%Q | _ => False end.

(** A finite weight that is not negative. *)
Definition nonneg (x : npfloat) : Prop :=
  match x with Num q => (0 <= q)%Q | _ => False end.

(** The bin of [calculate_histogram] a pixel value falls in: the value
    scaled by 255 and converted to an integer. *)
Definition bin (x : npfloat) : Z := astype_int (fmul x (of_int 255)).

(** The number of pixels of an array that fall in the bin [k]. *)
Definition count_bin (g : grid npfloat) (k : nat) : nat :=
  length (filter (fun x => bin x = Z.of_nat k) (grid_flat g)).

(** [histogram] has 256 bins, and its bin [k] holds the number of pixels of
    [g] that fall in it. *)
Definition histogram_of (g : grid npfloat) (histogram : list npfloat) : Prop :=
  length histogram = 256 ∧
  ∀ k, k < 256 →
    ∃ q, histogram !! k = Some (Num q) ∧
         (q == inject_Z (Z.of_nat (count_bin g k)))%Q.

(** One step of the loops of [calculate_histogram]:
    [histogram[v] += 1]. *)
Definition increment (v : Z) (histogram : list npfloat)
  : result (list npfloat) :=
  i ← index (length histogram) v;
  Ok (alter (fun x => fadd x (Num 1)) i histogram).

(** What [use_lookup_table] writes for the pixel value [v]: the entry [v]
    of the table, converted to an integer. *)
Definition table_value (lookup_table : list npfloat) (v : Z) : Z :=
  astype_int (default NaN (lookup_table !! Z.to_nat v)).

(** The pixel [salt_and_pepper] writes when [random_sample] draws [u]:
    black below [pepper], white from [pepper] to [pepper + salt], and the
    pixel of the image above. *)
Definition noisy_pixel (u pepper salt : Q) (x : npfloat) : npfloat :=
  if Qltb u pepper then Num 0
  else if Qltb u (pepper + salt) then Num 1
  else x.

(** ** Sample inputs *)

Definition impulse3 : ndarray :=
  Gray (Grid 3 3 [[Num 0; Num 0; Num 0]; [Num 0; Num 1; Num 0];
                  [Num 0; Num 0; Num 0]]).

Definition ones3 : ndarray :=
  Gray (Grid 3 3 [[Num 1; Num 1; Num 1]; [Num 1; Num 1; Num 1];
                  [Num 1; Num 1; Num 1]]).

Definition box3 : grid npfloat :=
  Grid 3 3 [[Num (1 # 9); Num (1 # 9); Num (1 # 9)];
            [Num (1 # 9); Num (1 # 9); Num (1 # 9)];
            [Num (1 # 9); Num (1 # 9); Num (1 # 9)]].

Definition gray4 : ndarray :=
  Gray (Grid 1 4 [[Num (1 # 10); Num (2 # 10); Num (8 # 10); Num (9 # 10)]]).

Definition gray12 : ndarray := Gray (Grid 1 2 [[Num 1; Num 2]]).

(** * Properties *)

(** ** Numbers *)

Lemma Qltb_true (a b : Q) : Qltb a b = true ↔ (a < b)%Q.
Proof.
  unfold Qltb. rewrite negb_true_iff, <- not_true_iff_false, Qle_bool_iff.
  split; [apply Qnot_le_lt | apply Qlt_not_le].
Qed.

Lemma Qltb_false (a b : Q) : Qltb a b = false ↔ (b <= a)%Q.
Proof. unfold Qltb. by rewrite negb_false_iff, Qle_bool_iff. Qed.

Lemma Qle_bool_false (a b : Q) : Qle_bool a b = false ↔ (b < a)%Q.
Proof.
  rewrite <- not_true_iff_false, Qle_bool_iff.
  split; [apply Qnot_le_lt | apply Qlt_not_le].
Qed.

Lemma feq_refl x : feq x x.
Proof. destruct x; simpl; done. Qed.

Lemma feq_sym x y : feq x y → feq y x.
Proof. destruct x, y; simpl; done. Qed.

Lemma feq_trans x y z : feq x y → feq y z → feq x z.
Proof.
  destruct x, y, z; simpl; try done. intros H1 H2. by rewrite H1.
Qed.

Lemma fsum_Num (qs : list Q) : fsum (Num <$> qs) = Num (Qsum qs).
Proof.
  induction qs as [|q qs IH]; [done|].
  change (fsum (Num <$> q :: qs)) with (fadd (Num q) (fsum (Num <$> qs))).
  by rewrite IH.
Qed.

Lemma Forall_finite (l : list npfloat) :
  Forall finite l → ∃ qs, l = Num <$> qs.
Proof.
  induction 1 as [|x l Hx _ [qs ->]]; [by exists []|].
  destruct x as [q| | |]; try done. by exists (q :: qs).
Qed.

Lemma finite_rows (l : list (list npfloat)) :
  Forall (Forall finite) l → ∃ ql : list (list Q), l = map (map Num) ql.
Proof.
  induction 1 as [|row l Hrow _ [ql ->]]; [by exists []|].
  destruct (Forall_finite row Hrow) as [qs ->]. by exists (qs :: ql).
Qed.

Lemma constant_values (l : list npfloat) (c : Q) :
  Forall (fun x => feq x (Num c)) l →
  ∃ qs, l = Num <$> qs ∧ Forall (fun q => (q == c)%Q) qs.
Proof.
  induction 1 as [|x l Hx _ (qs & -> & Hqs)]; [by exists []|].
  destruct x as [q| | |]; try done. exists (q :: qs). split; [done|].
  by constructor.
Qed.

Lemma Qsum_app (a b : list Q) : (Qsum (a ++ b) == Qsum a + Qsum b)%Q.
Proof.
  unfold Qsum. induction a as [|x a IH]; cbn [app foldr]; [ring|].
  rewrite IH. ring.
Qed.

Lemma Qsum_lt (qs : list Q) (c : Q) :
  qs ≠ [] → (c < 0)%Q → Forall (fun q => (q <= c)%Q) qs → (Qsum qs < 0)%Q.
Proof.
  intros Hne Hc Hall. induction Hall as [|q qs Hq Hall IH]; [done|]. simpl.
  destruct qs as [|q' qs]; [simpl; lra|].
  assert (Qsum (q' :: qs) < 0)%Q by (by apply IH). lra.
Qed.

Lemma fmaximum_Num (a b : Q) :
  ∃ c, fmaximum (Num a) (Num b) = Num c ∧ (a <= c)%Q ∧ (b <= c)%Q ∧
       (c == a ∨ c == b)%Q.
Proof.
  simpl. destruct (Qle_bool a b) eqn:Hle.
  - apply Qle_bool_iff in Hle. exists b. split; [done|]. lra.
  - apply Qle_bool_false in Hle. exists a. split; [done|]. lra.
Qed.

Lemma foldl_fmaximum_Num (qs : list Q) (a : Q) :
  ∃ c, foldl fmaximum (Num a) (Num <$> qs) = Num c ∧ (a <= c)%Q ∧
       Forall (fun q => (q <= c)%Q) qs ∧
       ((c == a)%Q ∨ Exists (fun q => (c == q)%Q) qs).
Proof.
  revert a. induction qs as [|q qs IH]; intros a.
  - exists a. split_and!; try done; [lra | by left].
  - rewrite fmap_cons. cbn [foldl].
    destruct (fmaximum_Num a q) as (a' & -> & Ha & Hq & Hor).
    destruct (IH a') as (c & -> & Hc & Hall & Horc).
    exists c. split_and!; try done; [lra| |].
    + constructor; [lra|done].
    + destruct Horc as [Hc'|Hex]; [|right; by right].
      destruct Hor as [Hor|Hor]; [left; lra|right; left; lra].
Qed.

Lemma np_max_Num (q : Q) (qs : list Q) :
  ∃ c, np_max (Num <$> (q :: qs)) = Ok (Num c) ∧
       Forall (fun q => (q <= c)%Q) (q :: qs) ∧
       Exists (fun q => (c == q)%Q) (q :: qs).
Proof.
  rewrite fmap_cons. cbn [np_max].
  destruct (foldl_fmaximum_Num qs q) as (c & -> & Hc & Hall & Hor).
  exists c. split_and!; try done.
  - by constructor.
  - destruct Hor as [Hor|Hor]; [by left|by right].
Qed.

Lemma fminimum_Num (a b : Q) :
  ∃ c, fminimum (Num a) (Num b) = Num c ∧ (c == a ∨ c == b)%Q.
Proof.
  simpl. destruct (Qle_bool a b); eexists; (split; [done|]); [left|right]; done.
Qed.

Lemma foldl_fminimum_Num (qs : list Q) (a : Q) :
  ∃ c, foldl fminimum (Num a) (Num <$> qs) = Num c ∧
       ((c == a)%Q ∨ Exists (fun q => (c == q)%Q) qs).
Proof.
  revert a. induction qs as [|q qs IH]; intros a.
  - exists a. split; [done|]. by left.
  - rewrite fmap_cons. cbn [foldl].
    destruct (fminimum_Num a q) as (a' & -> & Hor).
    destruct (IH a') as (c & -> & Horc).
    exists c. split; [done|].
    destruct Horc as [Hc'|Hex]; [|right; by right].
    destruct Hor as [Hor|Hor]; [left; lra|right; left; lra].
Qed.

Lemma rint_integer (q : Q) (n : Z) : (q == inject_Z n)%Q → rint q = n.
Proof.
  intros Hq. unfold rint. rewrite (Qfloor_comp _ _ Hq), Qfloor_Z.
  replace (Qltb (q - inject_Z n) (1 # 2)) with true; [done|].
  symmetry. apply Qltb_true. lra.
Qed.

Lemma round3_idempotent (x : npfloat) : round3 (round3 x) = round3 x.
Proof.
  destruct x as [q| | |]; try done. simpl. do 2 f_equal.
  apply rint_integer. unfold Qeq. simpl. lia.
Qed.

(** ** Loops and dicts *)

Lemma for_each_ext {S X} (xs : list X) (f g : X → S → result S) s :
  (∀ x s, x ∈ xs → f x s = g x s) → for_each xs f s = for_each xs g s.
Proof.
  revert s. induction xs as [|x xs IH]; intros s Hfg; [done|]. simpl.
  rewrite Hfg by left. destruct (g x s) as [s'|e]; [|done]. simpl.
  apply IH. intros y t Hy. apply Hfg. by right.
Qed.

Lemma elem_of_range (a b x : Z) : x ∈ range a b ↔ (a ≤ x < b)%Z.
Proof. unfold range. rewrite elem_of_seqZ. lia. Qed.

Lemma range_cons (a b : Z) : (a < b)%Z → range a b = a :: range (a + 1) b.
Proof.
  intros Hab. unfold range. rewrite seqZ_cons by lia. f_equal. f_equal; lia.
Qed.

Lemma for_each_collect {K V} (name : K → string) (f : K → result V)
    (P : K → V → Prop) (ks : list K) (acc : dict V) :
  Forall (fun k => ∃ v, f k = Ok v ∧ P k v) ks →
  ∃ vs, for_each ks (fun k acc => v ← f k; Ok (acc ++ [(name k, v)])) acc
        = Ok (acc ++ vs) ∧
        Forall2 (fun k kv => kv.1 = name k ∧ f k = Ok kv.2 ∧ P k kv.2) ks vs.
Proof.
  intros Hks. revert acc. induction Hks as [|k ks (v & Hv & HP) _ IH]; intros acc.
  - exists []. simpl. by rewrite app_nil_r.
  - simpl. rewrite Hv. simpl.
    destruct (IH (acc ++ [(name k, v)])) as (vs & -> & Hvs).
    exists ((name k, v) :: vs). rewrite <- app_assoc. split; [done|].
    by constructor.
Qed.

(** A key that occurs once is found where it was inserted. *)
Lemma dict_get_lookup {V} (d : dict V) (i : nat) (key : string) (v : V) :
  NoDup d.*1 → d !! i = Some (key, v) → dict_get d key = Ok v.
Proof.
  revert i. induction d as [|[k w] d IH]; intros i Hnd Hi; [done|].
  apply NoDup_cons in Hnd as [Hk Hnd]. unfold dict_get. simpl.
  destruct i as [|i]; simpl in Hi.
  - injection Hi as -> ->. rewrite String.eqb_refl.
    rewrite decide_True by done. done.
  - destruct (String.eqb_spec k key) as [->|Hne].
    + exfalso. apply Hk. apply list_elem_of_fmap. exists (key, v).
      split; [done|]. by eapply list_elem_of_lookup_2.
    + rewrite decide_False by done.
      specialize (IH i Hnd Hi). unfold dict_get in IH.
      destruct (list_find _ d) as [[j kv]|]; simpl; [|done]. done.
Qed.

(** ** Arrays *)

Lemma at2_Some {A} (g : grid A) i j x :
  at2 g i j = Some x ↔ ∃ row, cells g !! i = Some row ∧ row !! j = Some x.
Proof.
  unfold at2. destruct (cells g !! i) as [row|]; simpl.
  - split; [intros H; eauto | intros (row' & [= <-] & H); done].
  - split; [done | intros (row' & [=] & _)].
Qed.

Lemma at2_lt {A} (g : grid A) i j x :
  wf g → at2 g i j = Some x → i < shape0 g ∧ j < shape1 g.
Proof.
  intros [Hlen Hrows] (row & Hi & Hj)%at2_Some.
  split.
  - rewrite <- Hlen. eapply lookup_lt_Some, Hi.
  - rewrite Forall_lookup in Hrows. rewrite <- (Hrows _ _ Hi).
    eapply lookup_lt_Some, Hj.
Qed.

Lemma at2_is_Some {A} (g : grid A) i j :
  wf g → i < shape0 g → j < shape1 g → is_Some (at2 g i j).
Proof.
  intros [Hlen Hrows] Hi Hj.
  destruct (lookup_lt_is_Some_2 (cells g) i) as [row Hrow]; [lia|].
  rewrite Forall_lookup in Hrows.
  destruct (lookup_lt_is_Some_2 row j) as [x Hx].
  { rewrite (Hrows _ _ Hrow). done. }
  exists x. apply at2_Some. eauto.
Qed.

Lemma at2_Forall {A} (P : A → Prop) (g : grid A) :
  (∀ i j x, at2 g i j = Some x → P x) → Forall (Forall P) (cells g).
Proof.
  intros H. apply Forall_lookup. intros i row Hrow.
  apply Forall_lookup. intros j x Hx. apply (H i j). apply at2_Some. eauto.
Qed.

Lemma wf_replicate {A} (z : A) r c :
  wf (Grid r c (replicate r (replicate c z))).
Proof.
  split; simpl.
  - apply length_replicate.
  - apply Forall_replicate, length_replicate.
Qed.

Lemma at2_replicate {A} (z : A) r c i j :
  i < r → j < c → at2 (Grid r c (replicate r (replicate c z))) i j = Some z.
Proof.
  intros Hi Hj. apply at2_Some. exists (replicate c z).
  split; by apply lookup_replicate_2.
Qed.

Lemma at2_grid_map {A B} (f : A → B) (g : grid A) i j :
  at2 (grid_map f g) i j = f <$> at2 g i j.
Proof.
  unfold at2, grid_map. simpl. rewrite list_lookup_fmap.
  destruct (cells g !! i) as [row|]; [|done]. simpl.
  apply list_lookup_fmap.
Qed.

Lemma wf_grid_map {A B} (f : A → B) (g : grid A) : wf g → wf (grid_map f g).
Proof.
  intros [Hlen Hrows]. split; simpl.
  - by rewrite length_map.
  - apply Forall_fmap. eapply Forall_impl; [exact Hrows|].
    intros row Hrow. simpl. by rewrite length_map.
Qed.

(** *** Slices *)

Lemma slice_index_nonneg len (i : Z) :
  (0 ≤ i ≤ Z.of_nat len)%Z → slice_index len i = Z.to_nat i.
Proof.
  intros Hi. unfold slice_index.
  destruct (Z.ltb_spec i 0); [lia|]. f_equal. lia.
Qed.

Lemma slice_index_neg len (i : Z) :
  (- Z.of_nat len ≤ i < 0)%Z → slice_index len i = Z.to_nat (i + Z.of_nat len).
Proof.
  intros Hi. unfold slice_index.
  destruct (Z.ltb_spec i 0); [|lia]. f_equal. lia.
Qed.

Lemma grid_slice_grid_map {A B} (f : A → B) (g : grid A) r0 r1 c0 c1 :
  grid_slice (grid_map f g) r0 r1 c0 c1 = grid_map f (grid_slice g r0 r1 c0 c1).
Proof.
  unfold grid_slice, grid_map. simpl. f_equal.
  change (map (map f) (cells g)) with (fmap (M:=list) (fmap f) (cells g)).
  rewrite <- fmap_drop, <- fmap_take, <- !list_fmap_compose.
  apply list_fmap_ext. intros _ row _. simpl.
  change (map f row) with (f <$> row).
  by rewrite <- fmap_drop, <- fmap_take.
Qed.

(** A window that lies inside the array. *)
Lemma grid_slice_inside {A} (g : grid A) (r0 c0 h w : nat) :
  wf g → r0 + h ≤ shape0 g → c0 + w ≤ shape1 g →
  let s := grid_slice g (Z.of_nat r0) (Z.of_nat (r0 + h))
             (Z.of_nat c0) (Z.of_nat (c0 + w)) in
  wf s ∧ shape0 s = h ∧ shape1 s = w ∧
  ∀ i j, i < h → j < w → at2 s i j = at2 g (r0 + i) (c0 + j).
Proof.
  intros [Hlen Hrows] Hr Hc s.
  assert (Hl0 : slice_lo (shape0 g) (Z.of_nat r0) (Z.of_nat (r0 + h)) = r0).
  { unfold slice_lo. rewrite slice_index_nonneg; lia. }
  assert (Hl1 : slice_lo (shape1 g) (Z.of_nat c0) (Z.of_nat (c0 + w)) = c0).
  { unfold slice_lo. rewrite slice_index_nonneg; lia. }
  assert (Hn0 : slice_len (shape0 g) (Z.of_nat r0) (Z.of_nat (r0 + h)) = h).
  { unfold slice_len. rewrite !slice_index_nonneg; lia. }
  assert (Hn1 : slice_len (shape1 g) (Z.of_nat c0) (Z.of_nat (c0 + w)) = w).
  { unfold slice_len. rewrite !slice_index_nonneg; lia. }
  subst s. unfold grid_slice. rewrite Hl0, Hl1, Hn0, Hn1.
  rewrite Forall_lookup in Hrows.
  split_and!; simpl; try done.
  - split; simpl.
    + rewrite length_fmap, length_take, length_drop. lia.
    + apply Forall_fmap, Forall_lookup. intros i row Hrow. simpl.
      rewrite lookup_take_Some, lookup_drop in Hrow. destruct Hrow as [Hrow _].
      rewrite length_take, length_drop, (Hrows _ _ Hrow). lia.
  - intros i j Hi Hj. unfold at2. simpl.
    rewrite list_lookup_fmap, lookup_take_lt, lookup_drop by done.
    destruct (cells g !! (r0 + i)) as [row|]; [|done]. simpl.
    by rewrite lookup_take_lt, lookup_drop.
Qed.

(** *** Assignments *)

Lemma index_Ok (len : nat) (i : Z) :
  (0 ≤ i < Z.of_nat len)%Z → index len i = Ok (Z.to_nat i).
Proof.
  intros Hi. unfold index.
  destruct (Z.ltb_spec i 0); [lia|].
  destruct (Z.leb_spec 0 i); [|lia].
  destruct (Z.ltb_spec i (Z.of_nat len)); [done|lia].
Qed.

Lemma setitem_spec {A} (g : grid A) (i j : Z) (v : A) :
  wf g → (0 ≤ i < Z.of_nat (shape0 g))%Z → (0 ≤ j < Z.of_nat (shape1 g))%Z →
  ∃ out, setitem g i j v = Ok out ∧ wf out ∧
         shape0 out = shape0 g ∧ shape1 out = shape1 g ∧
         ∀ i' j', at2 out i' j' =
           if bool_decide (Z.of_nat i' = i ∧ Z.of_nat j' = j) then Some v
           else at2 g i' j'.
Proof.
  intros [Hlen Hrows] Hi Hj. unfold setitem.
  rewrite (index_Ok _ i Hi), (index_Ok _ j Hj). simpl.
  eexists. split; [done|]. simpl.
  rewrite Forall_lookup in Hrows.
  refine (conj _ (conj eq_refl (conj eq_refl _))).
  - split; simpl; [by rewrite length_alter|].
    apply Forall_lookup. intros k row Hrow.
    destruct (decide (k = Z.to_nat i)) as [->|Hne].
    + rewrite list_lookup_alter_eq in Hrow.
      destruct (cells g !! Z.to_nat i) as [row'|] eqn:Hrow'; [|done].
      simpl in Hrow. injection Hrow as <-. rewrite length_insert.
      by eapply Hrows.
    + rewrite list_lookup_alter_ne in Hrow by done. by eapply Hrows.
  - intros i' j'. unfold at2. simpl.
    destruct (decide (i' = Z.to_nat i)) as [->|Hne].
    + rewrite list_lookup_alter_eq.
      destruct (lookup_lt_is_Some_2 (cells g) (Z.to_nat i)) as [row Hrow];
        [lia|].
      rewrite Hrow. simpl.
      destruct (decide (j' = Z.to_nat j)) as [->|Hnej].
      * rewrite list_lookup_insert_eq.
        2: { rewrite (Hrows _ _ Hrow). lia. }
        rewrite bool_decide_eq_true_2; [done|lia].
      * rewrite list_lookup_insert_ne by done.
        rewrite bool_decide_eq_false_2; [done|lia].
    + rewrite list_lookup_alter_ne by done.
      rewrite bool_decide_eq_false_2; [done|lia].
Qed.

Section fill.
Context {A : Type} (f : Z → Z → result A) (val : Z → Z → A) (m : Z).

Lemma fill_row (cols : list Z) (row : Z) (acc : grid A) :
  wf acc → (0 ≤ row - m < Z.of_nat (shape0 acc))%Z →
  (∀ col, col ∈ cols →
     (0 ≤ col - m < Z.of_nat (shape1 acc))%Z ∧ f row col = Ok (val row col)) →
  ∃ out,
    for_each cols
      (fun col a => v ← f row col; setitem a (row - m) (col - m) v) acc
    = Ok out ∧
    wf out ∧ shape0 out = shape0 acc ∧ shape1 out = shape1 acc ∧
    ∀ i j, at2 out i j =
      if bool_decide (Z.of_nat i = (row - m)%Z ∧ (Z.of_nat j + m)%Z ∈ cols)
      then Some (val row (Z.of_nat j + m)%Z)
      else at2 acc i j.
Proof.
  revert acc. induction cols as [|col cols IH]; intros acc Hwf Hrow Hcols.
  - exists acc. simpl. split_and!; try done. intros i j.
    rewrite bool_decide_eq_false_2; [done|]. intros [_ H]. inversion H.
  - simpl. destruct (Hcols col ltac:(left)) as [Hcol ->]. simpl.
    destruct (setitem_spec acc (row - m) (col - m) (val row col))
      as (acc' & -> & Hwf' & Hs0 & Hs1 & Hat'); [done..|]. simpl.
    destruct (IH acc') as (out & -> & Hwfo & Ho0 & Ho1 & Hat).
    { done. } { by rewrite Hs0. }
    { intros c Hc. rewrite Hs1. apply Hcols. by right. }
    exists out. split_and!; try done; try congruence.
    intros i j. rewrite Hat, Hat'.
    repeat case_bool_decide; rewrite ?elem_of_cons in *; try done;
      try (exfalso; intuition lia).
    do 2 f_equal. lia.
Qed.

Lemma fill_rows (rws cls : list Z) (acc : grid A) :
  wf acc →
  (∀ row, row ∈ rws → (0 ≤ row - m < Z.of_nat (shape0 acc))%Z) →
  (∀ col, col ∈ cls → (0 ≤ col - m < Z.of_nat (shape1 acc))%Z) →
  (∀ row col, row ∈ rws → col ∈ cls → f row col = Ok (val row col)) →
  ∃ out,
    for_each rws
      (fun row a =>
         for_each cls
           (fun col a => v ← f row col; setitem a (row - m) (col - m) v) a)
      acc
    = Ok out ∧
    wf out ∧ shape0 out = shape0 acc ∧ shape1 out = shape1 acc ∧
    ∀ i j, at2 out i j =
      if bool_decide ((Z.of_nat i + m)%Z ∈ rws ∧ (Z.of_nat j + m)%Z ∈ cls)
      then Some (val (Z.of_nat i + m)%Z (Z.of_nat j + m)%Z)
      else at2 acc i j.
Proof.
  revert acc. induction rws as [|row rws IH]; intros acc Hwf Hrws Hcls Hf.
  - exists acc. simpl. split_and!; try done.
    all: intros i j; rewrite bool_decide_eq_false_2; [done|].
    all: intros [H _]; inversion H.
  - simpl.
    destruct (fill_row cls row acc)
      as (acc' & -> & Hwf' & Hs0 & Hs1 & Hat'); [done| |..].
    { apply Hrws. left. }
    { intros col Hcol. split; [by apply Hcls|]. apply Hf; [left|done]. }
    simpl.
    destruct (IH acc') as (out & -> & Hwfo & Ho0 & Ho1 & Hat); [done|..].
    { intros r Hr. rewrite Hs0. apply Hrws. by right. }
    { intros c Hc. rewrite Hs1. by apply Hcls. }
    { intros r c Hr Hc. apply Hf; [by right|done]. }
    exists out. split_and!; try done; try congruence.
    intros i j. rewrite Hat, Hat'.
    repeat case_bool_decide; rewrite ?elem_of_cons in *; try done;
      destruct_and?; try (exfalso; tauto).
    + do 2 f_equal. lia.
    + exfalso. apply H1. split; [left; lia|done].
    + destruct_or!; [|tauto]. exfalso. apply H0. split; [lia|done].
Qed.
End fill.

(** *** Elementwise operations *)

Lemma stretch_id {A} (n : nat) (l : list A) : length l = n → stretch n l = l.
Proof. destruct l as [|x [|y l]]; simpl; intros <-; done. Qed.

Lemma grid_map2_same {A B C} (f : A → B → C) (a : grid A) (b : grid B) :
  wf a → wf b → shape0 a = shape0 b → shape1 a = shape1 b →
  ∃ c, grid_map2 f a b = Ok c ∧ wf c ∧
       shape0 c = shape0 a ∧ shape1 c = shape1 a ∧
       cells c = zip_with (zip_with f) (cells a) (cells b) ∧
       ∀ i j x y, at2 a i j = Some x → at2 b i j = Some y →
                  at2 c i j = Some (f x y).
Proof.
  intros [Hla Hra] [Hlb Hrb] H0 H1. unfold grid_map2.
  rewrite <- H0, <- H1. unfold broadcast_dim. rewrite !Nat.eqb_refl.
  rewrite !stretch_id by congruence.
  assert (Hz : zip_with
            (fun ra rb => zip_with f (stretch (shape1 a) ra) (stretch (shape1 a) rb))
            (cells a) (cells b)
          = zip_with (zip_with f) (cells a) (cells b)).
  { apply list_eq. intros i. rewrite !lookup_zip_with.
    destruct (cells a !! i) as [ra|] eqn:Ha; [|done]. simpl.
    destruct (cells b !! i) as [rb|] eqn:Hb; [|done]. simpl.
    rewrite Forall_lookup in Hra. rewrite Forall_lookup in Hrb.
    rewrite !stretch_id; [done|..].
    - rewrite H1. by eapply Hrb.
    - by eapply Hra. }
  rewrite Hz. eexists. split; [done|]. simpl.
  rewrite Forall_lookup in Hra. rewrite Forall_lookup in Hrb.
  split_and!; try done.
  - split; simpl.
    + rewrite length_zip_with. lia.
    + apply Forall_lookup. intros i row Hrow.
      rewrite lookup_zip_with in Hrow.
      destruct (cells a !! i) as [ra|] eqn:Ha; [|done]. simpl in Hrow.
      destruct (cells b !! i) as [rb|] eqn:Hb; [|done]. simpl in Hrow.
      injection Hrow as <-. rewrite length_zip_with.
      rewrite (Hra _ _ Ha), (Hrb _ _ Hb). lia.
  - intros i j x y (ra & Ha & Hx)%at2_Some (rb & Hb & Hy)%at2_Some.
    unfold at2. simpl. rewrite lookup_zip_with, Ha, Hb. simpl.
    by rewrite lookup_zip_with, Hx, Hy.
Qed.

(** ** Images *)

Lemma channel_chan ch p : ch < 3 → channel ch p = Some (chan ch p).
Proof. destruct ch as [|[|[|?]]]; simpl; try done. lia. Qed.

Lemma pixel_plane (img : ndarray) r c ch :
  ch < channels img → pixel img r c ch = at2 (plane ch img) r c.
Proof.
  destruct img as [g|g]; simpl; intros Hch.
  - by replace ch with 0 by lia.
  - rewrite at2_grid_map. destruct (at2 g r c) as [p|]; [|done]. simpl.
    by apply channel_chan.
Qed.

Lemma plane_wf ch img : ndarray_wf img → wf (plane ch img).
Proof. destruct img; simpl; [done|]. apply wf_grid_map. Qed.

Lemma plane_shape0 ch img : shape0 (plane ch img) = rows img.
Proof. by destruct img. Qed.

Lemma plane_shape1 ch img : shape1 (plane ch img) = cols img.
Proof. by destruct img. Qed.

Lemma pixel_lt img r c ch x :
  ndarray_wf img → pixel img r c ch = Some x →
  r < rows img ∧ c < cols img ∧ ch < channels img.
Proof.
  destruct img as [g|g]; simpl; intros Hwf Hx.
  - destruct (Nat.eqb_spec ch 0) as [->|]; [|done].
    destruct (at2_lt g r c x Hwf Hx). lia.
  - destruct (at2 g r c) as [p|] eqn:Hp; [|done]. simpl in Hx.
    destruct (at2_lt g r c p Hwf Hp).
    destruct ch as [|[|[|?]]]; simpl in Hx; try done; lia.
Qed.

Lemma pixel_finite (img : ndarray) r c ch x :
  ndarray_finite img → pixel img r c ch = Some x → finite x.
Proof.
  unfold ndarray_finite. destruct img as [g|g]; simpl.
  - unfold grid_flat. rewrite Forall_concat. intros Hfin.
    destruct (ch =? 0)%nat; [|done].
    intros (row & Hrow & Hx)%at2_Some.
    rewrite Forall_lookup in Hfin. specialize (Hfin _ _ Hrow).
    rewrite Forall_lookup in Hfin. by eapply Hfin.
  - rewrite Forall_concat, Forall_map. intros Hfin.
    destruct (at2 g r c) as [p|] eqn:Hp; [|done]. simpl. intros Hx.
    apply at2_Some in Hp as (row & Hrow & Hp).
    rewrite Forall_lookup in Hfin. specialize (Hfin _ _ Hrow). simpl in Hfin.
    rewrite Forall_concat, Forall_map, Forall_lookup in Hfin.
    specialize (Hfin _ _ Hp). simpl in Hfin.
    apply Forall_cons in Hfin as [H1 Hfin].
    apply Forall_cons in Hfin as [H2 Hfin].
    apply Forall_cons in Hfin as [H3 _].
    destruct ch as [|[|[|?]]]; simpl in Hx; try done; by injection Hx as <-.
Qed.

Lemma like_refl a : ndarray_wf a → like a a.
Proof. by intros Hwf. Qed.

Lemma like_trans a b c : like a b → like b c → like a c.
Proof.
  intros (? & ? & ? & ?) (? & ? & ? & ?). split_and!; [done|congruence..].
Qed.

Lemma like_both a b c : like a b → like a c → like b c.
Proof.
  intros (? & ? & ? & ?) (? & ? & ? & ?). split_and!; [done|congruence..].
Qed.

Lemma like_wf a b : like a b → ndarray_wf b.
Proof. by intros (? & _). Qed.

Lemma like_shape a b : like a b → shape b = shape a.
Proof.
  intros (_ & Hr & Hc & Hch).
  destruct a, b; simpl in *; try done; congruence.
Qed.

Lemma like_zeros_like a : like a (zeros_like a).
Proof. destruct a; simpl; split_and!; try done; apply wf_replicate. Qed.

Lemma pixel_zeros_like a r c ch :
  r < rows a → c < cols a → ch < channels a →
  pixel (zeros_like a) r c ch = Some zero.
Proof.
  destruct a as [g|g]; simpl; intros Hr Hc Hch.
  - replace ch with 0 by lia. simpl. by apply at2_replicate.
  - rewrite at2_replicate by done. simpl.
    destruct ch as [|[|[|?]]]; simpl; try done. lia.
Qed.

(** An elementwise operation on two images of the same shape. *)
Lemma ndarray_map2_like (f : npfloat → npfloat → npfloat) (a b : ndarray) :
  ndarray_wf a → like a b →
  ∃ c, ndarray_map2 f a b = Ok c ∧ like a c ∧
       ∀ r k ch x y, pixel a r k ch = Some x → pixel b r k ch = Some y →
                     pixel c r k ch = Some (f x y).
Proof.
  intros Hwfa (Hwfb & Hr & Hc & Hch).
  destruct a as [ga|ga], b as [gb|gb]; simpl in *; try done.
  - destruct (grid_map2_same f ga gb) as (gc & -> & Hwf & H0 & H1 & _ & Hat);
      [done..|].
    exists (Gray gc). simpl. split; [done|]. split; [done|].
    intros r k ch x y. destruct (ch =? 0)%nat; [|done]. apply Hat.
  - destruct (grid_map2_same (rgb_map2 f) ga gb)
      as (gc & -> & Hwf & H0 & H1 & _ & Hat); [done..|].
    exists (Color gc). simpl. split; [done|]. split; [done|].
    intros r k ch x y Hx Hy.
    destruct (at2 ga r k) as [pa|] eqn:Hpa; [|done].
    destruct (at2 gb r k) as [pb|] eqn:Hpb; [|done].
    rewrite (Hat r k pa pb Hpa Hpb). simpl in *.
    destruct ch as [|[|[|?]]]; simpl in *; congruence.
Qed.

Lemma flat_ndarray_map f img : flat (ndarray_map f img) = f <$> flat img.
Proof.
  destruct img as [g|g]; simpl.
  - unfold grid_flat. simpl. by rewrite concat_map.
  - rewrite concat_map, !map_map. f_equal. apply map_ext. intros row.
    rewrite concat_map, !map_map. f_equal.
Qed.

Lemma pixel_ndarray_map f img r c ch :
  pixel (ndarray_map f img) r c ch = f <$> pixel img r c ch.
Proof.
  destruct img as [g|g]; simpl.
  - destruct (ch =? 0)%nat; [|done]. apply at2_grid_map.
  - rewrite at2_grid_map. destruct (at2 g r c) as [p|]; [|done]. simpl.
    by destruct ch as [|[|[|?]]].
Qed.

Lemma shape_ndarray_map f img : shape (ndarray_map f img) = shape img.
Proof. by destruct img. Qed.

Lemma ndarray_map_ext (f g : npfloat → npfloat) (img : ndarray) :
  Forall (fun x => f x = g x) (flat img) →
  ndarray_map f img = ndarray_map g img.
Proof.
  destruct img as [a|a]; simpl; intros Hfg.
  - unfold grid_flat in Hfg. rewrite Forall_concat in Hfg.
    unfold grid_map. do 2 f_equal.
    apply Forall_fmap_ext_1. eapply Forall_impl; [exact Hfg|].
    intros row Hrow. simpl. by apply Forall_fmap_ext_1.
  - rewrite Forall_concat, Forall_map in Hfg.
    unfold grid_map. do 2 f_equal.
    apply Forall_fmap_ext_1. eapply Forall_impl; [exact Hfg|].
    intros row Hrow. simpl in *. rewrite Forall_concat, Forall_map in Hrow.
    apply Forall_fmap_ext_1. eapply Forall_impl; [exact Hrow|].
    intros [[x y] z] Hp. simpl in *.
    apply Forall_cons in Hp as [H1 Hp]. apply Forall_cons in Hp as [H2 Hp].
    apply Forall_cons in Hp as [H3 _]. unfold rgb_map. simpl. congruence.
Qed.

Lemma ndarray_map_compose (f g : npfloat → npfloat) (a : ndarray) :
  ndarray_map g (ndarray_map f a) = ndarray_map (g ∘ f) a.
Proof.
  destruct a as [x|x]; simpl; unfold grid_map; simpl; do 2 f_equal;
    rewrite map_map; apply map_ext; intros row; rewrite map_map;
    apply map_ext; by intros.
Qed.

(** ** Padding *)

Section pad_grid_facts.
Context {A : Type} (z : A).

Lemma np_zeros_Ok (r c : nat) :
  np_zeros z (Z.of_nat r) (Z.of_nat c)
  = Ok (Grid r c (replicate r (replicate c z))).
Proof.
  unfold np_zeros.
  destruct (Z.ltb_spec (Z.of_nat r) 0); [lia|].
  destruct (Z.ltb_spec (Z.of_nat c) 0); [lia|].
  simpl. by rewrite !Nat2Z.id.
Qed.

(** The value [setitem_slice] computes, when the source has the shape of
    the slice. *)
Lemma at2_setitem_slice (tgt src out : grid A) r0 r1 c0 c1 i j x :
  wf src →
  shape0 src = slice_len (shape0 tgt) r0 r1 →
  shape1 src = slice_len (shape1 tgt) c0 c1 →
  setitem_slice tgt r0 r1 c0 c1 src = Ok out →
  at2 tgt i j = Some x →
  at2 out i j =
    if bool_decide (slice_lo (shape0 tgt) r0 r1 ≤ i
                      < slice_lo (shape0 tgt) r0 r1 + shape0 src ∧
                    slice_lo (shape1 tgt) c0 c1 ≤ j
                      < slice_lo (shape1 tgt) c0 c1 + shape1 src)
    then at2 src (i - slice_lo (shape0 tgt) r0 r1)
                 (j - slice_lo (shape1 tgt) c0 c1)
    else Some x.
Proof.
  intros Hwf Hs0 Hs1 Hset Hx.
  unfold setitem_slice in Hset.
  destruct (_ && _); [|done]. injection Hset as <-.
  apply at2_Some in Hx as (row & Hrow & Hx).
  unfold at2 at 1. simpl.
  rewrite list_lookup_imap, Hrow. simpl.
  rewrite list_lookup_imap, Hx. simpl.
  rewrite <- Hs0, <- Hs1.
  case_bool_decide as Hin; [|done].
  assert (broadcast_ix (shape0 src) (i - slice_lo (shape0 tgt) r0 r1)
          = i - slice_lo (shape0 tgt) r0 r1) as ->.
  { unfold broadcast_ix. destruct (Nat.eqb_spec (shape0 src) 1); lia. }
  assert (broadcast_ix (shape1 src) (j - slice_lo (shape1 tgt) c0 c1)
          = j - slice_lo (shape1 tgt) c0 c1) as ->.
  { unfold broadcast_ix. destruct (Nat.eqb_spec (shape1 src) 1); lia. }
  destruct (at2_is_Some src (i - slice_lo (shape0 tgt) r0 r1)
              (j - slice_lo (shape1 tgt) c0 c1)) as [y Hy]; [done|lia|lia|].
  by rewrite Hy.
Qed.

Lemma setitem_slice_shape (tgt src out : grid A) r0 r1 c0 c1 :
  wf tgt → setitem_slice tgt r0 r1 c0 c1 src = Ok out →
  shape0 out = shape0 tgt ∧ shape1 out = shape1 tgt ∧ wf out.
Proof.
  intros [Hlen Hrows] Hset. unfold setitem_slice in Hset.
  destruct (_ && _); [|done]. injection Hset as <-. simpl.
  split; [done|]. split; [done|]. split; simpl.
  - by rewrite length_imap.
  - apply Forall_lookup. intros i row Hrow.
    rewrite list_lookup_imap in Hrow.
    destruct (cells tgt !! i) as [row'|] eqn:Hrow'; [|done].
    simpl in Hrow. injection Hrow as <-. rewrite length_imap.
    rewrite Forall_lookup in Hrows. by eapply Hrows.
Qed.

(** Zero padding by a positive margin: the shape grows by [2 * m], the
    centre is the image and the border is [z]. *)
Lemma pad_grid_zero_positive (g : grid A) (m : nat) :
  wf g → 0 < m →
  ∃ p, pad_grid z g ZERO_PADDING (Z.of_nat m) = Ok p ∧
       wf p ∧
       shape0 p = shape0 g + 2 * m ∧
       shape1 p = shape1 g + 2 * m ∧
       ∀ i j, i < shape0 g + 2 * m → j < shape1 g + 2 * m →
         at2 p i j =
           if bool_decide (m ≤ i < m + shape0 g ∧ m ≤ j < m + shape1 g)
           then at2 g (i - m) (j - m)
           else Some z.
Proof.
  intros Hwf Hm. unfold pad_grid.
  replace (Z.of_nat (shape0 g) + 2 * Z.of_nat m)%Z
    with (Z.of_nat (shape0 g + 2 * m)) by lia.
  replace (Z.of_nat (shape1 g) + 2 * Z.of_nat m)%Z
    with (Z.of_nat (shape1 g + 2 * m)) by lia.
  rewrite np_zeros_Ok. simpl.
  set (tgt := Grid _ _ _).
  assert (Hlo0 : slice_lo (shape0 tgt) (Z.of_nat m) (- Z.of_nat m) = m).
  { unfold slice_lo. rewrite slice_index_nonneg; simpl; lia. }
  assert (Hlo1 : slice_lo (shape1 tgt) (Z.of_nat m) (- Z.of_nat m) = m).
  { unfold slice_lo. rewrite slice_index_nonneg; simpl; lia. }
  assert (Hlen0 : slice_len (shape0 tgt) (Z.of_nat m) (- Z.of_nat m)
                  = shape0 g).
  { unfold slice_len.
    rewrite slice_index_neg, slice_index_nonneg; simpl; lia. }
  assert (Hlen1 : slice_len (shape1 tgt) (Z.of_nat m) (- Z.of_nat m)
                  = shape1 g).
  { unfold slice_len.
    rewrite slice_index_neg, slice_index_nonneg; simpl; lia. }
  destruct (setitem_slice tgt (Z.of_nat m) (- Z.of_nat m) (Z.of_nat m)
              (- Z.of_nat m) g) as [p|e] eqn:Hset.
  2: { unfold setitem_slice in Hset. rewrite Hlen0, Hlen1 in Hset.
       unfold broadcasts_to in Hset. rewrite !Nat.eqb_refl in Hset.
       done. }
  exists p. split; [done|].
  destruct (setitem_slice_shape tgt g p _ _ _ _ (wf_replicate _ _ _) Hset)
    as (Hs0 & Hs1 & Hwfp).
  split; [done|]. split; [done|]. split; [done|].
  intros i j Hi Hj.
  rewrite (at2_setitem_slice tgt g p _ _ _ _ i j z Hwf
             (eq_sym Hlen0) (eq_sym Hlen1) Hset).
  2: { by apply at2_replicate. }
  rewrite Hlo0, Hlo1. done.
Qed.
End pad_grid_facts.

(** With margin 0 the slice [padded_image[0:-0, 0:-0]] is empty: the
    assignment is a broadcast error, or (for an image whose axes have
    length 0 or 1) it writes nothing and the zeros are returned. *)
Lemma pad_grid_zero_margin {A} (z : A) (g : grid A) :
  pad_grid z g ZERO_PADDING 0 =
    if broadcasts_to (shape0 g) 0 && broadcasts_to (shape1 g) 0
    then Ok (Grid (shape0 g) (shape1 g)
               (replicate (shape0 g) (replicate (shape1 g) z)))
    else Raise (ValueError "could not broadcast input array").
Proof.
  unfold pad_grid.
  replace (Z.of_nat (shape0 g) + 2 * 0)%Z with (Z.of_nat (shape0 g)) by lia.
  replace (Z.of_nat (shape1 g) + 2 * 0)%Z with (Z.of_nat (shape1 g)) by lia.
  rewrite np_zeros_Ok. simpl.
  unfold setitem_slice, slice_len, slice_lo. simpl.
  rewrite !slice_index_nonneg by lia. simpl.
  destruct (_ && _); [|done].
  do 2 f_equal.
  apply list_eq. intros i. rewrite list_lookup_imap.
  destruct (replicate (shape0 g) (replicate (shape1 g) z) !! i)
    as [row|] eqn:Hrow; [|done]. simpl. f_equal.
  apply list_eq. intros j. rewrite list_lookup_imap.
  destruct (row !! j) as [x|] eqn:Hx; [|done]. simpl.
  repeat case_bool_decide; done || lia.
Qed.

Lemma pad_grid_positive {A} (z : A) (g : grid A) (padding_type : string) (m : nat) :
  wf g → 0 < m →
  ∃ p, pad_grid z g padding_type (Z.of_nat m) = Ok p ∧ wf p ∧
       shape0 p = shape0 g + 2 * m ∧ shape1 p = shape1 g + 2 * m.
Proof.
  intros Hwf Hm.
  destruct (String.eqb padding_type ZERO_PADDING) eqn:Hpt.
  - apply String.eqb_eq in Hpt as ->.
    destruct (pad_grid_zero_positive z g m Hwf Hm) as (p & ? & ? & ? & ? & _).
    by exists p.
  - unfold pad_grid. rewrite Hpt.
    replace (Z.of_nat (shape0 g) + 2 * Z.of_nat m)%Z
      with (Z.of_nat (shape0 g + 2 * m)) by lia.
    replace (Z.of_nat (shape1 g) + 2 * Z.of_nat m)%Z
      with (Z.of_nat (shape1 g + 2 * m)) by lia.
    rewrite np_zeros_Ok. simpl. eexists. split; [done|].
    split; [apply wf_replicate|done].
Qed.

(** Every value of a padded array is the fill value or a value of the
    array. *)
Lemma pad_grid_values {A} (z : A) (g p : grid A) padding_type padding_size :
  pad_grid z g padding_type padding_size = Ok p →
  ∀ i j x, at2 p i j = Some x → x = z ∨ ∃ i' j', at2 g i' j' = Some x.
Proof.
  unfold pad_grid, np_zeros. destruct (_ || _); [done|]. simpl.
  destruct (String.eqb _ _).
  - unfold setitem_slice. destruct (_ && _); [|done].
    intros [= <-] i j x (row & Hrow & Hx)%at2_Some. simpl in Hrow.
    rewrite list_lookup_imap in Hrow.
    destruct (replicate _ _ !! i) as [row0|] eqn:Hrow0; [|done].
    simpl in Hrow. injection Hrow as <-.
    apply lookup_replicate in Hrow0 as [-> _].
    rewrite list_lookup_imap in Hx.
    destruct (replicate _ _ !! j) as [y|] eqn:Hy; [|done].
    apply lookup_replicate in Hy as [-> _]. simpl in Hx.
    case_bool_decide; [|left; congruence].
    destruct (at2 g _ _) as [v|] eqn:Hv; simpl in Hx; [|left; congruence].
    right. injection Hx as <-. eauto.
  - intros [= <-] i j x (row & Hrow & Hx)%at2_Some. simpl in Hrow.
    apply lookup_replicate in Hrow as [-> _].
    apply lookup_replicate in Hx as [-> _]. by left.
Qed.

Lemma pad_grid_raises {A} (z : A) (g : grid A) padding_type padding_size e :
  pad_grid z g padding_type padding_size = Raise e → ∃ msg, e = ValueError msg.
Proof.
  unfold pad_grid, np_zeros. destruct (_ || _); simpl.
  - intros [= <-]. eauto.
  - destruct (String.eqb _ _); [|done]. unfold setitem_slice.
    destruct (_ && _); [done|]. intros [= <-]. eauto.
Qed.

Lemma pad_image_finite (img p : ndarray) padding_type padding_size :
  ndarray_finite img → pad_image img padding_type padding_size = Ok p →
  ∀ r c ch x, pixel p r c ch = Some x → finite x.
Proof.
  intros Hfin Hpad r c ch x Hx. destruct img as [g|g]; simpl in Hpad.
  - destruct (pad_grid zero g _ _) as [q|] eqn:Hq; [|done].
    injection Hpad as <-. simpl in Hx.
    destruct (ch =? 0)%nat eqn:Hch; [|done].
    destruct (pad_grid_values _ _ _ _ _ Hq _ _ _ Hx) as [->|(i' & j' & Hg)];
      [done|].
    apply (pixel_finite (Gray g) i' j' 0); [done|]. simpl. exact Hg.
  - destruct (pad_grid zero3 g _ _) as [q|] eqn:Hq; [|done].
    injection Hpad as <-. simpl in Hx.
    destruct (at2 q r c) as [px|] eqn:Hpx; [|done]. simpl in Hx.
    destruct (pad_grid_values _ _ _ _ _ Hq _ _ _ Hpx) as [->|(i' & j' & Hg)].
    + destruct ch as [|[|[|?]]]; simpl in Hx; try done; by injection Hx as <-.
    + apply (pixel_finite (Color g) i' j' ch); [done|]. simpl.
      by rewrite Hg.
Qed.

(** Zero padding by a positive margin [m]: the result has shape
    [(H + 2m, W + 2m)] with the channels of the image, its central
    [H × W] region is the image and its border of width [m] is zero. *)
Theorem pad_image_zero_positive (img : ndarray) (m : nat) :
  ndarray_wf img → 0 < m →
  ∃ p, pad_image img ZERO_PADDING (Z.of_nat m) = Ok p ∧
       ndarray_wf p ∧
       rows p = rows img + 2 * m ∧
       cols p = cols img + 2 * m ∧
       channels p = channels img ∧
       ∀ r c ch, r < rows img + 2 * m → c < cols img + 2 * m →
         ch < channels img →
         pixel p r c ch =
           if bool_decide (m ≤ r < m + rows img ∧ m ≤ c < m + cols img)
           then pixel img (r - m) (c - m) ch
           else Some zero.
Proof.
  intros Hwf Hm. destruct img as [g|g]; simpl in *.
  - destruct (pad_grid_zero_positive zero g m Hwf Hm)
      as (p & -> & Hwfp & Hs0 & Hs1 & Hat).
    exists (Gray p). simpl. split_and!; try done.
    intros r c ch Hr Hc Hch. replace ch with 0 by lia. simpl.
    by apply Hat.
  - destruct (pad_grid_zero_positive zero3 g m Hwf Hm)
      as (p & -> & Hwfp & Hs0 & Hs1 & Hat).
    exists (Color p). simpl. split_and!; try done.
    intros r c ch Hr Hc Hch. rewrite (Hat r c Hr Hc).
    case_bool_decide; [done|]. simpl.
    destruct ch as [|[|[|?]]]; simpl; try done. lia.
Qed.

(** C1 (margin 0).  [pad_image] under the zero policy with
    [padding_size = 0] does not return the image: on the 2×2 image
    [[[1, 2], [3, 4]]] the slice assignment raises [ValueError], and on the
    1×1 image [[[1]]] the result is [[[0]]]. *)
Theorem pad_image_zero_margin :
  pad_image (Gray (Grid 2 2 [[Num 1; Num 2]; [Num 3; Num 4]])) ZERO_PADDING 0
    = Raise (ValueError "could not broadcast input array") ∧
  pad_image (Gray (Grid 1 1 [[Num 1]])) ZERO_PADDING 0
    = Ok (Gray (Grid 1 1 [[Num 0]])).
Proof. split; reflexivity. Qed.

(** ** Convolution *)

Lemma half_odd (m : nat) : (Z.of_nat (2 * m + 1) / 2)%Z = Z.of_nat m.
Proof. symmetry. apply Z.div_unique with 1%Z; lia. Qed.

Lemma odd_mod (m : nat) : (Z.of_nat (2 * m + 1) mod 2)%Z = 1%Z.
Proof. symmetry. apply Z.mod_unique with (Z.of_nat m); lia. Qed.

Lemma extract_sub_image_window {A} (p : grid A) (m i j : nat) :
  extract_sub_image p ((Z.of_nat i + Z.of_nat m)%Z, (Z.of_nat j + Z.of_nat m)%Z)
    (Z.of_nat (2 * m + 1))
  = Ok (window p (2 * m + 1) i j).
Proof.
  unfold extract_sub_image. rewrite odd_mod, half_odd. simpl.
  unfold window. do 2 f_equal; lia.
Qed.

Section convolve_facts.
Context {A : Type} (z : A) (wsum : grid A → grid npfloat → result A).

Lemma convolve_odd (val : nat → nat → A) (g p : grid A)
    (kernel : grid npfloat) (padding_type : string) (m : nat) :
  wf g →
  shape0 kernel = 2 * m + 1 → shape1 kernel = 2 * m + 1 →
  pad_grid z g padding_type (Z.of_nat m) = Ok p →
  (∀ i j, i < shape0 g → j < shape1 g →
     wsum (window p (2 * m + 1) i j) kernel = Ok (val i j)) →
  ∃ out, convolve z wsum g kernel padding_type = Ok out ∧ wf out ∧
         shape0 out = shape0 g ∧ shape1 out = shape1 g ∧
         ∀ i j, i < shape0 g → j < shape1 g → at2 out i j = Some (val i j).
Proof.
  intros Hwf Hk0 Hk1 Hpad Hval. unfold convolve, convolve_loop.
  assert (Hhalf : (Z.of_nat (shape0 kernel) / 2)%Z = Z.of_nat m)
    by (rewrite Hk0; apply half_odd).
  rewrite Hhalf, Hpad, np_zeros_Ok.
  replace (shape0 kernel =? shape1 kernel)%nat with true
    by (symmetry; apply Nat.eqb_eq; congruence).
  rewrite Hk0. cbn [negb mbind result_bind fst snd].
  set (f := fun row col : Z =>
              sub_image ← extract_sub_image p (row, col) (Z.of_nat (2 * m + 1));
              wsum sub_image kernel).
  set (val' := fun row col : Z =>
                 val (Z.to_nat (row - Z.of_nat m)) (Z.to_nat (col - Z.of_nat m))).
  set (acc := Grid _ _ _).
  rewrite (for_each_ext _ _
    (fun row a =>
       for_each (range (Z.of_nat m) (Z.of_nat (shape1 g) + Z.of_nat m))
         (fun col b =>
            v ← f row col;
            setitem b (row - Z.of_nat m) (col - Z.of_nat m) v) a)).
  2: { intros row a _. apply for_each_ext. intros col b _.
       unfold f. by destruct (extract_sub_image _ _ _). }
  destruct (fill_rows f val' (Z.of_nat m)
              (range (Z.of_nat m) (Z.of_nat (shape0 g) + Z.of_nat m))
              (range (Z.of_nat m) (Z.of_nat (shape1 g) + Z.of_nat m)) acc)
    as (out & Hout & Hwfo & Ho0 & Ho1 & Hat).
  { apply wf_replicate. }
  { intros row Hrow%elem_of_range. simpl. lia. }
  { intros col Hcol%elem_of_range. simpl. lia. }
  { intros row col Hrow%elem_of_range Hcol%elem_of_range. unfold f, val'.
    replace row with (Z.of_nat (Z.to_nat (row - Z.of_nat m)) + Z.of_nat m)%Z
      at 1 by lia.
    replace col with (Z.of_nat (Z.to_nat (col - Z.of_nat m)) + Z.of_nat m)%Z
      at 1 by lia.
    rewrite extract_sub_image_window. simpl. apply Hval; lia. }
  exists out. split; [exact Hout|]. split_and!; try done.
  intros i j Hi Hj. rewrite Hat.
  rewrite bool_decide_eq_true_2 by (rewrite !elem_of_range; lia).
  unfold val'. do 2 f_equal; lia.
Qed.
End convolve_facts.

Lemma weighted_sum_dot (sub kernel : grid npfloat) :
  wf sub → wf kernel →
  shape0 sub = shape0 kernel → shape1 sub = shape1 kernel →
  weighted_sum sub kernel = Ok (dot sub kernel).
Proof.
  intros Hs Hk H0 H1. unfold weighted_sum.
  destruct (grid_map2_same fmul sub kernel) as (c & -> & _ & _ & _ & Hc & _);
    [done..|].
  simpl. unfold np_sum, grid_flat, dot. by rewrite Hc.
Qed.

Lemma weighted_sum3_dot (sub : grid rgb) (kernel : grid npfloat) :
  wf sub → wf kernel →
  shape0 sub = shape0 kernel → shape1 sub = shape1 kernel →
  weighted_sum3 sub kernel
  = Ok (dot (grid_map (chan 0) sub) kernel,
        dot (grid_map (chan 1) sub) kernel,
        dot (grid_map (chan 2) sub) kernel).
Proof.
  intros Hs Hk H0 H1. unfold weighted_sum3.
  change (fun p : rgb => p.1.1) with (chan 0).
  change (fun p : rgb => p.1.2) with (chan 1).
  change (fun p : rgb => p.2) with (chan 2).
  rewrite !weighted_sum_dot; try done; by apply wf_grid_map.
Qed.

Lemma convolution_2d_unchanged (img : ndarray) (kernel : grid npfloat)
    (padding_type : string) (m : nat) :
  ndarray_wf img → wf kernel → 0 < m →
  shape0 kernel = 2 * m + 1 → shape1 kernel = 2 * m + 1 →
  ∃ p out,
    pad_image img padding_type (Z.of_nat m) = Ok p ∧
    ndarray_wf p ∧ rows p = rows img + 2 * m ∧ cols p = cols img + 2 * m ∧
    channels p = channels img ∧
    convolution_2d img kernel padding_type "unchanged" = Ok out ∧
    like img out ∧
    ∀ r c ch, r < rows img → c < cols img → ch < channels img →
      pixel out r c ch
      = Some (dot (window (plane ch p) (2 * m + 1) r c) kernel).
Proof.
  intros Hwf Hk Hm Hk0 Hk1. destruct img as [g|g]; simpl in Hwf.
  - destruct (pad_grid_positive zero g padding_type m Hwf Hm)
      as (p & Hpad & Hwfp & Hp0 & Hp1).
    destruct (convolve_odd zero weighted_sum
                (fun i j => dot (window p (2 * m + 1) i j) kernel)
                g p kernel padding_type m Hwf Hk0 Hk1 Hpad)
      as (out & Hout & Hwfo & Ho0 & Ho1 & Hat).
    { intros i j Hi Hj.
      destruct (grid_slice_inside p i j (2 * m + 1) (2 * m + 1))
        as (Hws & Hs0 & Hs1 & _); [done|lia|lia|].
      apply weighted_sum_dot; try done; unfold window; congruence. }
    exists (Gray p), (Gray out).
    split; [by unfold pad_image; rewrite Hpad|].
    split_and!; try done.
    { by unfold convolution_2d, convolve_image; rewrite Hout. }
    intros r c ch Hr Hc Hch. simpl in *. replace ch with 0 by lia. simpl.
    by apply Hat.
  - destruct (pad_grid_positive zero3 g padding_type m Hwf Hm)
      as (p & Hpad & Hwfp & Hp0 & Hp1).
    destruct (convolve_odd zero3 weighted_sum3
                (fun i j =>
                   (dot (grid_map (chan 0) (window p (2 * m + 1) i j)) kernel,
                    dot (grid_map (chan 1) (window p (2 * m + 1) i j)) kernel,
                    dot (grid_map (chan 2) (window p (2 * m + 1) i j)) kernel))
                g p kernel padding_type m Hwf Hk0 Hk1 Hpad)
      as (out & Hout & Hwfo & Ho0 & Ho1 & Hat).
    { intros i j Hi Hj.
      destruct (grid_slice_inside p i j (2 * m + 1) (2 * m + 1))
        as (Hws & Hs0 & Hs1 & _); [done|lia|lia|].
      apply weighted_sum3_dot; try done; unfold window; congruence. }
    exists (Color p), (Color out).
    split; [by unfold pad_image; rewrite Hpad|].
    split_and!; try done.
    { by unfold convolution_2d, convolve_image; rewrite Hout. }
    intros r c ch Hr Hc Hch. simpl in *. rewrite (Hat r c Hr Hc). simpl.
    unfold window. rewrite grid_slice_grid_map.
    destruct ch as [|[|[|?]]]; simpl; try done. lia.
Qed.

(** *** The box kernel *)

Lemma Qsum_replicate (n : nat) (q : Q) :
  (Qsum (replicate n q) == inject_Z (Z.of_nat n) * q)%Q.
Proof.
  unfold Qsum. induction n as [|n IH]; cbn [replicate foldr].
  - change (inject_Z (Z.of_nat 0)) with 0%Q. ring.
  - rewrite IH, Nat2Z.inj_succ. unfold Z.succ. rewrite inject_Z_plus.
    change (inject_Z 1) with 1%Q. ring.
Qed.

Lemma Qsum_concat_replicate (a b : nat) (q : Q) :
  (Qsum (concat (replicate a (replicate b q)))
   == inject_Z (Z.of_nat a) * (inject_Z (Z.of_nat b) * q))%Q.
Proof.
  induction a as [|a IH]; cbn [replicate concat].
  - unfold Qsum. cbn [foldr]. change (inject_Z (Z.of_nat 0)) with 0%Q. ring.
  - rewrite Qsum_app, IH, Qsum_replicate, Nat2Z.inj_succ. unfold Z.succ.
    rewrite inject_Z_plus. change (inject_Z 1) with 1%Q. ring.
Qed.

Lemma np_sum_replicate (a b : nat) (q : Q) s0 s1 :
  np_sum (Grid s0 s1 (replicate a (replicate b (Num q))))
  = Num (Qsum (concat (replicate a (replicate b q)))).
Proof.
  unfold np_sum, grid_flat. simpl. rewrite <- fsum_Num. f_equal.
  change (Num <$> ?l) with (map Num l). rewrite concat_map.
  f_equal. change (map ?f ?l) with (f <$> l). rewrite fmap_replicate.
  f_equal. change (map ?f ?l) with (f <$> l). by rewrite fmap_replicate.
Qed.

(** The box kernel of an odd side: a square array of equal finite weights
    that sum to 1. *)
Lemma generate_filter_box (math_exp : Q → Q) (m : nat) (kwargs : gmap string Q) :
  ∃ kernel,
    generate_filter math_exp BOX_FILTER (Z.of_nat (2 * m + 1)) kwargs
      = Ok kernel ∧
    wf kernel ∧ shape0 kernel = 2 * m + 1 ∧ shape1 kernel = 2 * m + 1 ∧
    Forall finite (grid_flat kernel) ∧ feq (np_sum kernel) (Num 1).
Proof.
  unfold generate_filter. rewrite odd_mod, !np_zeros_Ok.
  cbn [Z.eqb mbind result_bind]. change (String.eqb BOX_FILTER BOX_FILTER) with true.
  cbn iota. set (K := 2 * m + 1).
  eexists. split; [reflexivity|].
  unfold normalize_kernel. rewrite np_sum_replicate.
  set (S := Qsum (concat (replicate K (replicate K 1%Q)))).
  assert (HS : (S == inject_Z (Z.of_nat K) * inject_Z (Z.of_nat K))%Q).
  { unfold S. rewrite Qsum_concat_replicate. ring. }
  assert (HK : (0 < inject_Z (Z.of_nat K))%Q).
  { change 0%Q with (inject_Z 0). rewrite <- Zlt_Qlt. lia. }
  assert (HS0 : ¬ (S == 0)%Q).
  { rewrite HS. intros H. apply Qmult_integral in H. lra. }
  assert (Hw : fdiv (Num 1) (Num S) = Num (1 / S)).
  { simpl. destruct (Qeq_bool S 0) eqn:E; [|done].
    by apply Qeq_bool_iff in E. }
  assert (Hcells : grid_map (fun x => fdiv x (Num S))
                     (Grid K K (replicate K (replicate K (Num 1))))
                   = Grid K K (replicate K (replicate K (Num (1 / S))))).
  { unfold grid_map. simpl. f_equal.
    change (map ?f ?l) with (f <$> l).
    rewrite fmap_replicate. f_equal.
    change (map ?f ?l) with (f <$> l). by rewrite fmap_replicate, Hw. }
  rewrite Hcells. split_and!; try done.
  - apply wf_replicate.
  - unfold grid_flat. simpl. apply Forall_concat, Forall_replicate.
    by apply Forall_replicate.
  - rewrite np_sum_replicate. simpl. rewrite Qsum_concat_replicate.
    rewrite HS. field. lra.
Qed.

(** *** The box kernel on the unit impulse *)

(** C6 (as the code has it).  The 3×3 image [[0,0,0],[0,1,0],[0,0,0]]
    convolved with the 3×3 box kernel (every weight 1/9) under zero
    padding, normalization "unchanged": every pixel of the output, the
    centre and the four corners included, is 1/9, because every 3×3
    neighbourhood contains the centre of the image. *)
Theorem box3_on_impulse (math_exp : Q → Q) :
  ∃ kernel out,
    generate_filter math_exp BOX_FILTER 3 ∅ = Ok kernel ∧
    Forall (fun w => feq w (Num (1 # 9))) (grid_flat kernel) ∧
    convolution_2d impulse3 kernel ZERO_PADDING "unchanged" = Ok out ∧
    shape out = [3; 3] ∧
    Forall (fun y => feq y (Num (1 # 9))) (flat out).
Proof.
  eexists _, _. split; [reflexivity|]. split.
  { by repeat constructor. }
  split; [vm_compute; reflexivity|]. split; [reflexivity|].
  by repeat constructor.
Qed.

(** C6, as stated, fails at the corners: the corner [(0, 0)] of the output
    is 1/9, not 0. *)
Lemma box3_on_impulse_corner :
  ∃ kernel out y,
    generate_filter (fun x => x) BOX_FILTER 3 ∅ = Ok kernel ∧
    convolution_2d impulse3 kernel ZERO_PADDING "unchanged" = Ok out ∧
    pixel out 0 0 0 = Some y ∧ feq y (Num (1 # 9)) ∧ ¬ feq y (Num 0).
Proof.
  eexists _, _, _. split; [reflexivity|].
  split; [vm_compute; reflexivity|]. split; [reflexivity|].
  split; [reflexivity|]. by intros H.
Qed.

(** *** A constant image under a kernel of total weight 1 *)

Lemma zip_with_fmul_Num (a b : list Q) :
  zip_with fmul (map Num a) (map Num b) = map Num (zip_with Qmult a b).
Proof.
  revert b. induction a as [|x a IH]; intros [|y b]; simpl; try done.
  by rewrite IH.
Qed.

Lemma dot_Num (s0 s1 k0 k1 : nat) (sq kq : list (list Q)) :
  dot (Grid s0 s1 (map (map Num) sq)) (Grid k0 k1 (map (map Num) kq))
  = Num (Qsum (concat (zip_with (zip_with Qmult) sq kq))).
Proof.
  unfold dot. simpl. rewrite <- fsum_Num. f_equal.
  change (Num <$> ?l) with (map Num l). rewrite concat_map. f_equal.
  revert kq. induction sq as [|a sq IH]; intros [|b kq]; simpl; try done.
  by rewrite zip_with_fmul_Num, IH.
Qed.

Lemma Qsum_zip_const (v : Q) (a b : list Q) :
  Forall (fun q => (q == v)%Q) a → length a = length b →
  (Qsum (zip_with Qmult a b) == v * Qsum b)%Q.
Proof.
  intros Ha. revert b. unfold Qsum.
  induction Ha as [|x a Hx _ IH]; intros [|y b] Hlen; try done;
    cbn [zip_with foldr].
  - ring.
  - injection Hlen as Hlen. rewrite (IH b Hlen), Hx. ring.
Qed.

Lemma Qsum_rows_const (v : Q) (sq kq : list (list Q)) :
  Forall (Forall (fun q => (q == v)%Q)) sq →
  Forall2 (fun a b => length a = length b) sq kq →
  (Qsum (concat (zip_with (zip_with Qmult) sq kq)) == v * Qsum (concat kq))%Q.
Proof.
  intros Hs Hlen.
  induction Hlen as [|a b sq kq Hab _ IH]; cbn [zip_with concat].
  - unfold Qsum. cbn [foldr]. ring.
  - apply Forall_cons in Hs as [Ha Hs].
    rewrite !Qsum_app, (Qsum_zip_const v a b Ha Hab), (IH Hs). ring.
Qed.




(** *** Even sizes *)

Lemma convolve_even {A} (z : A) (wsum : grid A → grid npfloat → result A)
    (g : grid A) (kernel : grid npfloat) (padding_type : string) :
  0 < shape0 g → 0 < shape1 g → (Z.of_nat (shape0 kernel) mod 2 = 0)%Z →
  convolve z wsum g kernel padding_type
  = if negb (shape0 kernel =? shape1 kernel)%nat
    then Raise (ValueError not_symmetrical_msg)
    else match pad_grid z g padding_type (Z.of_nat (shape0 kernel) / 2) with
         | Ok _ => Raise (ValueError even_sub_image_msg)
         | Raise e => Raise e
         end.
Proof.
  intros H0 H1 Heven. unfold convolve.
  destruct (negb _); [done|].
  destruct (pad_grid z g padding_type _) as [p|e] eqn:Hpad; [|done].
  cbn [mbind result_bind]. rewrite np_zeros_Ok.
  cbn [mbind result_bind]. unfold convolve_loop. cbn [fst snd].
  rewrite (range_cons _ (Z.of_nat (shape0 g) + _)) by lia.
  cbn [for_each].
  rewrite (range_cons _ (Z.of_nat (shape1 g) + _)) by lia.
  cbn [for_each]. unfold extract_sub_image.
  by rewrite Heven.
Qed.

Lemma convolve_even_raises {A} (z : A) (wsum : grid A → grid npfloat → result A)
    (g : grid A) (kernel : grid npfloat) (padding_type : string) :
  0 < shape0 g → 0 < shape1 g → (Z.of_nat (shape0 kernel) mod 2 = 0)%Z →
  ∃ msg, convolve z wsum g kernel padding_type = Raise (ValueError msg).
Proof.
  intros H0 H1 Heven. rewrite convolve_even by done.
  destruct (negb _); [by eexists|].
  destruct (pad_grid z g padding_type _) as [p|e] eqn:Hpad; [by eexists|].
  destruct (pad_grid_raises _ _ _ _ _ Hpad) as [msg ->]. by eexists.
Qed.

Lemma convolve_even_side {A} (z : A) (wsum : grid A → grid npfloat → result A)
    (g : grid A) (kernel : grid npfloat) (padding_type : string) (m : nat) :
  wf g → 0 < shape0 g → 0 < shape1 g → 0 < m →
  shape0 kernel = 2 * m → shape1 kernel = 2 * m →
  convolve z wsum g kernel padding_type = Raise (ValueError even_sub_image_msg).
Proof.
  intros Hwf H0 H1 Hm Hk0 Hk1.
  assert (Hhalf : (Z.of_nat (shape0 kernel) / 2)%Z = Z.of_nat m).
  { rewrite Hk0. symmetry. apply Z.div_unique with 0%Z; lia. }
  rewrite convolve_even; [|done|done|].
  2: { rewrite Hk0. symmetry. apply Z.mod_unique with (Z.of_nat m); lia. }
  rewrite Hhalf, Hk0, Hk1, Nat.eqb_refl. cbn [negb].
  by destruct (pad_grid_positive z g padding_type m Hwf Hm) as (p & -> & _).
Qed.




(** ** Contrast stretching of a constant image *)




(** ** Thresholding *)

(** C9.  [thresholding(image, t)] has the shape of [image], holds only the
    values 0 and 1, and a pixel is 1 exactly when the pixel of [image]
    strictly exceeds [t]. *)
Theorem thresholding_binary (image : ndarray) (t : npfloat) :
  shape (thresholding image t) = shape image ∧
  Forall (fun y => y = Num 0 ∨ y = Num 1) (flat (thresholding image t)) ∧
  ∀ r c ch,
    pixel (thresholding image t) r c ch
    = (fun x => if fgt x t then Num 1 else Num 0) <$> pixel image r c ch.
Proof.
  unfold thresholding. split; [apply shape_ndarray_map|]. split.
  - rewrite flat_ndarray_map. apply Forall_fmap, Forall_true.
    intros x. simpl. destruct (fgt x t); auto.
  - intros r c ch. rewrite pixel_ndarray_map.
    destruct (pixel image r c ch) as [x|]; [|done]. simpl.
    unfold of_bool. by destruct (fgt x t).
Qed.

(** ** Global thresholding *)

(** The threshold at the [break] is a rounded value that passes the
    stopping test. *)
Lemma global_threshold_search_stops fuel g T delta_t ths T' ths' :
  global_threshold_search fuel g T delta_t ths = Some (T', ths') →
  flt (fabs (fsub (new_threshold g T') T')) delta_t = true ∧
  (T' = T ∨ ∃ x, T' = round3 x).
Proof.
  revert T ths. induction fuel as [|fuel IH]; intros T ths; [done|].
  cbn [global_threshold_search].
  destruct (flt (fabs (fsub (new_threshold g T) T)) delta_t) eqn:Hstop.
  - intros [= <- <-]. split; [done|]. by left.
  - intros Hs. destruct (IH _ _ Hs) as [Hstop' Hor]. split; [done|].
    right. destruct Hor as [->|Hx]; [by eexists|done].
Qed.

(** C7.  When [global_thresholding] converges to the threshold [T],
    running it again from the seed [T] stops in the first pass of the loop
    ([thresholds] has one element) with the same binary image. *)
Theorem global_thresholding_idempotent (fuel : nat) (image : ndarray)
    (initial_threshold delta_t T : npfloat) (thresholds : list npfloat) :
  global_threshold_search fuel (grayscale image) (round3 initial_threshold)
    delta_t [] = Some (T, thresholds) →
  global_threshold_search 1 (grayscale image) (round3 T) delta_t []
    = Some (T, [new_threshold (grayscale image) T]) ∧
  global_thresholding 1 image T delta_t
    = global_thresholding fuel image initial_threshold delta_t ∧
  is_Some (global_thresholding 1 image T delta_t).
Proof.
  intros Hs.
  destruct (global_threshold_search_stops _ _ _ _ _ _ _ Hs) as [Hstop Hor].
  assert (HT : round3 T = T).
  { destruct Hor as [->|[x ->]]; apply round3_idempotent. }
  assert (H1 : global_threshold_search 1 (grayscale image) (round3 T) delta_t []
               = Some (T, [new_threshold (grayscale image) T])).
  { rewrite HT. cbn [global_threshold_search]. by rewrite Hstop. }
  split; [exact H1|].
  unfold global_thresholding. rewrite H1, Hs. simpl. by eauto.
Qed.

Lemma global_thresholding_idempotent_witness :
  global_threshold_search 1 (grayscale gray4) (round3 (Num (500 # 1000)))
    (Num (1 # 1000)) []
    = Some (Num (500 # 1000),
            [new_threshold (grayscale gray4) (Num (500 # 1000))]) ∧
  global_thresholding 1 gray4 (Num (500 # 1000)) (Num (1 # 1000))
    = global_thresholding 10 gray4 (Num (3 # 20)) (Num (1 # 1000)) ∧
  is_Some (global_thresholding 1 gray4 (Num (500 # 1000)) (Num (1 # 1000))).
Proof.
  apply (global_thresholding_idempotent 10 gray4 (Num (3 # 20))
           (Num (1 # 1000)) (Num (500 # 1000))
           [Num (367 # 1000); Num (500 # 1000); Num (500 # 1000)]).
  vm_compute. reflexivity.
Defined.

(** ** Kirsch edge detection *)

(** *** The running maximum at one pixel *)

Lemma running_max_step_Num (m q : Q) :
  (0 <= m)%Q →
  ∃ M, running_max_step (Num m) (Num q) = Num M ∧
       (m <= M)%Q ∧ (q <= M)%Q ∧ (M == m ∨ M == q)%Q.
Proof.
  intros Hm. unfold running_max_step, fgt. simpl.
  destruct (Qltb m q) eqn:Hlt; simpl.
  - apply Qltb_true in Hlt.
    destruct (Qle_bool (1 * q) m) eqn:Hle.
    + apply Qle_bool_iff in Hle. lra.
    + exists (1 * q)%Q. split; [done|]. lra.
  - apply Qltb_false in Hlt.
    destruct (Qle_bool (0 * q) m) eqn:Hle.
    + exists m. split; [done|]. lra.
    + apply Qle_bool_false in Hle. lra.
Qed.

Lemma running_max_Num (qs : list Q) (m : Q) :
  (0 <= m)%Q →
  ∃ M, foldl running_max_step (Num m) (Num <$> qs) = Num M ∧
       (m <= M)%Q ∧ Forall (fun q => (q <= M)%Q) qs ∧
       ((M == m)%Q ∨ Exists (fun q => (M == q)%Q) qs).
Proof.
  revert m. induction qs as [|q qs IH]; intros m Hm.
  - exists m. split_and!; try done; [lra | by left].
  - rewrite fmap_cons. cbn [foldl].
    destruct (running_max_step_Num m q Hm) as (m' & -> & Hm' & Hq & Hor).
    destruct (IH m') as (M & -> & HM & Hall & HorM); [lra|].
    exists M. split_and!; try done; [lra| |].
    + constructor; [lra|done].
    + destruct HorM as [HM'|Hex]; [|right; by right].
      destruct Hor as [Hor|Hor]; [left; lra|right; left; lra].
Qed.

Lemma non_dominated_Num (M q : Q) :
  (q <= M)%Q → non_dominated (Num M) (Num q) = Num (1 * q).
Proof.
  intros Hq. unfold non_dominated. simpl.
  by rewrite (proj2 (Qle_bool_iff q M) Hq).
Qed.

(** At a pixel where the responses add up to zero: every direction keeps
    its response, and the maximum of what is kept is the running maximum. *)
Lemma kirsch_pixel (qs : list Q) :
  qs ≠ [] → (Qsum qs == 0)%Q →
  ∃ M, foldl running_max_step zero (Num <$> qs) = Num M ∧
       Forall (fun q => non_dominated (Num M) (Num q) = Num (1 * q)) qs ∧
       ∃ M', np_max (non_dominated (Num M) <$> (Num <$> qs)) = Ok (Num M') ∧
             (M' == M)%Q.
Proof.
  intros Hne Hsum.
  destruct (running_max_Num qs 0) as (M & HM & HM0 & Hall & Hor); [lra|].
  exists M. split; [exact HM|].
  assert (Hkeep : Forall (fun q => non_dominated (Num M) (Num q) = Num (1 * q)) qs).
  { eapply Forall_impl; [exact Hall|]. intros q Hq. by apply non_dominated_Num. }
  split; [done|].
  assert (Hmap : non_dominated (Num M) <$> (Num <$> qs)
                 = Num <$> ((fun q => 1 * q)%Q <$> qs)).
  { rewrite <- !list_fmap_compose. apply Forall_fmap_ext_1.
    eapply Forall_impl; [exact Hkeep|]. by intros q Hq. }
  rewrite Hmap.
  destruct qs as [|q qs]; [done|].
  destruct (np_max_Num (1 * q) ((fun q => 1 * q)%Q <$> qs))
    as (M' & HM' & Hall' & Hex').
  exists M'. split; [exact HM'|].
  change ((1 * q)%Q :: ((fun q => 1 * q)%Q <$> qs))
    with ((fun q => 1 * q)%Q <$> (q :: qs)) in *.
  rewrite Forall_fmap in Hall'. rewrite Exists_fmap in Hex'.
  assert (0 <= M')%Q.
  { destruct (Qlt_le_dec M' 0) as [Hneg|]; [|done].
    assert (Qsum (q :: qs) < 0)%Q; [|lra].
    apply Qsum_lt with M'; [done|done|].
    eapply Forall_impl; [exact Hall'|]. simpl. intros; lra. }
  apply Qle_antisym.
  - apply Exists_exists in Hex' as (x & Hx & Heq).
    rewrite Forall_forall in Hall. simpl in Heq.
    specialize (Hall x Hx). lra.
  - destruct Hor as [->|Hex]; [done|].
    apply Exists_exists in Hex as (x & Hx & Heq).
    rewrite Forall_forall in Hall'. specialize (Hall' x Hx). simpl in Hall'. lra.
Qed.

(** *** The responses at one pixel *)

(** A 3×3 array of finite values, written out. *)
Lemma grid_3x3_finite (s : grid npfloat) :
  wf s → shape0 s = 3 → shape1 s = 3 →
  (∀ i j x, at2 s i j = Some x → finite x) →
  ∃ a b c d e f g h i : Q,
    s = Grid 3 3 [[Num a; Num b; Num c]; [Num d; Num e; Num f];
                  [Num g; Num h; Num i]].
Proof.
  destruct s as [s0 s1 l]. simpl. intros [Hlen Hrows] -> -> Hfin.
  simpl in *.
  destruct l as [|r1 [|r2 [|r3 [|? ?]]]]; try done.
  apply Forall_cons in Hrows as [H1 Hrows].
  apply Forall_cons in Hrows as [H2 Hrows].
  apply Forall_cons in Hrows as [H3 _].
  destruct r1 as [|a [|b [|c [|? ?]]]]; try done.
  destruct r2 as [|d [|e [|f [|? ?]]]]; try done.
  destruct r3 as [|g [|h [|i [|? ?]]]]; try done.
  pose proof (Hfin 0 0 a eq_refl). pose proof (Hfin 0 1 b eq_refl).
  pose proof (Hfin 0 2 c eq_refl). pose proof (Hfin 1 0 d eq_refl).
  pose proof (Hfin 1 1 e eq_refl). pose proof (Hfin 1 2 f eq_refl).
  pose proof (Hfin 2 0 g eq_refl). pose proof (Hfin 2 1 h eq_refl).
  pose proof (Hfin 2 2 i eq_refl).
  destruct a as [a| | |], b as [b| | |], c as [c| | |]; try done.
  destruct d as [d| | |], e as [e| | |], f as [f| | |]; try done.
  destruct g as [g| | |], h as [h| | |], i as [i| | |]; try done.
  by exists a, b, c, d, e, f, g, h, i.
Qed.

(** The eight Kirsch kernels add up to the zero kernel, so the eight
    responses at a pixel add up to zero. *)
Lemma kirsch_responses_sum (s : grid npfloat) :
  wf s → shape0 s = 3 → shape1 s = 3 →
  (∀ i j x, at2 s i j = Some x → finite x) →
  ∃ qs, (fun k : string * grid npfloat => dot s k.2)
          <$> kirsch_edge_detection_kernels = Num <$> qs ∧
        qs ≠ [] ∧ (Qsum qs == 0)%Q.
Proof.
  intros Hwf H0 H1 Hfin.
  destruct (grid_3x3_finite s Hwf H0 H1 Hfin)
    as (a & b & c & d & e & f & g & h & i & ->).
  eexists [_; _; _; _; _; _; _; _]. split; [reflexivity|].
  split; [done|]. cbn [Qsum foldr]. ring.
Qed.

Lemma kirsch_kernels_3x3 :
  Forall (fun k : string * grid npfloat =>
            wf k.2 ∧ shape0 k.2 = 2 * 1 + 1 ∧ shape1 k.2 = 2 * 1 + 1)
    kirsch_edge_detection_kernels.
Proof.
  repeat constructor.
Qed.

Lemma kirsch_names_NoDup : NoDup kirsch_edge_detection_kernels.*1.
Proof. apply (bool_decide_unpack _). vm_compute. done. Qed.

(** *** The three loops *)

Lemma kirsch_max_loop (img : ndarray) (posts : dict ndarray) (acc : ndarray) :
  like img acc → Forall (fun post => like img post.2) posts →
  ∃ mx,
    for_each posts
      (fun post_convolution_image max_value_image =>
         greater ← ndarray_map2 (fun x y => of_bool (fgt x y))
                     post_convolution_image.2 max_value_image;
         boolean_image ← ndarray_map2 fmul greater post_convolution_image.2;
         ndarray_map2 fmaximum boolean_image max_value_image)
      acc = Ok mx ∧
    like img mx ∧
    ∀ r c ch a vals,
      pixel acc r c ch = Some a →
      Forall2 (fun post v => pixel post.2 r c ch = Some v) posts vals →
      pixel mx r c ch = Some (foldl running_max_step a vals).
Proof.
  intros Hacc Hposts. revert acc Hacc.
  induction Hposts as [|post posts Hpost _ IH]; intros acc Hacc.
  - exists acc. split; [done|]. split; [done|].
    intros r c ch a vals Ha Hvals. by inversion Hvals.
  - cbn [for_each].
    destruct (ndarray_map2_like (fun x y => of_bool (fgt x y)) post.2 acc)
      as (gt & -> & Hgt & Hgtp); [by eapply like_wf|by eapply like_both|].
    cbn [mbind result_bind].
    destruct (ndarray_map2_like fmul gt post.2)
      as (bi & -> & Hbi & Hbip);
      [by eapply like_wf|eapply like_both; [exact Hgt|by apply like_refl, (like_wf img)]|].
    cbn [mbind result_bind].
    destruct (ndarray_map2_like fmaximum bi acc)
      as (acc' & -> & Hacc' & Haccp);
      [by eapply like_wf|
       eapply like_both; [exact Hbi|]; eapply like_both; [exact Hgt|];
       by eapply like_both|].
    cbn [mbind result_bind].
    assert (like img acc').
    { eapply like_trans; [exact Hpost|]. eapply like_trans; [exact Hgt|].
      eapply like_trans; [exact Hbi|]. exact Hacc'. }
    destruct (IH acc') as (mx & -> & Hmx & Hmxp); [done|].
    exists mx. split; [done|]. split; [done|].
    intros r c ch a vals Ha Hvals.
    inversion Hvals as [|? v ? vals' Hv Hvals']; subst.
    cbn [foldl]. apply Hmxp; [|done].
    apply Haccp; [|done]. apply Hbip; [|done]. by apply Hgtp.
Qed.

Lemma kirsch_keep (img post mx : ndarray) :
  like img post → like img mx →
  ∃ out,
    (not_greater ← ndarray_map2 (fun x y => of_bool (fle x y)) post mx;
     ndarray_map2 fmul not_greater post) = Ok out ∧
    like img out ∧
    ∀ r c ch v M, pixel post r c ch = Some v → pixel mx r c ch = Some M →
                  pixel out r c ch = Some (non_dominated M v).
Proof.
  intros Hpost Hmx.
  destruct (ndarray_map2_like (fun x y => of_bool (fle x y)) post mx)
    as (ng & -> & Hng & Hngp); [by eapply like_wf|by eapply like_both|].
  cbn [mbind result_bind].
  destruct (ndarray_map2_like fmul ng post) as (out & -> & Hout & Houtp);
    [by eapply like_wf|
     eapply like_both; [exact Hng|by apply like_refl, (like_wf img)]|].
  exists out. split; [done|]. split.
  { eapply like_trans; [exact Hpost|]. eapply like_trans; [exact Hng|done]. }
  intros r c ch v M Hv HM. apply Houtp; [|done]. by apply Hngp.
Qed.

Lemma kirsch_loops (img : ndarray) (padding_type : string) :
  ndarray_wf img →
  ∃ p posts mx outs,
    pad_image img padding_type 1 = Ok p ∧ ndarray_wf p ∧
    rows p = rows img + 2 ∧ cols p = cols img + 2 ∧
    channels p = channels img ∧
    kirsch_post_convolution_images img padding_type = Ok posts ∧
    kirsch_max_value_image img posts = Ok mx ∧
    kirsch_filtered_images posts mx = Ok outs ∧
    like img mx ∧
    length posts = 8 ∧ length outs = 8 ∧
    (∀ r c ch, r < rows img → c < cols img → ch < channels img →
       pixel mx r c ch
       = Some (foldl running_max_step zero
                 ((fun k : string * grid npfloat => response p r c ch k.2)
                  <$> kirsch_edge_detection_kernels))) ∧
    ∀ i k, kirsch_edge_detection_kernels !! i = Some k →
      ∃ post out,
        posts !! i = Some (k.1, post) ∧ outs !! i = Some (k.1, out) ∧
        convolution_2d img k.2 padding_type DEFAULT_NORMALIZATION_METHOD
          = Ok post ∧
        like img post ∧ like img out ∧
        ∀ r c ch M, r < rows img → c < cols img → ch < channels img →
          pixel mx r c ch = Some M →
          pixel post r c ch = Some (response p r c ch k.2) ∧
          pixel out r c ch = Some (non_dominated M (response p r c ch k.2)).
Proof.
  intros Hwf.
  (* the padded image is the same for the eight directions *)
  destruct (convolution_2d_unchanged img (kernel3 0 0 0 0 0 0 0 0 0)
              padding_type 1 Hwf)
    as (p & _ & Hpad & Hwfp & Hpr & Hpc & Hpch & _);
    [repeat constructor|lia|done|done|].
  exists p.
  (* first loop *)
  destruct (for_each_collect (fun k : string * grid npfloat => k.1)
              (fun k => convolution_2d img k.2 padding_type
                          DEFAULT_NORMALIZATION_METHOD)
              (fun k post =>
                 like img post ∧
                 ∀ r c ch, r < rows img → c < cols img → ch < channels img →
                   pixel post r c ch = Some (response p r c ch k.2))
              kirsch_edge_detection_kernels [])
    as (posts & Hposts & Hposts2).
  { eapply Forall_impl; [exact kirsch_kernels_3x3|].
    intros k (Hk & Hk0 & Hk1).
    destruct (convolution_2d_unchanged img k.2 padding_type 1 Hwf Hk)
      as (p' & out & Hpad' & _ & _ & _ & _ & Hconv & Hlike & Hpix);
      [lia|done|done|].
    change (Z.of_nat 1) with 1%Z in *.
    rewrite Hpad in Hpad'. injection Hpad' as <-.
    exists out. split; [exact Hconv|]. split; [done|]. exact Hpix. }
  rewrite app_nil_l in Hposts. exists posts.
  assert (Hlen : length posts = 8).
  { by rewrite <- (Forall2_length _ _ _ Hposts2). }
  assert (Hnames : posts.*1 = kirsch_edge_detection_kernels.*1).
  { apply list_eq_Forall2, Forall2_fmap, Forall2_flip.
    eapply Forall2_impl; [exact Hposts2|]. by intros k post (? & _). }
  (* second loop *)
  destruct (kirsch_max_loop img posts (zeros_like img))
    as (mx & Hmx & Hlmx & Hmxp).
  { apply like_zeros_like. }
  { apply Forall_forall. intros post Hpost.
    apply list_elem_of_lookup in Hpost as [i Hi].
    destruct (Forall2_lookup_r _ _ _ _ _ Hposts2 Hi) as (k & _ & _ & _ & Hl & _).
    done. }
  exists mx.
  (* third loop *)
  destruct (for_each_collect (fun k : string * grid npfloat => k.1)
              (fun k =>
                 post ← dict_get posts k.1;
                 not_greater ← ndarray_map2 (fun x y => of_bool (fle x y))
                                 post mx;
                 ndarray_map2 fmul not_greater post)
              (fun k out =>
                 like img out ∧
                 ∀ post, dict_get posts k.1 = Ok post →
                 ∀ r c ch v M, pixel post r c ch = Some v →
                               pixel mx r c ch = Some M →
                               pixel out r c ch = Some (non_dominated M v))
              kirsch_edge_detection_kernels [])
    as (outs & Houts & Houts2).
  { apply Forall_forall. intros k Hk.
    apply list_elem_of_lookup in Hk as [i Hi].
    destruct (Forall2_lookup_l _ _ _ _ _ Hposts2 Hi)
      as ([name post] & Hpost & Hname & _ & Hl & _).
    simpl in Hname, Hl. subst name.
    assert (Hget : dict_get posts k.1 = Ok post).
    { eapply dict_get_lookup; [|exact Hpost].
      rewrite Hnames. apply kirsch_names_NoDup. }
    rewrite Hget. cbn [mbind result_bind].
    destruct (kirsch_keep img post mx Hl Hlmx) as (out & -> & Hlo & Hop).
    exists out. split; [done|]. split; [done|].
    intros post' [= <-]. exact Hop. }
  rewrite app_nil_l in Houts. exists outs.
  assert (Hleno : length outs = 8).
  { by rewrite <- (Forall2_length _ _ _ Houts2). }
  assert (Hfiltered : kirsch_filtered_images posts mx = Ok outs).
  { unfold kirsch_filtered_images. rewrite <- Houts.
    apply for_each_ext. intros k acc _.
    destruct (dict_get posts k.1) as [post|]; [|done]. cbn [mbind result_bind].
    destruct (ndarray_map2 _ post mx) as [ng|]; [|done]. cbn [mbind result_bind].
    by destruct (ndarray_map2 fmul ng post). }
  split_and!; try done.
  - intros r c ch Hr Hc Hch.
    apply (Hmxp r c ch zero).
    { by apply pixel_zeros_like. }
    apply Forall2_fmap_r, Forall2_flip.
    eapply Forall2_impl; [exact Hposts2|].
    intros k post (_ & _ & _ & Hpix). by apply Hpix.
  - intros i k Hi.
    destruct (Forall2_lookup_l _ _ _ _ _ Hposts2 Hi)
      as ([name post] & Hpost & Hname & Hconv & Hl & Hpix).
    destruct (Forall2_lookup_l _ _ _ _ _ Houts2 Hi)
      as ([name' out] & Hout & Hname' & _ & Hlo & Hop).
    simpl in *. subst name name'.
    exists post, out. split_and!; try done.
    intros r c ch M Hr Hc Hch HM. split; [by apply Hpix|].
    eapply Hop; [|by apply Hpix|done].
    eapply dict_get_lookup; [|exact Hpost].
    rewrite Hnames. apply kirsch_names_NoDup.
Qed.

Lemma kirsch_responses (img p : ndarray) padding_type r c ch :
  ndarray_finite img →
  pad_image img padding_type 1 = Ok p → ndarray_wf p →
  rows p = rows img + 2 → cols p = cols img + 2 → channels p = channels img →
  r < rows img → c < cols img → ch < channels img →
  ∃ qs, (fun k : string * grid npfloat => response p r c ch k.2)
          <$> kirsch_edge_detection_kernels = Num <$> qs ∧
        qs ≠ [] ∧ (Qsum qs == 0)%Q.
Proof.
  intros Hfin Hpad Hwfp Hpr Hpc Hpch Hr Hc Hch.
  destruct (grid_slice_inside (plane ch p) r c 3 3)
    as (Hws & Hs0 & Hs1 & Hat).
  { by apply plane_wf. }
  { rewrite plane_shape0. lia. }
  { rewrite plane_shape1. lia. }
  apply kirsch_responses_sum; try done.
  intros i j x Hx.
  destruct (at2_lt _ _ _ _ Hws Hx) as [Hi Hj].
  unfold window in Hx. rewrite Hat in Hx by lia.
  rewrite <- pixel_plane in Hx by lia.
  by eapply pad_image_finite.
Qed.

(** C10.  Each of the eight images [kirsch_edge_detection] returns is the
    response of its direction at every pixel: the comparison with the
    running maximum never zeroes a pixel. *)
Theorem kirsch_output_is_response (img : ndarray) (padding_type : string) :
  ndarray_wf img → ndarray_finite img →
  ∃ outs,
    kirsch_edge_detection img padding_type = Ok outs ∧ length outs = 8 ∧
    ∀ i k, kirsch_edge_detection_kernels !! i = Some k →
      ∃ resp out,
        convolution_2d img k.2 padding_type DEFAULT_NORMALIZATION_METHOD
          = Ok resp ∧
        outs !! i = Some (k.1, out) ∧ like resp out ∧
        ∀ r c ch x, pixel resp r c ch = Some x →
          ∃ y, pixel out r c ch = Some y ∧ feq y x.
Proof.
  intros Hwf Hfin.
  destruct (kirsch_loops img padding_type Hwf)
    as (p & posts & mx & outs & Hpad & Hwfp & Hpr & Hpc & Hpch & Hposts & Hmx
        & Houts & Hlmx & Hlenp & Hleno & Hmxp & Hdir).
  exists outs. split.
  { unfold kirsch_edge_detection. rewrite Hposts. cbn [mbind result_bind].
    rewrite Hmx. exact Houts. }
  split; [done|].
  intros i k Hi.
  destruct (Hdir i k Hi) as (post & out & _ & Hout & Hconv & Hlp & Hlo & Hpix).
  exists post, out. split_and!; try done.
  { eapply like_both; [exact Hlp|exact Hlo]. }
  intros r c ch x Hx.
  destruct (pixel_lt post r c ch x (like_wf _ _ Hlp) Hx) as (Hr & Hc & Hch).
  destruct Hlp as (_ & Hr' & Hc' & Hch'). rewrite Hr' in Hr.
  rewrite Hc' in Hc. rewrite Hch' in Hch.
  destruct (kirsch_responses img p padding_type r c ch)
    as (qs & Hqs & Hne & Hsum); try done.
  destruct (kirsch_pixel qs Hne Hsum) as (M & HM & Hkeep & _).
  specialize (Hmxp r c ch Hr Hc Hch). rewrite Hqs, HM in Hmxp.
  destruct (Hpix r c ch (Num M) Hr Hc Hch Hmxp) as [Hpost Hkept].
  rewrite Hx in Hpost. injection Hpost as ->.
  assert (Hq : ((fun k : string * grid npfloat => response p r c ch k.2)
                  <$> kirsch_edge_detection_kernels) !! i
               = Some (response p r c ch k.2)).
  { by rewrite list_lookup_fmap, Hi. }
  rewrite Hqs, list_lookup_fmap in Hq.
  destruct (qs !! i) as [q|] eqn:Hqi; [|done]. injection Hq as Hq.
  rewrite Forall_lookup in Hkeep. specialize (Hkeep i q Hqi).
  rewrite <- Hq, Hkeep in Hkept.
  exists (Num (1 * q)). split; [done|]. rewrite <- Hq. simpl. ring.
Qed.

Lemma kirsch_output_is_response_witness :
  ∃ outs,
    kirsch_edge_detection gray12 ZERO_PADDING = Ok outs ∧ length outs = 8 ∧
    ∀ i k, kirsch_edge_detection_kernels !! i = Some k →
      ∃ resp out,
        convolution_2d gray12 k.2 ZERO_PADDING DEFAULT_NORMALIZATION_METHOD
          = Ok resp ∧
        outs !! i = Some (k.1, out) ∧ like resp out ∧
        ∀ r c ch x, pixel resp r c ch = Some x →
          ∃ y, pixel out r c ch = Some y ∧ feq y x.
Proof.
  apply (kirsch_output_is_response gray12 ZERO_PADDING).
  - split; [reflexivity|]. by repeat constructor.
  - by repeat constructor.
Defined.



(** ** Arrays as objects *)

(** The outcome is an exception: nothing is returned, and the store has
    only grown. *)
Local Ltac raised :=
  simpl; split; [first [reflexivity | by apply prefix_app_r
                       | rewrite <- app_assoc; by apply prefix_app_r]
                | by intros ? [=]].

Lemma allocates_fresh_result (m : Heap.M Heap.loc) h l a :
  allocates m → h !! l = Some a → fresh_result h l (m h).
Proof.
  intros Hm Hl. destruct (Hm h) as [Hpre Hnew]. split; [done|].
  intros l' Hl'. destruct (Hnew l' Hl') as [Hlo Hhi].
  apply lookup_lt_Some in Hl. split_and!.
  - lia.
  - by apply lookup_ge_None.
  - by apply lookup_lt_is_Some.
Qed.

Lemma allocates_contrast_stretching l : allocates (Heap.contrast_stretching l).
Proof.
  intros h. unfold Heap.contrast_stretching, Heap.bind, Heap.load, Heap.lift,
    Heap.alloc.
  destruct (h !! l) as [a|]; [|raised].
  destruct (np_max (flat a)) as [mx|]; [|raised].
  destruct (np_min (flat a)) as [mn|]; [|raised]. simpl.
  rewrite lookup_app_r, Nat.sub_diag by done. simpl.
  split.
  - rewrite <- app_assoc. by apply prefix_app_r.
  - intros l' [= <-]. rewrite !length_app. simpl. lia.
Qed.

Lemma allocates_pad_image l padding_type padding_size :
  allocates (Heap.pad_image l padding_type padding_size).
Proof.
  intros h. unfold Heap.pad_image, Heap.bind, Heap.load, Heap.lift, Heap.alloc.
  destruct (h !! l) as [a|]; [|raised].
  destruct (pad_image a padding_type padding_size) as [p|]; [|raised]. simpl.
  split.
  - by apply prefix_app_r.
  - intros l' [= <-]. rewrite length_app. simpl. lia.
Qed.

Lemma allocates_thresholding l t : allocates (Heap.thresholding l t).
Proof.
  intros h. unfold Heap.thresholding, Heap.bind, Heap.load, Heap.alloc.
  destruct (h !! l) as [a|]; [|raised]. simpl.
  rewrite lookup_app_r, Nat.sub_diag by done. simpl.
  split.
  - rewrite <- app_assoc. by apply prefix_app_r.
  - intros l' [= <-]. rewrite !length_app. simpl. lia.
Qed.

(** [image_normalization] on an array the caller has just allocated:
    whatever the method, the arrays that were there before the allocation
    are not touched. *)
Lemma image_normalization_own (h0 h : Heap.state) (a : ndarray) nm :
  h0 `prefix_of` h →
  h0 `prefix_of` (Heap.image_normalization (length h) nm (h ++ [a])).2 ∧
  ∀ l', (Heap.image_normalization (length h) nm (h ++ [a])).1 = Ok l' →
        length h0 ≤ l' <
          length (Heap.image_normalization (length h) nm (h ++ [a])).2.
Proof.
  intros Hpre. pose proof (prefix_length _ _ Hpre) as Hlen.
  assert (Hpre' : h0 `prefix_of` h ++ [a]) by by apply prefix_app_r.
  unfold Heap.image_normalization.
  destruct (String.eqb nm "unchanged").
  { simpl. split; [done|]. intros l' [= <-]. rewrite length_app. simpl. lia. }
  destruct (String.eqb nm "stretch").
  { destruct (allocates_contrast_stretching (length h) (h ++ [a]))
      as [Hp Hn].
    split; [by etrans|]. intros l' Hl'. specialize (Hn l' Hl').
    rewrite length_app in Hn. simpl in Hn. lia. }
  destruct (String.eqb nm "cutoff").
  2: { simpl. split; [done|]. intros l' [= <-]. rewrite length_app. simpl. lia. }
  unfold Heap.bind, Heap.load, Heap.store, Heap.ret.
  rewrite lookup_app_r, Nat.sub_diag by done. simpl.
  rewrite list_lookup_insert_eq by (rewrite length_app; simpl; lia). simpl.
  rewrite list_insert_insert_eq.
  rewrite insert_app_r_alt, Nat.sub_diag by done. simpl.
  split; [by apply prefix_app_r|].
  intros l' [= <-]. rewrite length_app. simpl. lia.
Qed.

Lemma allocates_convolution_2d l kernel padding_type nm :
  allocates (Heap.convolution_2d l kernel padding_type nm).
Proof.
  intros h. unfold Heap.convolution_2d, Heap.bind, Heap.load.
  destruct (h !! l) as [a|] eqn:Hl; [|raised].
  destruct (negb _); [raised|].
  destruct (allocates_pad_image l padding_type
              (Z.of_nat (shape0 kernel) / 2) h) as [Hp Hn].
  destruct (Heap.pad_image l padding_type _ h) as [[p|e] h1]; simpl in *;
    [|by split; [|intros ? [=]]].
  unfold Heap.alloc, Heap.lift, Heap.store. simpl.
  destruct (convolve_image a kernel padding_type) as [filled|]; simpl.
  2: { split; [by apply prefix_app_r|by intros ? [=]]. }
  rewrite insert_app_r_alt, Nat.sub_diag by done. simpl.
  apply image_normalization_own. done.
Qed.




(** *** The store-passing functions return the values of the functions on
    values *)

Lemma heap_contrast_stretching_value (h : Heap.state) l a :
  h !! l = Some a →
  returned (Heap.contrast_stretching l h) = contrast_stretching a.
Proof.
  intros Hl. unfold Heap.contrast_stretching, Heap.bind, Heap.load, Heap.lift,
    Heap.alloc, returned, contrast_stretching.
  rewrite Hl. simpl.
  destruct (np_max (flat a)) as [mx|]; simpl; [|done].
  destruct (np_min (flat a)) as [mn|]; simpl; [|done].
  rewrite lookup_app_r, Nat.sub_diag by done. simpl.
  rewrite lookup_app_r, Nat.sub_diag by done. simpl.
  by rewrite ndarray_map_compose.
Qed.

Lemma heap_image_normalization_value (h : Heap.state) l a nm :
  h !! l = Some a →
  returned (Heap.image_normalization l nm h) = image_normalization a nm.
Proof.
  intros Hl. pose proof (lookup_lt_Some _ _ _ Hl) as Hlt.
  unfold Heap.image_normalization, image_normalization.
  destruct (String.eqb nm "unchanged").
  { unfold returned, Heap.ret. simpl. by rewrite Hl. }
  destruct (String.eqb nm "stretch").
  { by apply heap_contrast_stretching_value. }
  destruct (String.eqb nm "cutoff").
  2: { unfold returned, Heap.ret. simpl. by rewrite Hl. }
  unfold returned, Heap.bind, Heap.load, Heap.store, Heap.ret.
  rewrite Hl. simpl. rewrite list_lookup_insert_eq by done. simpl.
  rewrite list_lookup_insert_eq by (by rewrite length_insert).
  by rewrite ndarray_map_compose.
Qed.

Lemma heap_pad_image_value (h : Heap.state) l a padding_type padding_size :
  h !! l = Some a →
  returned (Heap.pad_image l padding_type padding_size h)
  = pad_image a padding_type padding_size.
Proof.
  intros Hl. unfold Heap.pad_image, Heap.bind, Heap.load, Heap.lift,
    Heap.alloc, returned.
  rewrite Hl. simpl.
  destruct (pad_image a padding_type padding_size) as [p|]; simpl; [|done].
  by rewrite lookup_app_r, Nat.sub_diag.
Qed.

Lemma heap_thresholding_value (h : Heap.state) l a t :
  h !! l = Some a →
  returned (Heap.thresholding l t h) = Ok (thresholding a t).
Proof.
  intros Hl. unfold Heap.thresholding, Heap.bind, Heap.load, Heap.alloc,
    returned.
  rewrite Hl. simpl. rewrite lookup_app_r, Nat.sub_diag by done. simpl.
  by rewrite lookup_app_r, Nat.sub_diag.
Qed.

Lemma convolve_image_pad_raises a kernel padding_type e :
  (shape0 kernel =? shape1 kernel)%nat = true →
  pad_image a padding_type (Z.of_nat (shape0 kernel) / 2) = Raise e →
  convolve_image a kernel padding_type = Raise e.
Proof.
  intros Hk. unfold convolve_image, convolve, pad_image. rewrite Hk. simpl.
  destruct a as [g|g]; simpl.
  - destruct (pad_grid zero g _ _); [done|]. by intros [= ->].
  - destruct (pad_grid zero3 g _ _); [done|]. by intros [= ->].
Qed.

Lemma heap_convolution_2d_value (h : Heap.state) l a kernel padding_type nm :
  h !! l = Some a →
  returned (Heap.convolution_2d l kernel padding_type nm h)
  = convolution_2d a kernel padding_type nm.
Proof.
  intros Hl. unfold Heap.convolution_2d, convolution_2d.
  unfold Heap.bind at 1. unfold Heap.load at 1. rewrite Hl.
  destruct (shape0 kernel =? shape1 kernel)%nat eqn:Hk; simpl.
  2: { unfold returned, Heap.lift. simpl.
       unfold convolve_image, convolve. rewrite Hk. by destruct a. }
  unfold Heap.bind at 1.
  unfold Heap.pad_image, Heap.bind at 1, Heap.load at 1.
  rewrite Hl. unfold Heap.bind at 1, Heap.lift at 1.
  destruct (pad_image a padding_type _) as [p|e] eqn:Hpad.
  2: { unfold returned. simpl.
       by rewrite (convolve_image_pad_raises _ _ _ _ Hk Hpad). }
  unfold Heap.alloc at 1. unfold Heap.bind at 1, Heap.alloc at 1.
  unfold Heap.bind at 1, Heap.lift at 1.
  destruct (convolve_image a kernel padding_type) as [filled|]; [|done].
  unfold Heap.bind at 1, Heap.store. simpl.
  apply heap_image_normalization_value.
  apply list_lookup_insert_eq. rewrite !length_app. simpl. lia.
Qed.

(** Under "cutoff" [image_normalization] clamps the array it was given in
    place and returns it. *)
Lemma heap_image_normalization_cutoff (h : Heap.state) l a :
  h !! l = Some a →
  Heap.image_normalization l "cutoff" h
  = (Ok l, <[l := ndarray_map cutoff a]> h).
Proof.
  intros Hl. pose proof (lookup_lt_Some _ _ _ Hl) as Hlt.
  unfold Heap.image_normalization. simpl.
  unfold Heap.bind, Heap.load, Heap.store, Heap.ret.
  rewrite Hl. simpl. rewrite list_lookup_insert_eq by done. simpl.
  by rewrite list_insert_insert_eq, ndarray_map_compose.
Qed.

(** * Further properties *)

(** ** Padding by a positive margin *)

(** X1.  Padding by a positive margin [m] does not fail: the result has shape
    [(H + 2m, W + 2m)] and the channels of the image.  Under the zero
    policy its centre is the image and its border is zero; a padding type
    that the [match] of [pad_image] does not know is no error, and the
    result is zero everywhere. *)
Theorem pad_image_positive_margin (img : ndarray) (padding_type : string)
    (m : nat) :
  ndarray_wf img → 0 < m →
  ∃ p, pad_image img padding_type (Z.of_nat m) = Ok p ∧
       ndarray_wf p ∧
       rows p = rows img + 2 * m ∧ cols p = cols img + 2 * m ∧
       channels p = channels img ∧
       ∀ r c ch, r < rows img + 2 * m → c < cols img + 2 * m →
         ch < channels img →
         pixel p r c ch =
           if bool_decide (padding_type = ZERO_PADDING ∧
                           m ≤ r < m + rows img ∧ m ≤ c < m + cols img)
           then pixel img (r - m) (c - m) ch
           else Some zero.
Proof.
  intros Hwf Hm. destruct (decide (padding_type = ZERO_PADDING)) as [->|Hne].
  - destruct (pad_image_zero_positive img m Hwf Hm)
      as (p & Hp & Hwfp & Hr & Hc & Hch & Hpix).
    exists p. split_and!; try done.
    intros r c ch Hr' Hc' Hch'. rewrite Hpix by done.
    repeat case_bool_decide; try done; exfalso; tauto.
  - assert (Hpt : String.eqb padding_type ZERO_PADDING = false)
      by by apply String.eqb_neq.
    destruct img as [g|g]; unfold pad_image, pad_grid; rewrite Hpt;
      replace (Z.of_nat (shape0 g) + 2 * Z.of_nat m)%Z
        with (Z.of_nat (shape0 g + 2 * m)) by lia;
      replace (Z.of_nat (shape1 g) + 2 * Z.of_nat m)%Z
        with (Z.of_nat (shape1 g + 2 * m)) by lia;
      rewrite np_zeros_Ok; simpl; eexists; (split; [reflexivity|]);
      simpl; (split; [apply wf_replicate|]); split_and!; try done;
      intros r c ch Hr Hc Hch;
      (rewrite bool_decide_eq_false_2 by tauto).
    + replace ch with 0 by lia. simpl. by apply at2_replicate.
    + rewrite at2_replicate by done. simpl.
      destruct ch as [|[|[|?]]]; simpl; try done. lia.
Qed.

Lemma pad_image_positive_margin_witness :
  ∃ p, pad_image gray12 ZERO_PADDING (Z.of_nat 1) = Ok p ∧
       ndarray_wf p ∧
       rows p = rows gray12 + 2 * 1 ∧ cols p = cols gray12 + 2 * 1 ∧
       channels p = channels gray12 ∧
       ∀ r c ch, r < rows gray12 + 2 * 1 → c < cols gray12 + 2 * 1 →
         ch < channels gray12 →
         pixel p r c ch =
           if bool_decide (ZERO_PADDING = ZERO_PADDING ∧
                           1 ≤ r < 1 + rows gray12 ∧ 1 ≤ c < 1 + cols gray12)
           then pixel gray12 (r - 1) (c - 1) ch
           else Some zero.
Proof.
  apply (pad_image_positive_margin gray12 ZERO_PADDING 1).
  - split; [reflexivity|]. by repeat constructor.
  - lia.
Defined.

(** ** Sub-images *)

(** X2.  A window that lies inside the image: for an odd size [2m + 1] and a
    centre at least [m] away from the four borders, [extract_sub_image]
    returns the [(2m + 1) × (2m + 1)] array of the neighbours of the
    centre. *)
Theorem extract_sub_image_inside {A} (image : grid A) (r c m : nat) :
  wf image → m ≤ r → r + m < shape0 image → m ≤ c → c + m < shape1 image →
  ∃ s, extract_sub_image image (Z.of_nat r, Z.of_nat c) (Z.of_nat (2 * m + 1))
         = Ok s ∧
       wf s ∧ shape0 s = 2 * m + 1 ∧ shape1 s = 2 * m + 1 ∧
       ∀ i j, i < 2 * m + 1 → j < 2 * m + 1 →
         at2 s i j = at2 image (r - m + i) (c - m + j).
Proof.
  intros Hwf Hr Hr' Hc Hc'.
  replace (Z.of_nat r) with (Z.of_nat (r - m) + Z.of_nat m)%Z by lia.
  replace (Z.of_nat c) with (Z.of_nat (c - m) + Z.of_nat m)%Z by lia.
  rewrite extract_sub_image_window. eexists. split; [reflexivity|].
  apply grid_slice_inside; [done|lia|lia].
Qed.

Lemma extract_sub_image_inside_witness :
  ∃ s, extract_sub_image
         (Grid 3 3 [[Num 1; Num 2; Num 3]; [Num 4; Num 5; Num 6];
                    [Num 7; Num 8; Num 9]])
         (Z.of_nat 1, Z.of_nat 1) (Z.of_nat (2 * 1 + 1)) = Ok s ∧
       wf s ∧ shape0 s = 2 * 1 + 1 ∧ shape1 s = 2 * 1 + 1 ∧
       ∀ i j, i < 2 * 1 + 1 → j < 2 * 1 + 1 →
         at2 s i j
         = at2 (Grid 3 3 [[Num 1; Num 2; Num 3]; [Num 4; Num 5; Num 6];
                          [Num 7; Num 8; Num 9]]) (1 - 1 + i) (1 - 1 + j).
Proof.
  apply (extract_sub_image_inside
           (Grid 3 3 [[Num 1; Num 2; Num 3]; [Num 4; Num 5; Num 6];
                      [Num 7; Num 8; Num 9]]) 1 1 1).
  - split; [reflexivity|]. by repeat constructor.
  - lia.
  - simpl. lia.
  - lia.
  - simpl. lia.
Defined.

(** X3.  Near the top or the left border the window is not clipped: its first
    index [position - m] is negative, which a Python slice counts from the
    end of the axis, so on an axis at least as long as the window the slice
    is empty.  The sub-image then has no row (or no column). *)
Theorem extract_sub_image_border {A} (image : grid A) (r c : Z) (m : nat) :
  0 < m →
  ∃ s, extract_sub_image image (r, c) (Z.of_nat (2 * m + 1)) = Ok s ∧
       ((0 ≤ r < Z.of_nat m)%Z → 2 * m + 1 ≤ shape0 image →
          shape0 s = 0 ∧ cells s = []) ∧
       ((0 ≤ c < Z.of_nat m)%Z → 2 * m + 1 ≤ shape1 image →
          shape1 s = 0 ∧ Forall (fun row => row = []) (cells s)).
Proof.
  intros Hm. unfold extract_sub_image. rewrite odd_mod, half_odd. simpl.
  eexists. split; [reflexivity|]. unfold grid_slice. simpl. split.
  - intros Hr HH.
    assert (Hlen : slice_len (shape0 image) (r - Z.of_nat m)
                     (r + Z.of_nat m + 1) = 0).
    { unfold slice_len, slice_index.
      destruct (Z.ltb_spec (r - Z.of_nat m) 0); [|lia].
      destruct (Z.ltb_spec (r + Z.of_nat m + 1) 0); lia. }
    rewrite Hlen. done.
  - intros Hc HW.
    assert (Hlen : slice_len (shape1 image) (c - Z.of_nat m)
                     (c + Z.of_nat m + 1) = 0).
    { unfold slice_len, slice_index.
      destruct (Z.ltb_spec (c - Z.of_nat m) 0); [|lia].
      destruct (Z.ltb_spec (c + Z.of_nat m + 1) 0); lia. }
    rewrite Hlen. split; [done|]. apply Forall_fmap, Forall_true. done.
Qed.

Lemma extract_sub_image_border_witness :
  ∃ s, extract_sub_image
         (Grid 3 3 [[Num 1; Num 2; Num 3]; [Num 4; Num 5; Num 6];
                    [Num 7; Num 8; Num 9]])
         (0, 0)%Z (Z.of_nat (2 * 1 + 1)) = Ok s ∧
       (shape0 s = 0 ∧ cells s = []) ∧
       (shape1 s = 0 ∧ Forall (fun row => row = []) (cells s)).
Proof.
  destruct (extract_sub_image_border
              (Grid 3 3 [[Num 1; Num 2; Num 3]; [Num 4; Num 5; Num 6];
                         [Num 7; Num 8; Num 9]]) 0 0 1)
    as (s & Hs & Hrows & Hcols); [lia|].
  exists s. split; [exact Hs|]. split.
  - apply Hrows; [lia|simpl; lia].
  - apply Hcols; [lia|simpl; lia].
Defined.


Lemma cells_tabulate {A} (g : grid A) (f : nat → nat → A) :
  wf g →
  (∀ i j, i < shape0 g → j < shape1 g → at2 g i j = Some (f i j)) →
  cells g = tabulate (shape0 g) (shape1 g) f.
Proof.
  intros [Hlen Hrows] Hat. unfold tabulate.
  apply list_eq. intros i. rewrite list_lookup_fmap.
  destruct (decide (i < shape0 g)) as [Hi|Hi].
  - rewrite lookup_seq_lt by done. simpl.
    destruct (lookup_lt_is_Some_2 (cells g) i) as [row Hrow]; [lia|].
    rewrite Hrow. f_equal.
    rewrite Forall_lookup in Hrows. specialize (Hrows _ _ Hrow).
    apply list_eq. intros j. rewrite list_lookup_fmap.
    destruct (decide (j < shape1 g)) as [Hj|Hj].
    + rewrite lookup_seq_lt by done. simpl.
      specialize (Hat i j Hi Hj). unfold at2 in Hat. rewrite Hrow in Hat.
      exact Hat.
    + rewrite lookup_seq_ge by lia. simpl. apply lookup_ge_None. lia.
  - rewrite lookup_seq_ge by lia. simpl. apply lookup_ge_None. lia.
Qed.

Lemma tabulate_fmap {A B} (g : A → B) h w (f : nat → nat → A) :
  map (map g) (tabulate h w f) = tabulate h w (fun i j => g (f i j)).
Proof.
  unfold tabulate. change (map ?f ?l) with (f <$> l).
  rewrite <- list_fmap_compose. apply list_fmap_ext. intros _ i _. simpl.
  change (map ?f ?l) with (f <$> l). by rewrite <- list_fmap_compose.
Qed.

Lemma lookup_tabulate {A} h w (f : nat → nat → A) i j :
  i < h → j < w →
  at2 (Grid h w (tabulate h w f)) i j = Some (f i j).
Proof.
  intros Hi Hj. unfold at2, tabulate. simpl.
  rewrite list_lookup_fmap, lookup_seq_lt by done. simpl.
  by rewrite list_lookup_fmap, lookup_seq_lt.
Qed.

Lemma wf_tabulate {A} h w (f : nat → nat → A) : wf (Grid h w (tabulate h w f)).
Proof.
  split; simpl; unfold tabulate.
  - by rewrite length_fmap, length_seq.
  - apply Forall_fmap, Forall_true. intros i. simpl.
    by rewrite length_fmap, length_seq.
Qed.

Lemma Qsum_fmap_scale (f : Q → Q) (k : Q) (qs : list Q) :
  (∀ q, f q == k * q)%Q → (Qsum (map f qs) == k * Qsum qs)%Q.
Proof.
  intros Hf. unfold Qsum.
  induction qs as [|q qs IH]; cbn [map foldr]; [ring|].
  rewrite IH, Hf. ring.
Qed.

Lemma Qsum_concat_fmap_scale (f : Q → Q) (k : Q) (ql : list (list Q)) :
  (∀ q, f q == k * q)%Q →
  (Qsum (concat (map (map f) ql)) == k * Qsum (concat ql))%Q.
Proof.
  intros Hf. induction ql as [|row ql IH]; cbn [map concat].
  - unfold Qsum. cbn [foldr]. ring.
  - rewrite !Qsum_app, IH, (Qsum_fmap_scale f k) by done. ring.
Qed.

Lemma Qsum_nonneg (qs : list Q) :
  Forall (fun q => (0 <= q)%Q) qs → (0 <= Qsum qs)%Q.
Proof.
  unfold Qsum. induction 1 as [|q qs Hq _ IH]; cbn [foldr]; lra.
Qed.

Lemma Qsum_ge_elem (qs : list Q) (x : Q) :
  Forall (fun q => (0 <= q)%Q) qs → x ∈ qs → (x <= Qsum qs)%Q.
Proof.
  intros Hall Hx. induction Hall as [|q qs Hq Hall IH]; [by inversion Hx|].
  apply elem_of_cons in Hx as [->|Hx].
  - pose proof (Qsum_nonneg qs Hall). unfold Qsum in *. cbn [foldr]. lra.
  - specialize (IH Hx). unfold Qsum in *. cbn [foldr]. lra.
Qed.

Lemma np_sum_Num s0 s1 (ql : list (list Q)) :
  np_sum (Grid s0 s1 (map (map Num) ql)) = Num (Qsum (concat ql)).
Proof.
  unfold np_sum, grid_flat. simpl. rewrite <- fsum_Num. f_equal.
  change (Num <$> ?l) with (map Num l). by rewrite concat_map.
Qed.

Lemma gaussian_total_pos (math_exp : Q → Q) (m : nat) (sigma : Q) :
  (∀ x, 0 <= math_exp x)%Q → (∀ x, x == 0 → 0 < math_exp x)%Q →
  ¬ (sigma == 0)%Q →
  (0 < gaussian_total math_exp m sigma)%Q.
Proof.
  intros Hnn H0 Hs. unfold gaussian_total.
  set (K := 2 * m + 1).
  apply Qlt_le_trans with (gaussian_weight math_exp m sigma m m).
  - unfold gaussian_weight. apply H0.
    replace (Z.of_nat m - Z.of_nat m)%Z with 0%Z by lia.
    change (inject_Z (0 ^ 2)) with 0%Q. field. exact Hs.
  - apply Qsum_ge_elem.
    + apply Forall_concat. unfold tabulate. apply Forall_fmap, Forall_true.
      intros i. simpl. apply Forall_fmap, Forall_true. intros j. simpl.
      apply Hnn.
    + apply list_elem_of_In, in_concat.
      exists (gaussian_weight math_exp m sigma m <$> seq 0 K). split.
      * apply list_elem_of_In. unfold tabulate.
        apply (list_elem_of_fmap_2 (fun i => gaussian_weight math_exp m sigma i <$> seq 0 K)).
        apply elem_of_seq. unfold K. lia.
      * apply list_elem_of_In. apply list_elem_of_fmap_2.
        apply elem_of_seq. unfold K. lia.
Qed.

(** The loops of the Gaussian filter fill the kernel with [k] times the
    Gaussian weights. *)
Lemma gaussian_cells_Ok (math_exp : Q → Q) (m : nat) (k sigma : Q) :
  ¬ (sigma == 0)%Q →
  gaussian_cells math_exp (Z.of_nat (2 * m + 1)) k sigma
    (Grid (2 * m + 1) (2 * m + 1)
       (replicate (2 * m + 1) (replicate (2 * m + 1) zero)))
  = Ok (Grid (2 * m + 1) (2 * m + 1)
          (map (map Num)
             (tabulate (2 * m + 1) (2 * m + 1)
                (fun i j => (k * gaussian_weight math_exp m sigma i j)%Q)))).
Proof.
  intros Hs. unfold gaussian_cells. rewrite half_odd.
  set (K := 2 * m + 1).
  assert (Hden : Qeq_bool (2 * (sigma * sigma)) 0 = false).
  { apply not_true_iff_false. intros H%Qeq_bool_iff. apply Hs.
    apply Qmult_integral in H. destruct H as [H|H]; [lra|].
    apply Qmult_integral in H. tauto. }
  rewrite Hden.
  set (val := fun row col : Z =>
     Num (k * gaussian_weight math_exp m sigma (Z.to_nat row) (Z.to_nat col))).
  set (acc := Grid K K _).
  destruct (fill_rows (fun row col => Ok (val row col)) val 0
              (range 0 (Z.of_nat K)) (range 0 (Z.of_nat K)) acc)
    as (out & Hout & Hwfo & Ho0 & Ho1 & Hat).
  { apply wf_replicate. }
  { intros row Hrow%elem_of_range. simpl. lia. }
  { intros col Hcol%elem_of_range. simpl. lia. }
  { done. }
  rewrite (for_each_ext _ _
    (fun row a =>
       for_each (range 0 (Z.of_nat K))
         (fun col b =>
            v ← Ok (val row col); setitem b (row - 0) (col - 0) v) a)).
  2: { intros row a Hrow%elem_of_range. apply for_each_ext.
       intros col b Hcol%elem_of_range. cbn [mbind result_bind].
       rewrite !Z.sub_0_r. unfold val, gaussian_weight.
       rewrite !Z2Nat.id by lia. done. }
  rewrite Hout. f_equal.
  destruct out as [o0 o1 oc]. simpl in *. subst o0 o1. f_equal.
  rewrite tabulate_fmap.
  apply (cells_tabulate (Grid K K oc)); [done|]. simpl.
  intros i j Hi Hj. rewrite Hat.
  rewrite bool_decide_eq_true_2 by (rewrite !elem_of_range; lia).
  unfold val. rewrite !Z.add_0_r, !Nat2Z.id. done.
Qed.

(** ** The filters of [generate_filter] *)




(** X6.  A Gaussian filter asked for without [k] or without [sigma]: the
    [KeyError] of the missing keyword is caught and raised again as a
    [KeyError] with the message of the filter generator. *)
Theorem generate_filter_gaussian_missing_argument (math_exp : Q → Q) (m : nat)
    (kwargs : gmap string Q) :
  kwargs !! "k" = None ∨ kwargs !! "sigma" = None →
  generate_filter math_exp GAUSSIAN_FILTER (Z.of_nat (2 * m + 1)) kwargs
  = Raise (KeyError missing_arguments_msg).
Proof.
  intros Hmiss. unfold generate_filter. rewrite odd_mod, !np_zeros_Ok.
  cbn [Z.eqb mbind result_bind].
  change (String.eqb GAUSSIAN_FILTER BOX_FILTER) with false.
  change (String.eqb GAUSSIAN_FILTER GAUSSIAN_FILTER) with true. cbn iota.
  destruct Hmiss as [-> | ->]; [done|]. by destruct (kwargs !! "k").
Qed.

Lemma generate_filter_gaussian_missing_argument_witness :
  generate_filter (fun x => x) GAUSSIAN_FILTER (Z.of_nat (2 * 1 + 1))
    (<["k" := 1%Q]> ∅)
  = Raise (KeyError missing_arguments_msg).
Proof.
  apply (generate_filter_gaussian_missing_argument (fun x => x) 1
           (<["k" := 1%Q]> ∅)).
  right. reflexivity.
Defined.

(** X7.  A Gaussian filter with [sigma = 0]: the exponent divides by
    [2 * sigma ** 2], and the [ZeroDivisionError] of that division is not
    what the [try] block of [generate_filter] catches, so it reaches the
    caller. *)
Theorem generate_filter_gaussian_sigma_zero (math_exp : Q → Q) (m : nat)
    (k sigma : Q) (kwargs : gmap string Q) :
  kwargs !! "k" = Some k → kwargs !! "sigma" = Some sigma → (sigma == 0)%Q →
  generate_filter math_exp GAUSSIAN_FILTER (Z.of_nat (2 * m + 1)) kwargs
  = Raise (ZeroDivisionError "float division by zero").
Proof.
  intros Hk Hs H0. unfold generate_filter. rewrite odd_mod, !np_zeros_Ok.
  cbn [Z.eqb mbind result_bind].
  change (String.eqb GAUSSIAN_FILTER BOX_FILTER) with false.
  change (String.eqb GAUSSIAN_FILTER GAUSSIAN_FILTER) with true. cbn iota.
  rewrite Hk, Hs. unfold gaussian_cells.
  assert (Hden : Qeq_bool (2 * (sigma * sigma)) 0 = true).
  { apply Qeq_bool_iff. rewrite H0. ring. }
  rewrite Hden.
  rewrite (range_cons 0 (Z.of_nat (2 * m + 1))) by lia. done.
Qed.

Lemma generate_filter_gaussian_sigma_zero_witness :
  generate_filter (fun x => x) GAUSSIAN_FILTER (Z.of_nat (2 * 1 + 1))
    (<["k" := 1%Q]> (<["sigma" := 0%Q]> ∅))
  = Raise (ZeroDivisionError "float division by zero").
Proof.
  apply (generate_filter_gaussian_sigma_zero (fun x => x) 1 1 0
           (<["k" := 1%Q]> (<["sigma" := 0%Q]> ∅))); reflexivity.
Defined.


Lemma flat_Forall (P : npfloat → Prop) (a : ndarray) :
  (∀ r c ch x, pixel a r c ch = Some x → P x) → Forall P (flat a).
Proof.
  intros H. destruct a as [g|g]; simpl.
  - unfold grid_flat. apply Forall_concat, at2_Forall.
    intros i j x Hx. apply (H i j 0). simpl. exact Hx.
  - apply Forall_concat, Forall_map, Forall_lookup. intros i row Hrow. simpl.
    apply Forall_concat, Forall_map, Forall_lookup. intros j p Hp. simpl.
    assert (Hat : at2 g i j = Some p) by (apply at2_Some; eauto).
    repeat constructor.
    + apply (H i j 0). simpl. by rewrite Hat.
    + apply (H i j 1). simpl. by rewrite Hat.
    + apply (H i j 2). simpl. by rewrite Hat.
Qed.

Lemma Forall_flat (P : npfloat → Prop) (a : ndarray) r c ch x :
  Forall P (flat a) → pixel a r c ch = Some x → P x.
Proof.
  destruct a as [g|g]; simpl.
  - unfold grid_flat. rewrite Forall_concat. intros Hall.
    destruct (ch =? 0)%nat; [|done].
    intros (row & Hrow & Hx)%at2_Some.
    rewrite Forall_lookup in Hall. specialize (Hall _ _ Hrow).
    rewrite Forall_lookup in Hall. by eapply Hall.
  - rewrite Forall_concat, Forall_map. intros Hall.
    destruct (at2 g r c) as [p|] eqn:Hp; [|done]. simpl. intros Hx.
    apply at2_Some in Hp as (row & Hrow & Hp).
    rewrite Forall_lookup in Hall. specialize (Hall _ _ Hrow). simpl in Hall.
    rewrite Forall_concat, Forall_map, Forall_lookup in Hall.
    specialize (Hall _ _ Hp). simpl in Hall.
    apply Forall_cons in Hall as [H1 Hall].
    apply Forall_cons in Hall as [H2 Hall].
    apply Forall_cons in Hall as [H3 _].
    destruct ch as [|[|[|?]]]; simpl in Hx; try done; by injection Hx as <-.
Qed.

(** What [convolution_2d] computes under zero padding, for a kernel of odd
    side at least 3: the pixel [(r, c)] of the result is the weighted sum
    of a window whose entry [(i, j)] is the pixel [(r + i - m, c + j - m)]
    of the image, or zero outside the image. *)
Lemma convolution_2d_zero_padding (img : ndarray) (kernel : grid npfloat)
    (m : nat) :
  ndarray_wf img → wf kernel → 0 < m →
  shape0 kernel = 2 * m + 1 → shape1 kernel = 2 * m + 1 →
  ∃ out,
    convolution_2d img kernel ZERO_PADDING "unchanged" = Ok out ∧
    like img out ∧
    ∀ r c ch, r < rows img → c < cols img → ch < channels img →
      ∃ s, wf s ∧ shape0 s = 2 * m + 1 ∧ shape1 s = 2 * m + 1 ∧
           pixel out r c ch = Some (dot s kernel) ∧
           ∀ i j, i < 2 * m + 1 → j < 2 * m + 1 →
             at2 s i j =
               if bool_decide (m ≤ r + i < m + rows img ∧
                               m ≤ c + j < m + cols img)
               then pixel img (r + i - m) (c + j - m) ch
               else Some zero.
Proof.
  intros Hwf Hk Hm Hk0 Hk1.
  destruct (convolution_2d_unchanged img kernel ZERO_PADDING m)
    as (p & out & Hpad & Hwfp & Hpr & Hpc & Hpch & Hconv & Hlike & Hpix);
    [done..|].
  destruct (pad_image_zero_positive img m Hwf Hm)
    as (p' & Hpad' & _ & _ & _ & _ & Hpp).
  rewrite Hpad in Hpad'. injection Hpad' as <-.
  exists out. split; [done|]. split; [done|].
  intros r c ch Hr Hc Hch.
  destruct (grid_slice_inside (plane ch p) r c (2 * m + 1) (2 * m + 1))
    as (Hws & Hs0 & Hs1 & Hat).
  { by apply plane_wf. }
  { rewrite plane_shape0. lia. }
  { rewrite plane_shape1. lia. }
  exists (window (plane ch p) (2 * m + 1) r c).
  split; [done|]. split; [done|]. split; [done|].
  split; [by apply Hpix|].
  intros i j Hi Hj. unfold window. rewrite Hat by done.
  rewrite <- pixel_plane by lia. by rewrite Hpp by lia.
Qed.

Lemma finite_grid (s : grid npfloat) :
  (∀ i j x, at2 s i j = Some x → finite x) →
  ∃ sq, cells s = map (map Num) sq.
Proof.
  intros H. apply finite_rows. by apply at2_Forall.
Qed.

Lemma at2_Num s0 s1 (sq : list (list Q)) i j :
  at2 (Grid s0 s1 (map (map Num) sq)) i j
  = Num <$> (row ← sq !! i; row !! j).
Proof.
  unfold at2. simpl. change (map (map Num) sq) with (map Num <$> sq).
  rewrite list_lookup_fmap. destruct (sq !! i) as [row|]; [|done]. simpl.
  change (map Num row) with (Num <$> row). by rewrite list_lookup_fmap.
Qed.

Lemma Qsum_zero (qs : list Q) :
  Forall (fun q => (q == 0)%Q) qs → (Qsum qs == 0)%Q.
Proof.
  unfold Qsum. induction 1 as [|q qs Hq _ IH]; cbn [foldr]; [done|].
  rewrite IH, Hq. ring.
Qed.

Lemma Qsum_zero_lookup (row : list Q) :
  (∀ j q, row !! j = Some q → (q == 0)%Q) → (Qsum row == 0)%Q.
Proof. intros H. apply Qsum_zero, Forall_lookup. exact H. Qed.

Lemma Qsum_single_row (x : Q) (row : list Q) (b : nat) :
  (∀ j q, row !! j = Some q →
     (q == if bool_decide (j = b) then x else 0)%Q) →
  is_Some (row !! b) → (Qsum row == x)%Q.
Proof.
  revert b. induction row as [|y row IHr]; intros b Hq [q Hqb]; [done|].
  unfold Qsum. cbn [foldr]. fold (Qsum row).
  pose proof (Hq 0 y eq_refl) as Hy.
  destruct b as [|b].
  - rewrite bool_decide_eq_true_2 in Hy by done.
    rewrite Hy, (Qsum_zero_lookup row); [ring|].
    intros j z Hz. specialize (Hq (S j) z Hz).
    by rewrite bool_decide_eq_false_2 in Hq by lia.
  - rewrite bool_decide_eq_false_2 in Hy by done.
    rewrite Hy, (IHr b); [ring| |by exists q].
    intros j z Hz. specialize (Hq (S j) z Hz).
    repeat case_bool_decide; try done; exfalso; lia.
Qed.

(** A sum in which only the term at [(a, b)] is not zero. *)
Lemma Qsum_single (ql : list (list Q)) (a b : nat) (x : Q) :
  (∀ i j q, (row ← ql !! i; row !! j) = Some q →
     (q == if bool_decide (i = a ∧ j = b) then x else 0)%Q) →
  is_Some (row ← ql !! a; row !! b) →
  (Qsum (concat ql) == x)%Q.
Proof.
  revert a. induction ql as [|row ql IH]; intros a Hq [q Hqa]; [done|].
  cbn [concat]. rewrite Qsum_app.
  destruct a as [|a].
  - assert (Hrest : (Qsum (concat ql) == 0)%Q).
    { apply Qsum_zero, Forall_concat, Forall_lookup. intros i r Hr.
      apply Forall_lookup. intros j y Hy.
      assert (Hl : (row' ← (row :: ql) !! S i; row' !! j) = Some y).
      { change ((row :: ql) !! S i) with (ql !! i). by rewrite Hr. }
      specialize (Hq (S i) j y Hl).
      by rewrite bool_decide_eq_false_2 in Hq by lia. }
    rewrite Hrest, (Qsum_single_row x row b); [ring| |by exists q].
    intros j z Hz. specialize (Hq 0 j z Hz).
    repeat case_bool_decide; try done; exfalso; tauto.
  - rewrite (Qsum_zero_lookup row), (IH a); [ring| |by exists q|].
    + intros i j z Hz. specialize (Hq (S i) j z Hz).
      repeat case_bool_decide; try done; exfalso; lia.
    + intros j z Hz. specialize (Hq 0 j z Hz).
      by rewrite bool_decide_eq_false_2 in Hq by lia.
Qed.

Lemma lookup2_zip_with {A B C} (f : A → B → C) (la : list (list A))
    (lb : list (list B)) i j :
  (row ← zip_with (zip_with f) la lb !! i; row !! j)
  = (x ← (row ← la !! i; row !! j); y ← (row ← lb !! i; row !! j);
     Some (f x y)).
Proof.
  rewrite lookup_zip_with.
  destruct (la !! i) as [ra|]; simpl; [|done].
  destruct (lb !! i) as [rb|]; simpl.
  - rewrite lookup_zip_with. destruct (ra !! j); simpl; [|done].
    by destruct (rb !! j).
  - by destruct (ra !! j).
Qed.

(** The weighted sum of a window of finite values under a kernel that is
    1 at [(a, b)] and 0 elsewhere is the value of the window at [(a, b)]. *)
Lemma dot_one_hot (s kernel : grid npfloat) (K a b : nat) (x : Q) :
  wf s → wf kernel →
  shape0 s = K → shape1 s = K → shape0 kernel = K → shape1 kernel = K →
  (∀ i j y, at2 s i j = Some y → finite y) →
  (∀ i j, i < K → j < K →
     at2 kernel i j
     = Some (Num (if bool_decide (i = a ∧ j = b) then 1 else 0))) →
  at2 s a b = Some (Num x) →
  feq (dot s kernel) (Num x).
Proof.
  intros Hws Hwk Hs0 Hs1 Hk0 Hk1 Hfin Hker Hx.
  destruct (finite_grid s Hfin) as [sq Hsq].
  destruct (finite_grid kernel) as [kq Hkq].
  { intros i j y Hy. destruct (at2_lt _ _ _ _ Hwk Hy) as [Hi Hj].
    rewrite Hker in Hy by lia. by injection Hy as <-. }
  destruct s as [s0 s1 sc], kernel as [k0 k1 kc]. simpl in *.
  subst s0 s1 k0 k1 sc kc.
  rewrite dot_Num. simpl.
  apply (Qsum_single _ a b).
  - intros i j q Hq. rewrite lookup2_zip_with in Hq.
    destruct (row ← sq !! i; row !! j) as [u|] eqn:Hu; [|done]. simpl in Hq.
    destruct (row ← kq !! i; row !! j) as [v|] eqn:Hv; [|done]. simpl in Hq.
    injection Hq as <-.
    assert (Hkat : at2 (Grid K K (map (map Num) kq)) i j = Some (Num v))
      by by rewrite at2_Num, Hv.
    destruct (at2_lt _ _ _ _ Hwk Hkat) as [Hi Hj]. simpl in Hi, Hj.
    rewrite Hker in Hkat by done. injection Hkat as <-.
    case_bool_decide as Hab; [|ring]. destruct Hab as [-> ->].
    rewrite at2_Num, Hu in Hx. injection Hx as ->. ring.
  - rewrite lookup2_zip_with.
    destruct (at2_lt _ _ _ _ Hws Hx) as [Ha Hb]. simpl in Ha, Hb.
    rewrite at2_Num in Hx.
    destruct (row ← sq !! a; row !! b) as [u|]; [|done]. simpl.
    pose proof (Hker a b Ha Hb) as Hk. rewrite at2_Num in Hk.
    destruct (row ← kq !! a; row !! b) as [v|]; [|done]. by eexists.
Qed.

(** ** Kernels with a single weight *)

(** X8.  [convolution_2d] does not flip the kernel (it computes a
    cross-correlation).  For a kernel of odd side [2m + 1 ≥ 3] that is 1
    at [(a, b)] and 0 elsewhere, the pixel [(r, c)] of the result is the
    pixel [(r + a - m, c + b - m)] of the image, and zero where that lies
    outside the image. *)
Theorem convolution_2d_one_hot (img : ndarray) (kernel : grid npfloat)
    (m a b : nat) :
  ndarray_wf img → ndarray_finite img → wf kernel → 0 < m →
  shape0 kernel = 2 * m + 1 → shape1 kernel = 2 * m + 1 →
  a < 2 * m + 1 → b < 2 * m + 1 →
  (∀ i j, i < 2 * m + 1 → j < 2 * m + 1 →
     at2 kernel i j
     = Some (Num (if bool_decide (i = a ∧ j = b) then 1 else 0))) →
  ∃ out,
    convolution_2d img kernel ZERO_PADDING "unchanged" = Ok out ∧
    like img out ∧
    ∀ r c ch, r < rows img → c < cols img → ch < channels img →
      ∃ y, pixel out r c ch = Some y ∧
           if bool_decide (m ≤ r + a < m + rows img ∧
                           m ≤ c + b < m + cols img)
           then ∃ x, pixel img (r + a - m) (c + b - m) ch = Some x ∧ feq y x
           else feq y (Num 0).
Proof.
  intros Hwf Hfin Hk Hm Hk0 Hk1 Ha Hb Hker.
  destruct (convolution_2d_zero_padding img kernel m)
    as (out & Hconv & Hlike & Hpix); [done..|].
  exists out. split; [done|]. split; [done|].
  intros r c ch Hr Hc Hch.
  destruct (Hpix r c ch Hr Hc Hch) as (s & Hws & Hs0 & Hs1 & Hout & Hat).
  exists (dot s kernel). split; [done|].
  assert (Hsfin : ∀ i j y, at2 s i j = Some y → finite y).
  { intros i j y Hy. destruct (at2_lt _ _ _ _ Hws Hy) as [Hi Hj].
    rewrite Hat in Hy by lia. case_bool_decide.
    - by eapply pixel_finite.
    - by injection Hy as <-. }
  destruct (at2_is_Some s a b Hws) as [x Hx]; [lia..|].
  pose proof (Hsfin _ _ _ Hx) as Hxfin.
  destruct x as [x| | |]; try done.
  pose proof (dot_one_hot s kernel (2 * m + 1) a b x Hws Hk Hs0 Hs1 Hk0 Hk1
                Hsfin Hker Hx) as Hdot.
  rewrite Hat in Hx by done.
  case_bool_decide.
  - exists (Num x). done.
  - unfold zero in Hx. injection Hx as <-. done.
Qed.

Lemma convolution_2d_one_hot_witness :
  ∃ out,
    convolution_2d gray12 (kernel3 1 0 0 0 0 0 0 0 0) ZERO_PADDING "unchanged"
      = Ok out ∧
    like gray12 out ∧
    ∀ r c ch, r < rows gray12 → c < cols gray12 → ch < channels gray12 →
      ∃ y, pixel out r c ch = Some y ∧
           if bool_decide (1 ≤ r + 0 < 1 + rows gray12 ∧
                           1 ≤ c + 0 < 1 + cols gray12)
           then ∃ x, pixel gray12 (r + 0 - 1) (c + 0 - 1) ch = Some x ∧ feq y x
           else feq y (Num 0).
Proof.
  apply (convolution_2d_one_hot gray12 (kernel3 1 0 0 0 0 0 0 0 0) 1 0 0).
  - split; [reflexivity|]. by repeat constructor.
  - by repeat constructor.
  - split; [reflexivity|]. by repeat constructor.
  - lia.
  - reflexivity.
  - reflexivity.
  - lia.
  - lia.
  - intros i j Hi Hj.
    destruct i as [|[|[|i]]], j as [|[|[|j]]]; try lia; reflexivity.
Defined.

(** The kernel that is 1 at its centre and 0 elsewhere is the identity of
    [convolution_2d]: the result is the image. *)
Theorem convolution_2d_identity_kernel (img : ndarray) (kernel : grid npfloat)
    (m : nat) :
  ndarray_wf img → ndarray_finite img → wf kernel → 0 < m →
  shape0 kernel = 2 * m + 1 → shape1 kernel = 2 * m + 1 →
  (∀ i j, i < 2 * m + 1 → j < 2 * m + 1 →
     at2 kernel i j
     = Some (Num (if bool_decide (i = m ∧ j = m) then 1 else 0))) →
  ∃ out,
    convolution_2d img kernel ZERO_PADDING "unchanged" = Ok out ∧
    like img out ∧
    ∀ r c ch x, pixel img r c ch = Some x →
      ∃ y, pixel out r c ch = Some y ∧ feq y x.
Proof.
  intros Hwf Hfin Hk Hm Hk0 Hk1 Hker.
  destruct (convolution_2d_zero_padding img kernel m)
    as (out & Hconv & Hlike & Hpix); [done..|].
  exists out. split; [done|]. split; [done|].
  intros r c ch x Hx.
  destruct (pixel_lt img r c ch x Hwf Hx) as (Hr & Hc & Hch).
  destruct (Hpix r c ch Hr Hc Hch) as (s & Hws & Hs0 & Hs1 & Hout & Hat).
  exists (dot s kernel). split; [done|].
  assert (Hsfin : ∀ i j y, at2 s i j = Some y → finite y).
  { intros i j y Hy. destruct (at2_lt _ _ _ _ Hws Hy) as [Hi Hj].
    rewrite Hat in Hy by lia. case_bool_decide.
    - by eapply pixel_finite.
    - by injection Hy as <-. }
  pose proof (pixel_finite _ _ _ _ _ Hfin Hx) as Hxfin.
  destruct x as [x| | |]; try done.
  apply (dot_one_hot s kernel (2 * m + 1) m m x); try done.
  rewrite Hat by lia. rewrite bool_decide_eq_true_2 by lia.
  by replace (r + m - m) with r by lia; replace (c + m - m) with c by lia.
Qed.

Lemma convolution_2d_identity_kernel_witness :
  ∃ out,
    convolution_2d gray12 (kernel3 0 0 0 0 1 0 0 0 0) ZERO_PADDING "unchanged"
      = Ok out ∧
    like gray12 out ∧
    ∀ r c ch x, pixel gray12 r c ch = Some x →
      ∃ y, pixel out r c ch = Some y ∧ feq y x.
Proof.
  apply (convolution_2d_identity_kernel gray12 (kernel3 0 0 0 0 1 0 0 0 0) 1).
  - split; [reflexivity|]. by repeat constructor.
  - by repeat constructor.
  - split; [reflexivity|]. by repeat constructor.
  - lia.
  - reflexivity.
  - reflexivity.
  - intros i j Hi Hj.
    destruct i as [|[|[|i]]], j as [|[|[|j]]]; try lia; reflexivity.
Defined.


Lemma in_unit_finite x : in_unit x → finite x.
Proof. by destruct x. Qed.

Lemma nonneg_finite x : nonneg x → finite x.
Proof. by destruct x. Qed.

Lemma Qsum_zip_bounds (a b : list Q) :
  Forall (fun q => (0 <= q <= 1)%Q) a → Forall (fun q => (0 <= q)%Q) b →
  (0 <= Qsum (zip_with Qmult a b) <= Qsum b)%Q.
Proof.
  intros Ha. revert b. unfold Qsum.
  induction Ha as [|x a Hx _ IH]; intros b Hb.
  - cbn [zip_with foldr]. split; [lra|]. by apply Qsum_nonneg.
  - destruct Hb as [|y b Hy Hb]; cbn [zip_with foldr]; [lra|].
    specialize (IH b Hb). nra.
Qed.

Lemma Qsum_rows_bounds (sq kq : list (list Q)) :
  Forall (Forall (fun q => (0 <= q <= 1)%Q)) sq →
  Forall (Forall (fun q => (0 <= q)%Q)) kq →
  (0 <= Qsum (concat (zip_with (zip_with Qmult) sq kq)) <= Qsum (concat kq))%Q.
Proof.
  intros Hs. revert kq.
  induction Hs as [|a sq Ha _ IH]; intros kq Hk.
  - cbn [zip_with concat]. split; [unfold Qsum; simpl; lra|].
    apply Qsum_nonneg. by apply Forall_concat.
  - destruct Hk as [|b kq Hb Hk]; cbn [zip_with concat].
    { unfold Qsum. simpl. lra. }
    rewrite !Qsum_app. specialize (IH kq Hk).
    pose proof (Qsum_zip_bounds a b Ha Hb). lra.
Qed.

(** ** Smoothing kernels keep the range of the image *)



(** ** A kernel with one weight *)

(** X10.  A 1 × 1 kernel makes [convolution_2d] pad by 0, and the padding then
    assigns the image to an empty slice: on every image with more than one
    row or more than one column the call fails with [ValueError], whatever
    the normalization. *)
Theorem convolution_2d_1x1_kernel (img : ndarray) (kernel : grid npfloat)
    (normalization_method : string) :
  shape0 kernel = 1 → shape1 kernel = 1 → 1 < rows img ∨ 1 < cols img →
  convolution_2d img kernel ZERO_PADDING normalization_method
  = Raise (ValueError "could not broadcast input array").
Proof.
  intros Hk0 Hk1 Hbig.
  unfold convolution_2d, convolve_image, convolve. rewrite Hk0, Hk1.
  change (Z.of_nat 1 / 2)%Z with 0%Z. cbn [Nat.eqb negb].
  destruct img as [g|g]; simpl in Hbig; rewrite pad_grid_zero_margin;
    unfold broadcasts_to;
    destruct (Nat.eqb_spec (shape0 g) 0), (Nat.eqb_spec (shape0 g) 1),
             (Nat.eqb_spec (shape1 g) 0), (Nat.eqb_spec (shape1 g) 1);
    simpl; try done; exfalso; lia.
Qed.

Lemma convolution_2d_1x1_kernel_witness :
  convolution_2d gray12 (Grid 1 1 [[Num 1]]) ZERO_PADDING "unchanged"
  = Raise (ValueError "could not broadcast input array").
Proof.
  apply (convolution_2d_1x1_kernel gray12 (Grid 1 1 [[Num 1]]) "unchanged").
  - reflexivity.
  - reflexivity.
  - right. simpl. lia.
Defined.

(** ** A filter type that [generate_filter] does not know *)

Lemma dot_zero_kernel (s : grid npfloat) (K : nat) :
  (∀ i j y, at2 s i j = Some y → finite y) →
  feq (dot s (Grid K K (replicate K (replicate K zero)))) (Num 0).
Proof.
  intros Hfin. destruct (finite_grid s Hfin) as [sq Hsq].
  destruct s as [s0 s1 sc]. simpl in *. subst sc.
  assert (Hz : replicate K (replicate K zero)
               = map (map Num) (replicate K (replicate K 0%Q))).
  { change (map ?f ?l) with (f <$> l). rewrite fmap_replicate. f_equal.
    change (map ?f ?l) with (f <$> l). by rewrite fmap_replicate. }
  rewrite Hz, dot_Num. simpl.
  apply Qsum_zero, Forall_concat, Forall_lookup. intros i row Hrow.
  apply Forall_lookup. intros j q Hq.
  assert (Hl : (row' ← zip_with (zip_with Qmult) sq
                         (replicate K (replicate K 0%Q)) !! i; row' !! j)
               = Some q) by by rewrite Hrow.
  rewrite lookup2_zip_with in Hl.
  destruct (row' ← sq !! i; row' !! j) as [u|]; [|done]. simpl in Hl.
  destruct (replicate K (replicate K 0%Q) !! i) as [zr|] eqn:Hzr; [|done].
  apply lookup_replicate in Hzr as [-> _]. simpl in Hl.
  destruct (replicate K 0%Q !! j) as [z|] eqn:Hzj; [|done].
  apply lookup_replicate in Hzj as [-> _]. simpl in Hl.
  injection Hl as <-. ring.
Qed.

(** X11.  A filter type other than the box and the Gaussian one is no error:
    [generate_filter] returns the all-zero kernel it started from, and a
    convolution with that kernel blanks the image. *)
Theorem generate_filter_unknown_type (math_exp : Q → Q) (filter_type : string)
    (m : nat) (kwargs : gmap string Q) (img : ndarray) :
  filter_type ≠ BOX_FILTER → filter_type ≠ GAUSSIAN_FILTER →
  0 < m → ndarray_wf img → ndarray_finite img →
  ∃ kernel out,
    generate_filter math_exp filter_type (Z.of_nat (2 * m + 1)) kwargs
      = Ok kernel ∧
    shape0 kernel = 2 * m + 1 ∧ shape1 kernel = 2 * m + 1 ∧
    Forall (fun w => w = Num 0) (grid_flat kernel) ∧
    convolution_2d img kernel ZERO_PADDING "unchanged" = Ok out ∧
    like img out ∧ Forall (fun y => feq y (Num 0)) (flat out).
Proof.
  intros Hbox Hgauss Hm Hwf Hfin.
  unfold generate_filter. rewrite odd_mod.
  cbn [Z.eqb mbind result_bind].
  apply String.eqb_neq in Hbox, Hgauss. rewrite Hbox, Hgauss.
  set (K := 2 * m + 1).
  set (kernel := Grid K K (replicate K (replicate K zero))).
  destruct (convolution_2d_zero_padding img kernel m)
    as (out & Hconv & Hlike & Hpix); [done|apply wf_replicate|done..|].
  exists kernel, out. split_and!; try done.
  - by rewrite np_zeros_Ok.
  - unfold grid_flat. simpl. apply Forall_concat, Forall_replicate.
    by apply Forall_replicate.
  - apply flat_Forall. intros r c ch y Hy.
    destruct (pixel_lt out r c ch y (like_wf _ _ Hlike) Hy) as (Hr & Hc & Hch).
    destruct Hlike as (_ & Hr' & Hc' & Hch').
    rewrite Hr' in Hr. rewrite Hc' in Hc. rewrite Hch' in Hch.
    destruct (Hpix r c ch Hr Hc Hch) as (s & Hws & Hs0 & Hs1 & Hout & Hat).
    rewrite Hy in Hout. injection Hout as ->.
    apply dot_zero_kernel. intros i j x Hx.
    destruct (at2_lt _ _ _ _ Hws Hx) as [Hi Hj].
    rewrite Hat in Hx by lia. case_bool_decide.
    + by eapply pixel_finite.
    + by injection Hx as <-.
Qed.

Lemma generate_filter_unknown_type_witness :
  ∃ kernel out,
    generate_filter (fun x => x) "median" (Z.of_nat (2 * 1 + 1)) ∅
      = Ok kernel ∧
    shape0 kernel = 2 * 1 + 1 ∧ shape1 kernel = 2 * 1 + 1 ∧
    Forall (fun w => w = Num 0) (grid_flat kernel) ∧
    convolution_2d gray12 kernel ZERO_PADDING "unchanged" = Ok out ∧
    like gray12 out ∧ Forall (fun y => feq y (Num 0)) (flat out).
Proof.
  apply (generate_filter_unknown_type (fun x => x) "median" 1 ∅ gray12).
  - done.
  - done.
  - lia.
  - split; [reflexivity|]. by repeat constructor.
  - by repeat constructor.
Defined.


(** ** Normalization *)

Lemma cutoff_Num (q : Q) :
  cutoff (Num q)
  = if Qltb 1 q then Num 1 else if Qltb q 0 then Num 0 else Num q.
Proof.
  unfold cutoff, fgt. cbn [flt]. destruct (Qltb 1 q); [reflexivity|].
  cbn [flt]. by destruct (Qltb q 0).
Qed.

Lemma cutoff_cases (x : npfloat) :
  (cutoff x = NaN ∨ in_unit (cutoff x)) ∧ cutoff (cutoff x) = cutoff x ∧
  (in_unit x → cutoff x = x).
Proof.
  destruct x as [q| | |].
  - rewrite cutoff_Num.
    destruct (Qltb 1 q) eqn:H1.
    { apply Qltb_true in H1. split_and!; [right; simpl; lra|reflexivity|].
      simpl. lra. }
    apply Qltb_false in H1. destruct (Qltb q 0) eqn:H0.
    { apply Qltb_true in H0. split_and!; [right; simpl; lra|reflexivity|].
      simpl. lra. }
    apply Qltb_false in H0. split_and!; [right; simpl; lra| |done].
    rewrite cutoff_Num.
    replace (Qltb 1 q) with false by (symmetry; by apply Qltb_false).
    by replace (Qltb q 0) with false by (symmetry; by apply Qltb_false).
  - split_and!; [right; vm_compute; split; discriminate|reflexivity|done].
  - split_and!; [right; vm_compute; split; discriminate|reflexivity|done].
  - split_and!; [by left|reflexivity|done].
Qed.

(** X12.  The "cutoff" normalization clamps every pixel to [0, 1]: the result
    has the shape of the image, each of its pixels is in [0, 1] or is the
    [NaN] the image had there, a pixel that was in [0, 1] keeps its value,
    and normalizing the result again changes nothing. *)
Theorem image_normalization_cutoff (image : ndarray) :
  ∃ out,
    image_normalization image "cutoff" = Ok out ∧
    shape out = shape image ∧
    Forall (fun y => y = NaN ∨ in_unit y) (flat out) ∧
    (∀ r c ch x, pixel image r c ch = Some x → in_unit x →
       pixel out r c ch = Some x) ∧
    image_normalization out "cutoff" = Ok out.
Proof.
  exists (ndarray_map cutoff image). split; [reflexivity|].
  split; [apply shape_ndarray_map|]. split_and!.
  - rewrite flat_ndarray_map. apply Forall_fmap, Forall_true.
    intros x. simpl. by destruct (cutoff_cases x) as (H1 & _ & _).
  - intros r c ch x Hx Hu. rewrite pixel_ndarray_map, Hx. simpl.
    f_equal. destruct (cutoff_cases x) as (_ & _ & H3). by apply H3.
  - change (image_normalization (ndarray_map cutoff image) "cutoff")
      with (Ok (ndarray_map cutoff (ndarray_map cutoff image))).
    f_equal. rewrite ndarray_map_compose.
    rewrite <- (ndarray_map_ext (cutoff ∘ cutoff) cutoff); [done|].
    apply Forall_true. intros x. simpl.
    by destruct (cutoff_cases x) as (_ & H2 & _).
Qed.

Lemma foldl_fminimum_Num_le (qs : list Q) (a : Q) :
  ∃ c, foldl fminimum (Num a) (Num <$> qs) = Num c ∧ (c <= a)%Q ∧
       Forall (fun q => (c <= q)%Q) qs ∧
       ((c == a)%Q ∨ Exists (fun q => (c == q)%Q) qs).
Proof.
  revert a. induction qs as [|q qs IH]; intros a.
  - exists a. split_and!; try done; [lra | by left].
  - rewrite fmap_cons. cbn [foldl].
    assert (Hmin : ∃ a', fminimum (Num a) (Num q) = Num a' ∧ (a' <= a)%Q ∧
                         (a' <= q)%Q ∧ (a' == a ∨ a' == q)%Q).
    { simpl. destruct (Qle_bool a q) eqn:Hle.
      - apply Qle_bool_iff in Hle. exists a. split; [done|]. lra.
      - apply Qle_bool_false in Hle. exists q. split; [done|]. lra. }
    destruct Hmin as (a' & -> & Ha & Hq & Hor).
    destruct (IH a') as (c & -> & Hc & Hall & Horc).
    exists c. split_and!; try done; [lra| |].
    + constructor; [lra|done].
    + destruct Horc as [Hc'|Hex]; [|right; by right].
      destruct Hor as [Hor|Hor]; [left; lra|right; left; lra].
Qed.

Lemma np_min_Num (q : Q) (qs : list Q) :
  ∃ c, np_min (Num <$> (q :: qs)) = Ok (Num c) ∧
       Forall (fun q => (c <= q)%Q) (q :: qs) ∧
       Exists (fun q => (c == q)%Q) (q :: qs).
Proof.
  rewrite fmap_cons. cbn [np_min].
  destruct (foldl_fminimum_Num_le qs q) as (c & -> & Hc & Hall & Hor).
  exists c. split_and!; try done.
  - by constructor.
  - destruct Hor as [Hor|Hor]; [by left|by right].
Qed.

Lemma Qunit_fraction (d n : Q) :
  (0 < d)%Q → (0 <= n <= d)%Q → (0 <= 1 / d * n <= 1)%Q.
Proof.
  intros Hd [H0 H1].
  assert (Heq : (1 / d * n == n / d)%Q) by (field; lra).
  rewrite Heq. split.
  - apply Qle_shift_div_l; [done|]. lra.
  - apply Qle_shift_div_r; [done|]. lra.
Qed.



Lemma flat_empty (image : ndarray) :
  ndarray_wf image → rows image = 0 ∨ cols image = 0 → flat image = [].
Proof.
  assert (Hconcat : ∀ A (l : list (list A)),
            Forall (fun row => row = []) l → concat l = []).
  { intros A l. induction 1 as [|row l -> _ IH]; [done|]. done. }
  intros Hwf Hempty. destruct image as [g|g]; simpl in *;
    destruct Hwf as [Hlen Hrows].
  - unfold grid_flat. apply Hconcat.
    destruct Hempty as [H0|H0].
    + rewrite H0 in Hlen. apply nil_length_inv in Hlen. rewrite Hlen. done.
    + eapply Forall_impl; [exact Hrows|]. intros row Hrow. simpl in Hrow.
      rewrite H0 in Hrow. by apply nil_length_inv.
  - apply Hconcat, Forall_map.
    destruct Hempty as [H0|H0].
    + rewrite H0 in Hlen. apply nil_length_inv in Hlen. rewrite Hlen. done.
    + eapply Forall_impl; [exact Hrows|]. intros row Hrow. simpl in Hrow.
      rewrite H0 in Hrow. apply nil_length_inv in Hrow. by rewrite Hrow.
Qed.

(** An image without pixels cannot be stretched: [np.max] of an array of
    size zero raises [ValueError], while the other normalization methods
    return the empty image. *)
Theorem contrast_stretching_empty (image : ndarray)
    (normalization_method : string) :
  ndarray_wf image → rows image = 0 ∨ cols image = 0 →
  image_normalization image normalization_method
  = if String.eqb normalization_method "stretch"
    then Raise (ValueError
           "zero-size array to reduction operation maximum which has no identity")
    else Ok image.
Proof.
  intros Hwf Hempty. pose proof (flat_empty image Hwf Hempty) as Hflat.
  unfold image_normalization, contrast_stretching.
  destruct (String.eqb normalization_method "unchanged") eqn:Hu.
  { apply String.eqb_eq in Hu as ->. done. }
  destruct (String.eqb normalization_method "stretch"); [by rewrite Hflat|].
  destruct (String.eqb normalization_method "cutoff"); [|done].
  f_equal. destruct image as [g|g]; simpl in *; unfold grid_map; f_equal.
  - destruct g as [s0 s1 l]. simpl in *. f_equal.
    destruct Hwf as [Hlen Hrows]. simpl in *.
    destruct Hempty as [H0|H0].
    + rewrite H0 in Hlen. apply nil_length_inv in Hlen. by rewrite Hlen.
    + rewrite <- (map_id l) at 2. apply map_ext_Forall.
      eapply Forall_impl; [exact Hrows|]. intros row Hrow. simpl in Hrow.
      rewrite H0 in Hrow. apply nil_length_inv in Hrow. by rewrite Hrow.
  - destruct g as [s0 s1 l]. simpl in *. f_equal.
    destruct Hwf as [Hlen Hrows]. simpl in *.
    destruct Hempty as [H0|H0].
    + rewrite H0 in Hlen. apply nil_length_inv in Hlen. by rewrite Hlen.
    + rewrite <- (map_id l) at 2. apply map_ext_Forall.
      eapply Forall_impl; [exact Hrows|]. intros row Hrow. simpl in Hrow.
      rewrite H0 in Hrow. apply nil_length_inv in Hrow. by rewrite Hrow.
Qed.

Lemma contrast_stretching_empty_witness :
  image_normalization (Gray (Grid 0 3 [])) "stretch"
  = if String.eqb "stretch" "stretch"
    then Raise (ValueError
           "zero-size array to reduction operation maximum which has no identity")
    else Ok (Gray (Grid 0 3 [])).
Proof.
  apply (contrast_stretching_empty (Gray (Grid 0 3 [])) "stretch").
  - split; [reflexivity|]. constructor.
  - left. reflexivity.
Defined.

(** ** Thresholding twice *)

(** X14.  A binary image is a fixed point of [thresholding] for every threshold
    in [0, 1): thresholding the result of [thresholding] again gives the
    same image. *)
Theorem thresholding_idempotent (image : ndarray) (t : npfloat) (s : Q) :
  (0 <= s < 1)%Q →
  thresholding (thresholding image t) (Num s) = thresholding image t.
Proof.
  intros Hs. unfold thresholding. rewrite ndarray_map_compose.
  apply ndarray_map_ext, Forall_true. intros x. simpl.
  unfold fgt. destruct (flt t x); simpl; f_equal.
  - replace (Qltb s 1) with true; [done|]. symmetry. apply Qltb_true. lra.
  - replace (Qltb s 0) with false; [done|]. symmetry. apply Qltb_false. lra.
Qed.

Lemma thresholding_idempotent_witness :
  thresholding (thresholding gray4 (Num (1 # 2))) (Num (1 # 2))
  = thresholding gray4 (Num (1 # 2)).
Proof.
  apply (thresholding_idempotent gray4 (Num (1 # 2)) (1 # 2)). lra.
Defined.

(** ** Grayscale conversion *)




(** ** The "cutoff" normalization writes into its argument *)

(** X16.  Under "cutoff" [image_normalization] makes no new array: it returns
    the address it was given, the array at that address has been clamped
    in place, and every other array of the store is as it was. *)
Theorem image_normalization_cutoff_in_place (h : Heap.state) (l : Heap.loc)
    (a : ndarray) :
  h !! l = Some a →
  ∃ h', Heap.image_normalization l "cutoff" h = (Ok l, h') ∧
        length h' = length h ∧
        h' !! l = Some (ndarray_map cutoff a) ∧
        ∀ l', l' ≠ l → h' !! l' = h !! l'.
Proof.
  intros Hl. rewrite (heap_image_normalization_cutoff h l a Hl).
  pose proof (lookup_lt_Some _ _ _ Hl) as Hlt.
  eexists. split; [reflexivity|]. split_and!.
  - apply length_insert.
  - by apply list_lookup_insert_eq.
  - intros l' Hne. by apply list_lookup_insert_ne.
Qed.

Lemma image_normalization_cutoff_in_place_witness :
  ∃ h', Heap.image_normalization 0 "cutoff" [gray12] = (Ok 0, h') ∧
        length h' = length [gray12] ∧
        h' !! 0 = Some (ndarray_map cutoff gray12) ∧
        ∀ l', l' ≠ 0 → h' !! l' = [gray12] !! l'.
Proof.
  apply (image_normalization_cutoff_in_place [gray12] 0 gray12). reflexivity.
Defined.

(** ** Global thresholding that never stops *)

Lemma fsum_zero (l : list npfloat) :
  Forall (fun x => ∃ q, x = Num q ∧ (q == 0)%Q) l →
  ∃ q, fsum l = Num q ∧ (q == 0)%Q.
Proof.
  induction 1 as [|x l (q & -> & Hq) _ (s & Hs & Hs0)].
  - by exists 0%Q.
  - exists (q + s)%Q. unfold fsum in *. cbn [foldr]. rewrite Hs.
    split; [done|]. lra.
Qed.

Lemma np_sum_grid_map_zero (f : npfloat → npfloat) (g : grid npfloat) :
  Forall (fun x => ∃ q, f x = Num q ∧ (q == 0)%Q) (grid_flat g) →
  ∃ q, np_sum (grid_map f g) = Num q ∧ (q == 0)%Q.
Proof.
  intros H. unfold np_sum. apply fsum_zero.
  unfold grid_flat, grid_map in *. simpl. rewrite <- concat_map.
  apply Forall_map. exact H.
Qed.

Lemma fdiv_zero_zero (a b : Q) :
  (a == 0)%Q → (b == 0)%Q → fdiv (Num a) (Num b) = NaN.
Proof.
  intros Ha Hb. simpl.
  rewrite (proj2 (Qeq_bool_iff b 0) Hb), (proj2 (Qeq_bool_iff a 0) Ha). done.
Qed.

(** When no pixel is above the threshold the mean of the pixels above is
    [0 / 0], and the new threshold is [NaN]. *)
Lemma new_threshold_none_above (g : grid npfloat) (T : npfloat) :
  Forall finite (grid_flat g) →
  Forall (fun x => fgt x T = false) (grid_flat g) →
  new_threshold g T = NaN.
Proof.
  intros Hfin Hnone. unfold new_threshold.
  assert (Hcount : count_above g T = 0).
  { unfold count_above. apply length_zero_iff_nil.
    induction Hnone as [|x l Hx _ IH]; [done|].
    apply Forall_cons in Hfin as [_ Hfin]. cbn [filter list_filter].
    rewrite decide_False by (rewrite Hx; done). by apply IH. }
  rewrite Hcount.
  destruct (np_sum_grid_map_zero
              (fun x => fmul (of_bool (fgt x T)) x) g) as (s & -> & Hs).
  { rewrite Forall_forall in Hfin. rewrite Forall_forall in Hnone.
    apply Forall_forall. intros x Hx.
    specialize (Hfin x Hx). specialize (Hnone x Hx).
    destruct x as [q| | |]; try done. rewrite Hnone. simpl.
    eexists. split; [reflexivity|]. ring. }
  rewrite fdiv_zero_zero by done. done.
Qed.

Lemma length_grid_flat (g : grid npfloat) :
  wf g → length (grid_flat g) = shape0 g * shape1 g.
Proof.
  intros [Hlen Hrows]. unfold grid_flat. rewrite <- Hlen. clear Hlen.
  induction Hrows as [|row l Hrow _ IH]; [done|].
  cbn [concat]. rewrite length_app, IH, Hrow. simpl. lia.
Qed.

(** When every pixel is above the threshold the mean of the pixels below
    is [0 / 0], and the new threshold is [NaN]. *)
Lemma new_threshold_all_above (g : grid npfloat) (T : npfloat) :
  wf g → Forall finite (grid_flat g) →
  Forall (fun x => fgt x T = true) (grid_flat g) →
  new_threshold g T = NaN.
Proof.
  intros Hwf Hfin Hall. unfold new_threshold.
  assert (Hcount : count_above g T = shape0 g * shape1 g).
  { unfold count_above. rewrite <- (length_grid_flat g Hwf).
    f_equal. clear Hfin.
    induction Hall as [|x l Hx _ IH]; [done|]. cbn [filter list_filter].
    rewrite decide_True by done. by f_equal. }
  rewrite Hcount, Z.sub_diag.
  destruct (np_sum_grid_map_zero
              (fun x => fsub x (fmul (of_bool (fgt x T)) x)) g)
    as (s & -> & Hs).
  { rewrite Forall_forall in Hfin. rewrite Forall_forall in Hall.
    apply Forall_forall. intros x Hx.
    specialize (Hfin x Hx). specialize (Hall x Hx).
    destruct x as [q| | |]; try done. rewrite Hall. simpl.
    eexists. split; [reflexivity|]. ring. }
  rewrite (fdiv_zero_zero s (inject_Z 0)) by done.
  by destruct (fdiv _ _).
Qed.

(** Once the threshold is [NaN] it stays [NaN] and the stopping test is
    never passed. *)
Lemma global_threshold_search_NaN (fuel : nat) (g : grid npfloat)
    (delta_t : npfloat) (thresholds : list npfloat) :
  Forall finite (grid_flat g) →
  global_threshold_search fuel g NaN delta_t thresholds = None.
Proof.
  intros Hfin. revert thresholds.
  induction fuel as [|fuel IH]; intros thresholds; [done|].
  cbn [global_threshold_search].
  rewrite new_threshold_none_above; [|done|by apply Forall_true].
  cbn. apply IH.
Qed.




(** ** Flat regions *)

(** The weighted sum of a window whose values are all [v]: [v] times the
    sum of the weights. *)
Lemma dot_constant_window (s kernel : grid npfloat) (v : Q) :
  wf s → wf kernel →
  shape0 s = shape0 kernel → shape1 s = shape1 kernel →
  (∀ i j x, at2 s i j = Some x → feq x (Num v)) →
  Forall finite (grid_flat kernel) →
  ∃ S, np_sum kernel = Num S ∧ feq (dot s kernel) (Num (v * S)).
Proof.
  intros Hws Hwk H0 H1 Hconst Hkfin.
  assert (Hsv : Forall (Forall (fun x => feq x (Num v))) (cells s))
    by by apply at2_Forall.
  destruct (finite_rows (cells s)) as [sq Hsq].
  { eapply Forall_impl; [exact Hsv|]. intros row Hrow.
    eapply Forall_impl; [exact Hrow|]. by intros [| | |]. }
  unfold grid_flat in Hkfin. rewrite Forall_concat in Hkfin.
  destruct (finite_rows _ Hkfin) as [kq Hkq].
  destruct s as [s0 s1 sc], kernel as [k0 k1 kc]. simpl in *. subst sc kc.
  rewrite np_sum_Num, dot_Num. eexists. split; [reflexivity|]. simpl.
  apply Qsum_rows_const.
  - rewrite Forall_map in Hsv. eapply Forall_impl; [exact Hsv|].
    intros row Hrow. simpl in Hrow. by rewrite Forall_map in Hrow.
  - destruct Hws as [Hl Hrows]. destruct Hwk as [Hkl Hkrows]. simpl in *.
    rewrite length_map in Hl, Hkl.
    rewrite Forall_map in Hrows. rewrite Forall_map in Hkrows.
    apply Forall2_same_length_lookup_2; [congruence|].
    intros i a b Ha Hb.
    rewrite Forall_lookup in Hrows. rewrite Forall_lookup in Hkrows.
    specialize (Hrows _ _ Ha). specialize (Hkrows _ _ Hb). simpl in *.
    rewrite length_map in Hrows, Hkrows. congruence.
Qed.

(** The 3 × 3 window of the zero-padded image at an interior pixel whose
    neighbourhood is constant. *)
Lemma flat_window (img p : ndarray) (r c ch : nat) (v : Q) :
  ndarray_wf img → pad_image img ZERO_PADDING 1 = Ok p →
  1 ≤ r → r + 1 < rows img → 1 ≤ c → c + 1 < cols img → ch < channels img →
  (∀ i j, i < 3 → j < 3 →
     ∃ x, pixel img (r + i - 1) (c + j - 1) ch = Some x ∧ feq x (Num v)) →
  let s := window (plane ch p) 3 r c in
  wf s ∧ shape0 s = 3 ∧ shape1 s = 3 ∧
  ∀ i j x, at2 s i j = Some x → feq x (Num v).
Proof.
  intros Hwf Hpad Hr Hr' Hc Hc' Hch Hflat s.
  destruct (pad_image_zero_positive img 1 Hwf) as
    (p' & Hpad' & Hwfp & Hpr & Hpc & Hpch & Hpp); [lia|].
  change (Z.of_nat 1) with 1%Z in Hpad'.
  rewrite Hpad in Hpad'. injection Hpad' as <-.
  destruct (grid_slice_inside (plane ch p) r c 3 3) as (Hws & Hs0 & Hs1 & Hat).
  { by apply plane_wf. }
  { rewrite plane_shape0. lia. }
  { rewrite plane_shape1. lia. }
  split; [done|]. split; [done|]. split; [done|].
  intros i j x Hx. destruct (at2_lt _ _ _ _ Hws Hx) as [Hi Hj].
  unfold s, window in Hx. rewrite Hat in Hx by lia.
  rewrite <- pixel_plane in Hx by lia. rewrite Hpp in Hx by lia.
  rewrite bool_decide_eq_true_2 in Hx by lia.
  destruct (Hflat i j) as (x' & Hx' & Hv); [lia..|].
  rewrite Hx' in Hx. by injection Hx as <-.
Qed.

Lemma kirsch_kernels_zero_sum :
  Forall (fun k : string * grid npfloat =>
            Forall finite (grid_flat k.2) ∧ ∃ S, np_sum k.2 = Num S ∧ (S == 0)%Q)
    kirsch_edge_detection_kernels.
Proof.
  repeat constructor; by eexists.
Qed.



(** ** Line detection *)

Lemma line_kernels_3x3 :
  Forall (fun k : string * grid npfloat =>
            wf k.2 ∧ shape0 k.2 = 2 * 1 + 1 ∧ shape1 k.2 = 2 * 1 + 1 ∧
            Forall finite (grid_flat k.2) ∧
            ∃ S, np_sum k.2 = Num S ∧ (S == 0)%Q)
    line_detection_kernels.
Proof.
  repeat constructor; by eexists.
Qed.

(** The loop of [line_detection]: one binary image for each direction, in
    the order of the kernels. *)
Lemma line_detection_loop (img : ndarray) (padding_type : string)
    (t : npfloat) :
  ndarray_wf img →
  ∃ p outs,
    pad_image img padding_type 1 = Ok p ∧
    line_detection img padding_type t = Ok outs ∧
    Forall2 (fun (k : string * grid npfloat) (out : string * ndarray) =>
               out.1 = k.1 ∧
               ∃ resp,
                 convolution_2d img k.2 padding_type
                   DEFAULT_NORMALIZATION_METHOD = Ok resp ∧
                 like img resp ∧
                 (∀ r c ch, r < rows img → c < cols img → ch < channels img →
                    pixel resp r c ch = Some (response p r c ch k.2)) ∧
                 out.2 = thresholding (ndarray_map fabs resp) t)
      line_detection_kernels outs.
Proof.
  intros Hwf.
  destruct (convolution_2d_unchanged img (kernel3 0 0 0 0 0 0 0 0 0)
              padding_type 1 Hwf)
    as (p & _ & Hpad & Hwfp & Hpr & Hpc & Hpch & _);
    [repeat constructor|lia|done|done|].
  exists p.
  destruct (for_each_collect (fun k : string * grid npfloat => k.1)
              (fun k =>
                 (fun resp => thresholding (ndarray_map fabs resp) t)
                 <$> convolution_2d img k.2 padding_type
                       DEFAULT_NORMALIZATION_METHOD)
              (fun k out =>
                 ∃ resp,
                   convolution_2d img k.2 padding_type
                     DEFAULT_NORMALIZATION_METHOD = Ok resp ∧
                   like img resp ∧
                   (∀ r c ch, r < rows img → c < cols img → ch < channels img →
                      pixel resp r c ch = Some (response p r c ch k.2)) ∧
                   out = thresholding (ndarray_map fabs resp) t)
              line_detection_kernels [])
    as (outs & Houts & Houts2).
  { eapply Forall_impl; [exact line_kernels_3x3|].
    intros k (Hk & Hk0 & Hk1 & _).
    destruct (convolution_2d_unchanged img k.2 padding_type 1 Hwf Hk)
      as (p' & resp & Hpad' & _ & _ & _ & _ & Hconv & Hlike & Hpix);
      [lia|done|done|].
    change (Z.of_nat 1) with 1%Z in *.
    rewrite Hpad in Hpad'. injection Hpad' as <-.
    change DEFAULT_NORMALIZATION_METHOD with "unchanged".
    rewrite Hconv. eexists. split; [reflexivity|].
    exists resp. done. }
  rewrite app_nil_l in Houts. exists outs. split; [done|]. split.
  - unfold line_detection. rewrite <- Houts. apply for_each_ext.
    intros k acc _.
    by destruct (convolution_2d img k.2 padding_type
                   DEFAULT_NORMALIZATION_METHOD).
  - eapply Forall2_impl; [exact Houts2|].
    intros k out (Hname & _ & resp & Hconv & Hlike & Hpix & Hout).
    split; [done|]. by exists resp.
Qed.

(** X19.  [line_detection] returns four binary images, for the directions
    HORIZONTAL, PLUS_45, VERTICAL and MINUS_45 in this order: each has the
    shape of the image and holds only the values 0 and 1, and a pixel is 1
    exactly when the absolute value of the response of its direction
    exceeds the threshold. *)
Theorem line_detection_binary (img : ndarray) (padding_type : string)
    (t : npfloat) :
  ndarray_wf img →
  ∃ outs,
    line_detection img padding_type t = Ok outs ∧
    outs.*1 = ["HORIZONTAL"; "PLUS_45"; "VERTICAL"; "MINUS_45"] ∧
    Forall2 (fun (k : string * grid npfloat) (out : string * ndarray) =>
               like img out.2 ∧
               Forall (fun y => y = Num 0 ∨ y = Num 1) (flat out.2) ∧
               ∃ resp,
                 convolution_2d img k.2 padding_type
                   DEFAULT_NORMALIZATION_METHOD = Ok resp ∧
                 ∀ r c ch x, pixel resp r c ch = Some x →
                   pixel out.2 r c ch
                   = Some (if fgt (fabs x) t then Num 1 else Num 0))
      line_detection_kernels outs.
Proof.
  intros Hwf.
  destruct (line_detection_loop img padding_type t Hwf)
    as (p & outs & _ & Hline & Houts).
  exists outs. split; [done|]. split.
  - change ["HORIZONTAL"; "PLUS_45"; "VERTICAL"; "MINUS_45"]
      with (line_detection_kernels.*1).
    apply list_eq_Forall2, Forall2_fmap, Forall2_flip.
    eapply Forall2_impl; [exact Houts|]. by intros k out (? & _).
  - eapply Forall2_impl; [exact Houts|].
    intros k [name out] (_ & resp & Hconv & Hlike & _ & Hout).
    simpl in *. subst out. split_and!.
    + destruct Hlike as (Hw & Hr & Hc & Hch). unfold thresholding.
      split_and!.
      * destruct resp; simpl in *; by apply wf_grid_map, wf_grid_map.
      * by destruct resp.
      * by destruct resp.
      * by destruct resp.
    + unfold thresholding. rewrite flat_ndarray_map.
      apply Forall_fmap, Forall_true. intros x. simpl.
      destruct (fgt x t); auto.
    + exists resp. split; [done|]. intros r c ch x Hx.
      unfold thresholding. rewrite !pixel_ndarray_map, Hx. simpl.
      unfold of_bool. by destruct (fgt (fabs x) t).
Qed.

Lemma line_detection_binary_witness :
  ∃ outs,
    line_detection gray12 ZERO_PADDING (Num (1 # 2)) = Ok outs ∧
    outs.*1 = ["HORIZONTAL"; "PLUS_45"; "VERTICAL"; "MINUS_45"] ∧
    Forall2 (fun (k : string * grid npfloat) (out : string * ndarray) =>
               like gray12 out.2 ∧
               Forall (fun y => y = Num 0 ∨ y = Num 1) (flat out.2) ∧
               ∃ resp,
                 convolution_2d gray12 k.2 ZERO_PADDING
                   DEFAULT_NORMALIZATION_METHOD = Ok resp ∧
                 ∀ r c ch x, pixel resp r c ch = Some x →
                   pixel out.2 r c ch
                   = Some (if fgt (fabs x) (Num (1 # 2)) then Num 1 else Num 0))
      line_detection_kernels outs.
Proof.
  apply (line_detection_binary gray12 ZERO_PADDING (Num (1 # 2))).
  split; [reflexivity|]. by repeat constructor.
Defined.

(** X20.  [line_detection] marks nothing in a flat region: for a threshold that
    is not negative, at a pixel whose 3 × 3 neighbourhood lies inside the
    image and is constant, each of the four images returned is 0 (every
    line kernel sums to zero). *)
Theorem line_detection_flat_region (img : ndarray) (t : Q) (r c ch : nat)
    (v : Q) :
  ndarray_wf img → (0 <= t)%Q →
  1 ≤ r → r + 1 < rows img → 1 ≤ c → c + 1 < cols img → ch < channels img →
  (∀ i j, i < 3 → j < 3 →
     ∃ x, pixel img (r + i - 1) (c + j - 1) ch = Some x ∧ feq x (Num v)) →
  ∃ outs,
    line_detection img ZERO_PADDING (Num t) = Ok outs ∧ length outs = 4 ∧
    Forall (fun out : string * ndarray => pixel out.2 r c ch = Some (Num 0))
      outs.
Proof.
  intros Hwf Ht Hr Hr' Hc Hc' Hch Hflat.
  destruct (line_detection_loop img ZERO_PADDING (Num t) Hwf)
    as (p & outs & Hpad & Hline & Houts).
  exists outs. split; [done|]. split.
  { by rewrite <- (Forall2_length _ _ _ Houts). }
  destruct (flat_window img p r c ch v) as (Hws & Hs0 & Hs1 & Hsv); try done.
  apply Forall_lookup. intros i out Hout.
  destruct (Forall2_lookup_r _ _ _ _ _ Houts Hout)
    as (k & Hk & _ & resp & _ & _ & Hpix & ->).
  pose proof line_kernels_3x3 as H33. rewrite Forall_lookup in H33.
  destruct (H33 i k Hk) as (Hwk & Hk0 & Hk1 & Hkfin & S & HS & HS0).
  destruct (dot_constant_window (window (plane ch p) 3 r c) k.2 v)
    as (S' & HS' & Hdot);
    [done|done|by rewrite Hk0|by rewrite Hk1|done|done|].
  rewrite HS in HS'. injection HS' as <-.
  unfold thresholding. rewrite !pixel_ndarray_map.
  rewrite Hpix by lia. unfold response.
  destruct (dot _ _) as [q| | |]; try done. simpl in Hdot. simpl.
  do 2 f_equal.
  replace (Qltb t (Qabs q)) with false; [done|]. symmetry.
  apply Qltb_false. rewrite Hdot, HS0.
  assert (Heq : (v * 0 == 0)%Q) by ring. rewrite Heq. simpl. exact Ht.
Qed.

Lemma line_detection_flat_region_witness :
  ∃ outs,
    line_detection ones3 ZERO_PADDING (Num (1 # 2)) = Ok outs ∧
    length outs = 4 ∧
    Forall (fun out : string * ndarray => pixel out.2 1 1 0 = Some (Num 0))
      outs.
Proof.
  apply (line_detection_flat_region ones3 (1 # 2) 1 1 0 1).
  - split; [reflexivity|]. by repeat constructor.
  - lra.
  - lia.
  - simpl. lia.
  - lia.
  - simpl. lia.
  - simpl. lia.
  - intros i j Hi Hj.
    destruct i as [|[|[|i]]], j as [|[|[|j]]]; try lia;
      (eexists; split; [reflexivity|reflexivity]).
Defined.


Lemma astype_int_floor (q : Q) :
  (0 <= q)%Q → (q < inject_Z (2 ^ 63))%Q → astype_int (Num q) = Qfloor q.
Proof.
  intros H0 Hlt. unfold astype_int.
  assert (Hq : (Qnum q ÷ Z.pos (Qden q))%Z = Qfloor q).
  { destruct q as [n d]. simpl. apply Z.quot_div_nonneg; [|lia].
    unfold Qle in H0. simpl in H0. lia. }
  rewrite Hq.
  assert (0 ≤ Qfloor q)%Z.
  { change 0%Z with (Qfloor 0). by apply Qfloor_resp_le. }
  assert (Qfloor q < 2 ^ 63)%Z.
  { rewrite Zlt_Qlt. eapply Qle_lt_trans; [apply Qfloor_le|done]. }
  destruct (Z.leb_spec (- 2 ^ 63) (Qfloor q)); [|lia].
  destruct (Z.ltb_spec (Qfloor q) (2 ^ 63)); [done|lia].
Qed.

Lemma bin_unit (x : npfloat) :
  in_unit x →
  ∃ q, x = Num q ∧ bin x = Qfloor (q * inject_Z 255) ∧ (0 ≤ bin x < 256)%Z ∧
       (inject_Z (bin x) <= q * inject_Z 255 < inject_Z (bin x) + 1)%Q.
Proof.
  destruct x as [q| | |]; try done. simpl. intros [H0 H1].
  exists q. split; [done|]. unfold bin, of_int. cbn [fmul].
  assert (H255 : (inject_Z 255 == 255)%Q) by done.
  rewrite astype_int_floor.
  2: { rewrite H255. lra. }
  2: { apply Qle_lt_trans with (inject_Z 255); [rewrite H255; lra|].
       rewrite <- Zlt_Qlt. lia. }
  split; [done|].
  pose proof (Qfloor_le (q * inject_Z 255)) as Hle.
  pose proof (Qlt_floor (q * inject_Z 255)) as Hlt.
  rewrite inject_Z_plus in Hlt. change (inject_Z 1) with 1%Q in Hlt.
  split; [|split; [done|lra]].
  split.
  - change 0%Z with (Qfloor 0). apply Qfloor_resp_le. rewrite H255. lra.
  - apply Z.le_lt_trans with (Qfloor (inject_Z 255)); [|by rewrite Qfloor_Z].
    apply Qfloor_resp_le. rewrite H255. lra.
Qed.

Lemma intarray_flat_astype (a : ndarray) :
  intarray_flat (astype_int_array (Floats a)) = astype_int <$> flat a.
Proof.
  destruct a as [g|g]; simpl.
  - unfold grid_flat. by rewrite concat_map.
  - rewrite concat_map, !map_map. f_equal. apply map_ext. intros row.
    rewrite concat_map, !map_map. f_equal.
Qed.

Lemma flat_to_floats (a : intarray) :
  flat (to_floats a) = of_int <$> intarray_flat a.
Proof.
  destruct a as [g|g]; simpl.
  - unfold grid_flat. simpl. by rewrite concat_map.
  - rewrite concat_map, !map_map. f_equal. apply map_ext. intros row.
    rewrite concat_map, !map_map. f_equal.
Qed.

Lemma shape_to_floats_astype (a : ndarray) :
  shape (to_floats (astype_int_array (Floats a))) = shape a.
Proof. by destruct a. Qed.

(** ** Scaling to integers and back *)

(** X21.  An image with pixel values in [0, 1] scaled by 255 becomes an array of
    integers between 0 and 255; scaled back by [1 / 255] it is an array of
    floats of the same shape in which every pixel is at most the pixel of
    the image and less than [1 / 255] below it: the fraction dropped by
    the conversion to integers is lost. *)
Theorem scale_image_round_trip (image : ndarray) :
  Forall in_unit (flat image) →
  ∃ scaled back,
    scale_image (Floats image) (PyInt 255) = Ints scaled ∧
    Forall (fun n => (0 ≤ n ≤ 255)%Z) (intarray_flat scaled) ∧
    scale_image (Ints scaled) (PyFloat (Num (1 # 255))) = Floats back ∧
    shape back = shape image ∧
    Forall2 (fun x y => ∃ q p, x = Num q ∧ y = Num p ∧
                               (p <= q < p + (1 # 255))%Q)
      (flat image) (flat back).
Proof.
  intros Hunit. eexists _, _. split; [reflexivity|].
  cbn [times].
  split.
  { rewrite intarray_flat_astype, flat_ndarray_map, <- list_fmap_compose.
    apply Forall_fmap. eapply Forall_impl; [exact Hunit|].
    intros x Hx. destruct (bin_unit x Hx) as (q & -> & _ & Hb & _).
    unfold compose. fold (bin (Num q)). lia. }
  split; [reflexivity|].
  split.
  { rewrite shape_ndarray_map, shape_to_floats_astype.
    apply shape_ndarray_map. }
  rewrite flat_ndarray_map, flat_to_floats, intarray_flat_astype,
    flat_ndarray_map, <- !list_fmap_compose.
  apply Forall2_fmap_r, Forall_Forall2_diag.
  eapply Forall_impl; [exact Hunit|].
  intros x Hx. destruct (bin_unit x Hx) as (q & -> & _ & _ & Hb).
  unfold compose. fold (bin (Num q)). unfold of_int. simpl.
  eexists _, _. split; [reflexivity|]. split; [reflexivity|].
  assert (H255 : (inject_Z 255 == 255)%Q) by done.
  rewrite H255 in Hb. lra.
Qed.

Lemma scale_image_round_trip_witness :
  ∃ scaled back,
    scale_image (Floats gray4) (PyInt 255) = Ints scaled ∧
    Forall (fun n => (0 ≤ n ≤ 255)%Z) (intarray_flat scaled) ∧
    scale_image (Ints scaled) (PyFloat (Num (1 # 255))) = Floats back ∧
    shape back = shape gray4 ∧
    Forall2 (fun x y => ∃ q p, x = Num q ∧ y = Num p ∧
                               (p <= q < p + (1 # 255))%Q)
      (flat gray4) (flat back).
Proof.
  apply (scale_image_round_trip gray4).
  repeat constructor; simpl; lra.
Defined.


Lemma for_each_app {St X} (l1 l2 : list X) (f : X → St → result St) (s : St) :
  for_each (l1 ++ l2) f s = (s' ← for_each l1 f s; for_each l2 f s').
Proof.
  revert s. induction l1 as [|x l1 IH]; intros s; [done|].
  cbn [app for_each]. destruct (f x s) as [s'|e]; [|done]. apply IH.
Qed.

(** A loop over the indices of a list is a loop over the list. *)
Lemma for_each_range_list {St V} (get : Z → result V) (body : V → St → result St)
    (l : list V) (a : Z) (s : St) :
  (∀ i v, l !! i = Some v → get (a + Z.of_nat i)%Z = Ok v) →
  for_each (range a (a + Z.of_nat (length l)))
    (fun col s => v ← get col; body v s) s
  = for_each l body s.
Proof.
  revert a s. induction l as [|x l IH]; intros a s Hget.
  - cbn [length concat]. change (Z.of_nat 0) with 0%Z.
    rewrite Z.add_0_r. unfold range. by rewrite Z.sub_diag.
  - rewrite range_cons by (simpl; lia). cbn [for_each].
    pose proof (Hget 0 x eq_refl) as H0.
    replace (a + Z.of_nat 0)%Z with a in H0 by lia. rewrite H0.
    cbn [mbind result_bind]. destruct (body x s) as [s'|e]; [|done].
    cbn [mbind result_bind].
    replace (a + Z.of_nat (length (x :: l)))%Z
      with (a + 1 + Z.of_nat (length l))%Z by (simpl; lia).
    apply IH. intros i v Hi.
    replace (a + 1 + Z.of_nat i)%Z with (a + Z.of_nat (S i))%Z by lia.
    by apply Hget.
Qed.

(** A loop over the indices of the rows, each running a loop over a row,
    is a loop over the values in row-major order. *)
Lemma for_each_rows {St V} (F : Z → St → result St) (body : V → St → result St)
    (rws : list (list V)) (a : Z) (s : St) :
  (∀ i row s, rws !! i = Some row →
     F (a + Z.of_nat i)%Z s = for_each row body s) →
  for_each (range a (a + Z.of_nat (length rws))) F s
  = for_each (concat rws) body s.
Proof.
  revert a s. induction rws as [|row rws IH]; intros a s HF.
  - cbn [length concat]. change (Z.of_nat 0) with 0%Z.
    rewrite Z.add_0_r. unfold range. by rewrite Z.sub_diag.
  - rewrite range_cons by (simpl; lia). cbn [for_each concat].
    rewrite for_each_app.
    pose proof (HF 0 row s eq_refl) as H0.
    replace (a + Z.of_nat 0)%Z with a in H0 by lia. rewrite H0.
    destruct (for_each row body s) as [s'|e]; [|done].
    cbn [mbind result_bind].
    replace (a + Z.of_nat (length (row :: rws)))%Z
      with (a + 1 + Z.of_nat (length rws))%Z by (simpl; lia).
    apply IH. intros i r t Hi.
    replace (a + 1 + Z.of_nat i)%Z with (a + Z.of_nat (S i))%Z by lia.
    by apply HF.
Qed.

Lemma getitem_Ok {A} (g : grid A) (i j : nat) (x : A) :
  wf g → at2 g i j = Some x → getitem g (Z.of_nat i) (Z.of_nat j) = Ok x.
Proof.
  intros Hwf Hx. destruct (at2_lt g i j x Hwf Hx) as [Hi Hj].
  unfold getitem. rewrite !index_Ok by lia. cbn [mbind result_bind].
  by rewrite !Nat2Z.id, Hx.
Qed.

(** The two loops over the pixels of an array visit its values in
    row-major order. *)
Lemma for_each_pixels {St V} (g : grid V) (body : V → St → result St) (s : St) :
  wf g →
  for_each (range 0 (Z.of_nat (shape0 g)))
    (fun row s =>
       for_each (range 0 (Z.of_nat (shape1 g)))
         (fun col s => v ← getitem g row col; body v s) s) s
  = for_each (concat (cells g)) body s.
Proof.
  intros Hwf. pose proof Hwf as [Hlen Hrows].
  rewrite <- Hlen.
  rewrite <- (for_each_rows
    (fun row s =>
       for_each (range 0 (Z.of_nat (shape1 g)))
         (fun col s => v ← getitem g row col; body v s) s)
    body (cells g) 0 s); [done|].
  intros i row t Hrow. cbn beta.
  rewrite Forall_lookup in Hrows. rewrite <- (Hrows _ _ Hrow).
  rewrite <- (for_each_range_list (getitem g (0 + Z.of_nat i)) body row 0 t);
    [done|].
  intros j v Hj. rewrite !Z.add_0_l. apply getitem_Ok; [done|].
  apply at2_Some. eauto.
Qed.

Lemma Qsum_alter (qs : list Q) (i : nat) :
  i < length qs →
  (Qsum (alter (fun q => q + 1)%Q i qs) == Qsum qs + 1)%Q.
Proof.
  revert i. unfold Qsum.
  induction qs as [|q qs IH]; intros i Hi; [simpl in Hi; lia|].
  destruct i as [|i]; cbn [alter list_alter foldr].
  - ring.
  - fold (alter (fun q => (q + 1)%Q) i qs). rewrite IH by (simpl in Hi; lia).
    ring.
Qed.

Lemma increment_Num (v : Z) (qs : list Q) :
  (0 ≤ v < Z.of_nat (length qs))%Z →
  increment v (Num <$> qs)
  = Ok (Num <$> alter (fun q => q + 1)%Q (Z.to_nat v) qs).
Proof.
  intros Hv. unfold increment. rewrite length_fmap, index_Ok by done.
  cbn [mbind result_bind]. f_equal. symmetry. apply list_fmap_alter.
  by apply Forall_true.
Qed.

Lemma increments_counts (vs : list Z) (qs : list Q) :
  Forall (fun v => (0 ≤ v < Z.of_nat (length qs))%Z) vs →
  ∃ qs', for_each vs increment (Num <$> qs) = Ok (Num <$> qs') ∧
         length qs' = length qs ∧
         (Qsum qs' == Qsum qs + inject_Z (Z.of_nat (length vs)))%Q ∧
         ∀ k q, qs !! k = Some q →
           ∃ q', qs' !! k = Some q' ∧
                 (q' == q + inject_Z (Z.of_nat
                            (length (filter (fun v => v = Z.of_nat k) vs))))%Q.
Proof.
  intros Hvs. revert qs Hvs.
  induction vs as [|v vs IH]; intros qs Hvs.
  - exists qs. split_and!; try done.
    + simpl. change (inject_Z 0) with 0%Q. ring.
    + intros k q Hq. exists q. split; [done|]. simpl.
      change (inject_Z 0) with 0%Q. ring.
  - apply Forall_cons in Hvs as [Hv Hvs]. cbn [for_each].
    rewrite increment_Num by done. cbn [mbind result_bind].
    set (qs1 := alter (fun q => (q + 1)%Q) (Z.to_nat v) qs).
    assert (Hlen1 : length qs1 = length qs) by apply length_alter.
    destruct (IH qs1) as (qs' & Hloop & Hlen & Hsum & Hcount).
    { by rewrite Hlen1. }
    exists qs'. split; [done|]. split; [congruence|]. split.
    + rewrite Hsum. unfold qs1. rewrite Qsum_alter by lia.
      cbn [length]. rewrite Nat2Z.inj_succ. unfold Z.succ.
      rewrite inject_Z_plus. change (inject_Z 1) with 1%Q. ring.
    + intros k q Hq. rewrite filter_cons.
      destruct (decide (k = Z.to_nat v)) as [->|Hne].
      * destruct (Hcount (Z.to_nat v) (q + 1)%Q) as (q' & Hq' & Heq).
        { unfold qs1. by rewrite list_lookup_alter_eq, Hq. }
        exists q'. split; [done|]. rewrite Heq.
        rewrite decide_True by lia. cbn [length].
        rewrite Nat2Z.inj_succ. unfold Z.succ.
        rewrite inject_Z_plus. change (inject_Z 1) with 1%Q. ring.
      * destruct (Hcount k q) as (q' & Hq' & Heq).
        { unfold qs1. by rewrite list_lookup_alter_ne. }
        exists q'. split; [done|]. rewrite Heq.
        rewrite decide_False by lia. done.
Qed.

Lemma length_filter_fmap {A B} (f : A → B) (P : B → Prop)
    `{∀ y, Decision (P y)} (l : list A) :
  length (filter P (f <$> l)) = length (filter (fun x => P (f x)) l).
Proof.
  induction l as [|x l IH]; [done|]. rewrite fmap_cons, !filter_cons.
  destruct (decide (P (f x))); simpl; by rewrite IH.
Qed.

Lemma replicate_Num (n : nat) (q : Q) :
  replicate n (Num q) = Num <$> replicate n q.
Proof. by rewrite fmap_replicate. Qed.

(** The histogram loops on an array of floats with values in [0, 1],
    scaled by 255. *)
Lemma histogram_loop_unit (g : grid npfloat) :
  wf g → Forall in_unit (grid_flat g) →
  ∃ qs, histogram_loop (grid_map bin g) (replicate 256 zero)
          = Ok (Num <$> qs) ∧
        histogram_of g (Num <$> qs) ∧
        (Qsum qs == inject_Z (Z.of_nat (shape0 g * shape1 g)))%Q.
Proof.
  intros Hwf Hunit. unfold histogram_loop.
  rewrite (for_each_pixels (grid_map bin g)
             (fun v histogram =>
                i ← index (length histogram) v;
                Ok (alter (fun x => fadd x (Num 1)) i histogram)))
    by by apply wf_grid_map.
  change (cells (grid_map bin g)) with (map (map bin) (cells g)).
  rewrite <- concat_map. fold (grid_flat g).
  unfold zero. rewrite replicate_Num.
  destruct (increments_counts (map bin (grid_flat g)) (replicate 256 0%Q))
    as (qs & Hloop & Hlen & Hsum & Hcount).
  { apply Forall_map. eapply Forall_impl; [exact Hunit|].
    intros x Hx. destruct (bin_unit x Hx) as (q & _ & _ & Hb & _).
    rewrite length_replicate. simpl. lia. }
  exists qs. split; [exact Hloop|]. split; [split|].
  - by rewrite length_fmap, Hlen, length_replicate.
  - intros k Hk.
    destruct (Hcount k 0%Q) as (q' & Hq' & Heq).
    { by apply lookup_replicate_2. }
    exists q'. split; [by rewrite list_lookup_fmap, Hq'|].
    rewrite Heq. unfold count_bin.
    change (map bin (grid_flat g)) with (bin <$> grid_flat g).
    rewrite (length_filter_fmap bin (fun v => v = Z.of_nat k)). ring.
  - rewrite Hsum, length_map, length_grid_flat by done.
    assert (H0 : (Qsum (replicate 256 0) == 0)%Q).
    { rewrite Qsum_replicate. ring. }
    rewrite H0. ring.
Qed.

Lemma scale_image_255_gray (g : grid npfloat) :
  scale_image (Floats (Gray g)) (PyInt 255) = Ints (IntGray (grid_map bin g)).
Proof.
  unfold scale_image. cbn. unfold grid_map. simpl. do 3 f_equal.
  rewrite map_map. apply map_ext. intros row. by rewrite map_map.
Qed.

Lemma calculate_histogram_2d_unit (g : grid npfloat) :
  wf g → Forall in_unit (grid_flat g) →
  ∃ qs, calculate_histogram_2d (Floats (Gray g)) false = Ok (Num <$> qs) ∧
        histogram_of g (Num <$> qs) ∧
        (Qsum qs == inject_Z (Z.of_nat (shape0 g * shape1 g)))%Q.
Proof.
  intros Hwf Hunit. unfold calculate_histogram_2d.
  rewrite scale_image_255_gray.
  destruct (histogram_loop_unit g Hwf Hunit) as (qs & -> & Hh & Hsum).
  by exists qs.
Qed.

(** ** Histograms *)






Lemma increment_cases (v : Z) (h : list npfloat) :
  (∃ h', increment v h = Ok h' ∧ length h' = length h) ∨
  (∃ msg, increment v h = Raise (IndexError msg)).
Proof.
  unfold increment, index. destruct (_ && _).
  - left. eexists. split; [reflexivity|]. apply length_alter.
  - right. by eexists.
Qed.

Lemma increments_raise (vs : list Z) (h : list npfloat) :
  Exists (fun v => (Z.of_nat (length h) ≤ v)%Z) vs →
  ∃ msg, for_each vs increment h = Raise (IndexError msg).
Proof.
  intros Hex. revert h Hex.
  induction vs as [|v vs IH]; intros h Hex; [by inversion Hex|].
  cbn [for_each].
  destruct (increment_cases v h) as [(h' & Hinc & Hlen)|(msg & Hinc)].
  - rewrite Hinc. cbn [mbind result_bind].
    apply Exists_cons in Hex as [Hv|Hex].
    + exfalso. unfold increment, index in Hinc.
      destruct (Z.ltb_spec v 0); [lia|].
      destruct (Z.ltb_spec v (Z.of_nat (length h))); [lia|].
      by rewrite andb_false_r in Hinc.
    + apply IH. by rewrite Hlen.
  - rewrite Hinc. by exists msg.
Qed.

(** X24.  A pixel value of at least [256 / 255] falls outside the 256 bins:
    [calculate_histogram] raises [IndexError], with or without the
    normalization. *)
Theorem calculate_histogram_out_of_range (g : grid npfloat)
    (normalize : bool) :
  wf g →
  Exists (fun x => ∃ q, x = Num q ∧
                        (256 <= q * 255)%Q ∧ (q * 255 < inject_Z (2 ^ 63))%Q)
    (grid_flat g) →
  ∃ msg, calculate_histogram (Floats (Gray g)) normalize
         = Raise (IndexError msg).
Proof.
  intros Hwf Hbig.
  unfold calculate_histogram, calculate_histogram_2d. cbn [channel_image].
  rewrite scale_image_255_gray. unfold histogram_loop.
  rewrite (for_each_pixels (grid_map bin g)
             (fun v histogram =>
                i ← index (length histogram) v;
                Ok (alter (fun x => fadd x (Num 1)) i histogram)))
    by by apply wf_grid_map.
  change (cells (grid_map bin g)) with (map (map bin) (cells g)).
  rewrite <- concat_map. fold (grid_flat g).
  destruct (increments_raise (map bin (grid_flat g)) (replicate 256 zero))
    as [msg Hmsg].
  { apply Exists_fmap. eapply Exists_impl; [exact Hbig|].
    intros x (q & -> & Hlo & Hhi). unfold compose.
    rewrite length_replicate. unfold bin, of_int. cbn [fmul].
    assert (H255 : (inject_Z 255 == 255)%Q) by done.
    rewrite astype_int_floor.
    2: { rewrite H255. lra. }
    2: { by rewrite H255. }
    change (Z.of_nat 256) with (Qfloor (inject_Z 256)).
    apply Qfloor_resp_le. rewrite H255.
    assert (H256 : (inject_Z 256 == 256)%Q) by done. rewrite H256. done. }
  unfold increment in Hmsg. rewrite Hmsg. by exists msg.
Qed.

Lemma calculate_histogram_out_of_range_witness :
  ∃ msg, calculate_histogram (Floats (Gray (Grid 1 1 [[Num 2]]))) false
         = Raise (IndexError msg).
Proof.
  apply (calculate_histogram_out_of_range (Grid 1 1 [[Num 2]]) false).
  - split; [reflexivity|]. by repeat constructor.
  - constructor. exists 2%Q. split; [done|]. split; [lra|].
    unfold Qlt. simpl. lia.
Defined.


(** ** Lookup tables *)

Lemma mapM_Ok {A B} (f : A → result B) (g : A → B) (l : list A) :
  Forall (fun x => f x = Ok (g x)) l → mapM f l = Ok (g <$> l).
Proof.
  induction 1 as [|x l Hx _ IH]; [done|].
  cbn [mapM]. rewrite Hx. cbn [mbind result_bind]. by rewrite IH.
Qed.

Lemma grid_mapM_Ok {A B} (f : A → result B) (g' : A → B) (g : grid A) :
  Forall (Forall (fun x => f x = Ok (g' x))) (cells g) →
  grid_mapM f g = Ok (grid_map g' g).
Proof.
  intros H. unfold grid_mapM.
  rewrite (mapM_Ok (mapM f) (map g')); [done|].
  eapply Forall_impl; [exact H|]. intros row Hrow. by apply mapM_Ok.
Qed.

Lemma mapM_raise {A B} (f : A → result B) (l : list A) :
  (∀ x, (∃ y, f x = Ok y) ∨ ∃ msg, f x = Raise (IndexError msg)) →
  Exists (fun x => ∃ msg, f x = Raise (IndexError msg)) l →
  ∃ msg, mapM f l = Raise (IndexError msg).
Proof.
  intros Hf. induction 1 as [x l (msg & Hx)|x l _ IH]; cbn [mapM].
  - rewrite Hx. by exists msg.
  - destruct (Hf x) as [(y & ->)|(msg & ->)]; [|by exists msg].
    cbn [mbind result_bind]. destruct IH as (msg & ->). by exists msg.
Qed.

Lemma table_entry_Ok (lookup_table : list npfloat) (v : Z) :
  (0 ≤ v < Z.of_nat (length lookup_table))%Z →
  astype_int <$> table_entry lookup_table v = Ok (table_value lookup_table v) ∧
  ∃ x, lookup_table !! Z.to_nat v = Some x ∧ table_entry lookup_table v = Ok x.
Proof.
  intros Hv. unfold table_entry, table_value. rewrite index_Ok by done.
  cbn [mbind result_bind].
  destruct (lookup_lt_is_Some_2 lookup_table (Z.to_nat v)) as [x Hx]; [lia|].
  rewrite Hx. split; [done|]. by exists x.
Qed.

Lemma table_entry_cases (lookup_table : list npfloat) (v : Z) :
  (∃ y, table_entry lookup_table v = Ok y) ∨
  ∃ msg, table_entry lookup_table v = Raise (IndexError msg).
Proof.
  unfold table_entry, index. destruct (_ && _); cbn [mbind result_bind].
  - destruct (lookup_table !! _); [left|right]; by eexists.
  - right. by eexists.
Qed.

Lemma table_entry_raise (lookup_table : list npfloat) (v : Z) :
  (Z.of_nat (length lookup_table) ≤ v ∨
   v < - Z.of_nat (length lookup_table))%Z →
  ∃ msg, table_entry lookup_table v = Raise (IndexError msg).
Proof.
  intros Hv. unfold table_entry, index.
  destruct (Z.ltb_spec v 0).
  - destruct (Z.leb_spec 0 (v + Z.of_nat (length lookup_table))); [lia|].
    by eexists.
  - destruct (Z.ltb_spec v (Z.of_nat (length lookup_table))); [lia|].
    rewrite andb_false_r. by eexists.
Qed.

(** On an array of integers whose values are indices of the table, every
    value [v] is replaced by the entry [v] of the table converted to an
    integer. *)
Lemma use_lookup_table_Ok (image : intarray) (lookup_table : list npfloat) :
  Forall (fun v => (0 ≤ v < Z.of_nat (length lookup_table))%Z)
    (intarray_flat image) →
  use_lookup_table image lookup_table
  = Ok (intarray_map (table_value lookup_table) image).
Proof.
  intros Hrange. destruct image as [g|g]; simpl in *.
  - rewrite (grid_mapM_Ok _ (table_value lookup_table)); [done|].
    apply Forall_concat in Hrange.
    eapply Forall_impl; [exact Hrange|]. intros row Hrow.
    eapply Forall_impl; [exact Hrow|]. intros v Hv. simpl.
    by destruct (table_entry_Ok lookup_table v Hv) as [-> _].
  - rewrite (grid_mapM_Ok _ (int_map3 (table_value lookup_table)));
      [done|].
    rewrite Forall_concat, Forall_map in Hrange.
    eapply Forall_impl; [exact Hrange|]. intros row Hrow. simpl in Hrow.
    rewrite Forall_concat, Forall_map in Hrow.
    eapply Forall_impl; [exact Hrow|]. intros [[r gr] b] Hp. simpl in *.
    apply Forall_cons in Hp as [Hr Hp]. apply Forall_cons in Hp as [Hg Hp].
    apply Forall_cons in Hp as [Hb _].
    destruct (table_entry_Ok lookup_table r Hr) as [_ (xr & Hxr & ->)].
    destruct (table_entry_Ok lookup_table gr Hg) as [_ (xg & Hxg & ->)].
    destruct (table_entry_Ok lookup_table b Hb) as [_ (xb & Hxb & ->)].
    cbn [mbind result_bind]. unfold int_map3, table_value. simpl.
    by rewrite Hxr, Hxg, Hxb.
Qed.

Lemma intarray_map_ext (f h : Z → Z) (image : intarray) :
  Forall (fun v => f v = h v) (intarray_flat image) →
  intarray_map f image = intarray_map h image.
Proof.
  intros Hfh. destruct image as [g|g]; simpl in *.
  - apply Forall_concat in Hfh. unfold grid_map. do 2 f_equal.
    apply Forall_fmap_ext_1. eapply Forall_impl; [exact Hfh|].
    intros row Hrow. simpl. by apply Forall_fmap_ext_1.
  - rewrite Forall_concat, Forall_map in Hfh.
    unfold grid_map. do 2 f_equal.
    apply Forall_fmap_ext_1. eapply Forall_impl; [exact Hfh|].
    intros row Hrow. simpl in *. rewrite Forall_concat, Forall_map in Hrow.
    apply Forall_fmap_ext_1. eapply Forall_impl; [exact Hrow|].
    intros [[x y] z] Hp. simpl in *.
    apply Forall_cons in Hp as [H1 Hp]. apply Forall_cons in Hp as [H2 Hp].
    apply Forall_cons in Hp as [H3 _]. unfold int_map3. simpl. congruence.
Qed.

Lemma intarray_map_id (image : intarray) :
  intarray_map (fun v => v) image = image.
Proof.
  destruct image as [g|g]; simpl; unfold grid_map;
    destruct g as [s0 s1 l]; simpl; do 2 f_equal.
  - rewrite <- (map_id l) at 2. apply map_ext. intros row. apply map_id.
  - rewrite <- (map_id l) at 2. apply map_ext. intros row.
    rewrite <- (map_id row) at 2. apply map_ext. by intros [[? ?] ?].
Qed.

(** X25.  The table [0, 1, ..., n - 1] is the identity of [use_lookup_table]: an
    array of integers with values from 0 to [n - 1] is returned as it
    is. *)
Theorem use_lookup_table_identity (image : intarray)
    (lookup_table : list npfloat) :
  Forall (fun v => (0 ≤ v < Z.of_nat (length lookup_table))%Z)
    (intarray_flat image) →
  (∀ i, i < length lookup_table →
     lookup_table !! i = Some (of_int (Z.of_nat i))) →
  (Z.of_nat (length lookup_table) ≤ 2 ^ 63)%Z →
  use_lookup_table image lookup_table = Ok image.
Proof.
  intros Hrange Hid Hlen. rewrite use_lookup_table_Ok by done. f_equal.
  rewrite <- (intarray_map_id image) at 2. apply intarray_map_ext.
  eapply Forall_impl; [exact Hrange|]. intros v Hv. cbn beta in Hv |- *.
  unfold table_value. rewrite Hid by lia. simpl.
  rewrite Z2Nat.id by lia. rewrite Z.quot_1_r.
  destruct (Z.leb_spec (- 2 ^ 63) v); [|lia].
  destruct (Z.ltb_spec v (2 ^ 63)); [done|lia].
Qed.

Lemma use_lookup_table_identity_witness :
  use_lookup_table (IntGray (Grid 1 3 [[2; 0; 1]]%Z)) [Num 0; Num 1; Num 2]
  = Ok (IntGray (Grid 1 3 [[2; 0; 1]]%Z)).
Proof.
  apply (use_lookup_table_identity (IntGray (Grid 1 3 [[2; 0; 1]]%Z))
           [Num 0; Num 1; Num 2]).
  - simpl. repeat (constructor; [lia|]). constructor.
  - intros i Hi. destruct i as [|[|[|i]]]; simpl in *; try lia; reflexivity.
  - simpl. lia.
Defined.

(** X26.  The result of [use_lookup_table] is an array of integers, so the
    fraction of an entry of the table is dropped: with a table whose
    entries are strictly between -1 and 1, as intensities in the range
    [0, 1) are, the result is zero everywhere. *)
Theorem use_lookup_table_fractions (image : intarray)
    (lookup_table : list npfloat) :
  Forall (fun v => (0 ≤ v < Z.of_nat (length lookup_table))%Z)
    (intarray_flat image) →
  Forall (fun x => ∃ q, x = Num q ∧ (-1 < q < 1)%Q) lookup_table →
  use_lookup_table image lookup_table
  = Ok (intarray_map (fun _ => 0%Z) image).
Proof.
  intros Hrange Hfrac. rewrite use_lookup_table_Ok by done. f_equal.
  apply intarray_map_ext.
  eapply Forall_impl; [exact Hrange|]. intros v Hv. cbn beta in Hv |- *.
  unfold table_value.
  destruct (lookup_lt_is_Some_2 lookup_table (Z.to_nat v)) as [x Hx]; [lia|].
  rewrite Hx. simpl.
  rewrite Forall_lookup in Hfrac. destruct (Hfrac _ _ Hx) as (q & -> & Hq).
  unfold astype_int.
  assert (Hz : (Qnum q ÷ Z.pos (Qden q))%Z = 0%Z).
  { destruct q as [n d]. unfold Qlt in Hq. simpl in *.
    apply Z.quot_small_iff; [lia|]. lia. }
  rewrite Hz. done.
Qed.

Lemma use_lookup_table_fractions_witness :
  use_lookup_table (IntGray (Grid 1 2 [[0; 1]]%Z)) [Num (1 # 4); Num (3 # 4)]
  = Ok (intarray_map (fun _ => 0%Z) (IntGray (Grid 1 2 [[0; 1]]%Z))).
Proof.
  apply (use_lookup_table_fractions (IntGray (Grid 1 2 [[0; 1]]%Z))
           [Num (1 # 4); Num (3 # 4)]).
  - simpl. repeat (constructor; [lia|]). constructor.
  - repeat constructor; eexists; (split; [reflexivity|]); lra.
Defined.

(** X27.  A pixel value that is no index of the table, at least its length or
    below minus its length, makes [use_lookup_table] raise [IndexError]. *)
Theorem use_lookup_table_out_of_range (g : grid Z)
    (lookup_table : list npfloat) :
  Exists (fun v => (Z.of_nat (length lookup_table) ≤ v ∨
                    v < - Z.of_nat (length lookup_table))%Z)
    (concat (cells g)) →
  ∃ msg, use_lookup_table (IntGray g) lookup_table = Raise (IndexError msg).
Proof.
  intros Hex. unfold use_lookup_table, grid_mapM.
  assert (Hf : ∀ v, (∃ y, astype_int <$> table_entry lookup_table v = Ok y) ∨
                    ∃ msg, astype_int <$> table_entry lookup_table v
                           = Raise (IndexError msg)).
  { intros v. destruct (table_entry_cases lookup_table v) as [(y & ->)|(msg & ->)];
      [left|right]; by eexists. }
  destruct (mapM_raise
              (mapM (fun v => astype_int <$> table_entry lookup_table v))
              (cells g)) as (msg & ->); [| |by exists msg].
  - intros row. induction row as [|v row IH]; cbn [mapM]; [left; by eexists|].
    destruct (Hf v) as [(y & ->)|(msg & ->)]; [|right; by eexists].
    cbn [mbind result_bind].
    destruct IH as [(ys & ->)|(msg & ->)]; [left|right]; by eexists.
  - apply Exists_exists in Hex as (v & Hv & Hout).
    apply list_elem_of_In, in_concat in Hv as (row & Hrow & Hv).
    apply Exists_exists. exists row. split; [by apply list_elem_of_In|].
    apply mapM_raise; [exact Hf|].
    apply Exists_exists. exists v. split; [by apply list_elem_of_In|].
    destruct (table_entry_raise lookup_table v Hout) as (msg & ->). by exists msg.
Qed.

Lemma use_lookup_table_out_of_range_witness :
  ∃ msg, use_lookup_table (IntGray (Grid 1 2 [[0; 2]]%Z)) [Num 1; Num 0]
         = Raise (IndexError msg).
Proof.
  apply (use_lookup_table_out_of_range (Grid 1 2 [[0; 2]]%Z) [Num 1; Num 0]).
  simpl. right. left. left. lia.
Defined.


(** ** Salt and pepper noise *)

Lemma Qdiv_by_one (c t : Q) : (t == 1)%Q → (c / t == c)%Q.
Proof. intros ->. field. Qed.

Lemma random_choice_3 (u pepper salt : Q) (x : npfloat) :
  (0 <= pepper)%Q → (0 <= salt)%Q → (pepper + salt <= 1)%Q → (u < 1)%Q →
  random_choice u [Num 0; Num 1; x] [pepper; salt; 1 - (pepper + salt)]%Q
  = Ok (noisy_pixel u pepper salt x).
Proof.
  intros Hp Hs Hps Hu. unfold random_choice, noisy_pixel.
  cbn [length Nat.eqb negb existsb orb].
  replace (Qltb pepper 0) with false by (symmetry; apply Qltb_false; lra).
  replace (Qltb salt 0) with false by (symmetry; apply Qltb_false; lra).
  replace (Qltb (1 - (pepper + salt)) 0) with false
    by (symmetry; apply Qltb_false; lra).
  cbn [orb].
  replace (Qltb atol _) with false.
  2: { symmetry. apply Qltb_false. unfold Qsum. cbn [foldr].
       assert (H0 : (pepper + (salt + (1 - (pepper + salt) + 0)) - 1 == 0)%Q)
         by ring.
       rewrite H0. done. }
  unfold cumsum. cbn [foldl fst snd app last default fmap list_fmap].
  set (t := (0 + pepper + salt + (1 - (pepper + salt)))%Q).
  assert (Ht : (t == 1)%Q) by (unfold t; ring).
  rewrite !filter_cons, filter_nil.
  rewrite (decide_False (P := Qle_bool (t / t) u = true)).
  2: { rewrite Qle_bool_iff, (Qdiv_by_one _ _ Ht). lra. }
  destruct (Qltb u pepper) eqn:H1.
  - apply Qltb_true in H1.
    rewrite (decide_False (P := Qle_bool ((0 + pepper) / t) u = true))
      by (rewrite Qle_bool_iff, (Qdiv_by_one _ _ Ht); lra).
    rewrite (decide_False (P := Qle_bool ((0 + pepper + salt) / t) u = true))
      by (rewrite Qle_bool_iff, (Qdiv_by_one _ _ Ht); lra).
    done.
  - apply Qltb_false in H1.
    rewrite (decide_True (P := Qle_bool ((0 + pepper) / t) u = true))
      by (rewrite Qle_bool_iff, (Qdiv_by_one _ _ Ht); lra).
    destruct (Qltb u (pepper + salt)) eqn:H2.
    + apply Qltb_true in H2.
      rewrite (decide_False (P := Qle_bool ((0 + pepper + salt) / t) u = true))
        by (rewrite Qle_bool_iff, (Qdiv_by_one _ _ Ht); lra).
      done.
    + apply Qltb_false in H2.
      rewrite (decide_True (P := Qle_bool ((0 + pepper + salt) / t) u = true))
        by (rewrite Qle_bool_iff, (Qdiv_by_one _ _ Ht); lra).
      done.
Qed.

Lemma random_choice_negative (u pepper salt : Q) (x : npfloat) :
  (pepper < 0)%Q ∨ (salt < 0)%Q ∨ (1 < pepper + salt)%Q →
  random_choice u [Num 0; Num 1; x] [pepper; salt; 1 - (pepper + salt)]%Q
  = Raise (ValueError "probabilities are not non-negative").
Proof.
  intros Hneg. unfold random_choice. cbn [length Nat.eqb negb existsb].
  replace (Qltb pepper 0 || (Qltb salt 0 || (Qltb (1 - (pepper + salt)) 0 || false)))
    with true; [done|].
  symmetry. rewrite !orb_true_iff, !Qltb_true.
  destruct Hneg as [H|[H|H]]; [by left|right; by left|].
  right. right. left. lra.
Qed.

Lemma for_each_skip {St X} (xs : list X) (s : St) :
  for_each xs (fun _ s => Ok s) s = Ok s.
Proof. induction xs as [|x xs IH]; [done|]. exact IH. Qed.

(** X28.  [salt_and_pepper] on an image of rank 2 that has a pixel, with
    probabilities that are not negative and sum to at most 1: the result
    has the shape of the image, and its pixel [(r, c)] is 0 when the number
    drawn for it is below [pepper], 1 when it is between [pepper] and
    [pepper + salt], and the pixel of the image otherwise, so that with
    [pepper = salt = 0] the result is the image. *)
Theorem salt_and_pepper_pixels (random_sample : Z → Z → Q)
    (image : grid npfloat) (pepper salt : Q) :
  wf image → 0 < shape0 image → 0 < shape1 image →
  (0 <= pepper)%Q → (0 <= salt)%Q → (pepper + salt <= 1)%Q →
  (∀ row col, 0 <= random_sample row col < 1)%Q →
  ∃ noisy_image,
    salt_and_pepper random_sample image pepper salt = Ok noisy_image ∧
    wf noisy_image ∧
    shape0 noisy_image = shape0 image ∧ shape1 noisy_image = shape1 image ∧
    (∀ r c x, at2 image r c = Some x →
       at2 noisy_image r c
       = Some (noisy_pixel (random_sample (Z.of_nat r) (Z.of_nat c))
                 pepper salt x)) ∧
    ((pepper == 0)%Q → (salt == 0)%Q → noisy_image = image).
Proof.
  intros Hwf H0 H1 Hp Hs Hps Hu. unfold salt_and_pepper.
  rewrite np_zeros_Ok. cbn [mbind result_bind].
  set (f := fun row col : Z =>
              x ← getitem image row col;
              random_choice (random_sample row col) [Num 0; Num 1; x]
                [pepper; salt; 1 - (pepper + salt)]%Q).
  set (val := fun row col : Z =>
                noisy_pixel (random_sample row col) pepper salt
                  (default zero (at2 image (Z.to_nat row) (Z.to_nat col)))).
  set (acc := Grid _ _ _).
  destruct (fill_rows f val 0
              (range 0 (Z.of_nat (shape0 image)))
              (range 0 (Z.of_nat (shape1 image))) acc)
    as (out & Hout & Hwfo & Ho0 & Ho1 & Hat).
  { apply wf_replicate. }
  { intros row Hrow%elem_of_range. simpl. lia. }
  { intros col Hcol%elem_of_range. simpl. lia. }
  { intros row col Hrow%elem_of_range Hcol%elem_of_range. unfold f, val.
    destruct (at2_is_Some image (Z.to_nat row) (Z.to_nat col) Hwf)
      as [x Hx]; [lia..|].
    pose proof (getitem_Ok image _ _ x Hwf Hx) as Hget.
    rewrite !Z2Nat.id in Hget by lia. rewrite Hget, Hx.
    cbn [mbind result_bind default].
    apply random_choice_3; try done. apply Hu. }
  rewrite (for_each_ext _ _
    (fun row a =>
       for_each (range 0 (Z.of_nat (shape1 image)))
         (fun col b => v ← f row col; setitem b (row - 0) (col - 0) v) a)).
  2: { intros row a _. apply for_each_ext. intros col b _. unfold f.
       rewrite !Z.sub_0_r.
       by destruct (getitem image row col). }
  rewrite Hout. cbn [mbind result_bind].
  destruct (Z.eqb_spec (Z.of_nat (shape0 image) * Z.of_nat (shape1 image)) 0)
    as [Hz|_]; [lia|].
  exists out. split; [done|].
  assert (Hpix : ∀ r c x, at2 image r c = Some x →
            at2 out r c
            = Some (noisy_pixel (random_sample (Z.of_nat r) (Z.of_nat c))
                      pepper salt x)).
  { intros r c x Hx. destruct (at2_lt image r c x Hwf Hx) as [Hr Hc].
    rewrite Hat. rewrite bool_decide_eq_true_2 by (rewrite !elem_of_range; lia).
    unfold val. rewrite !Z.add_0_r, !Nat2Z.id, Hx. done. }
  split_and!; try done.
  intros Hp0 Hs0.
  destruct out as [o0 o1 oc], image as [i0 i1 ic]. simpl in *. subst o0 o1.
  f_equal. destruct Hwfo as [Hlo Hro], Hwf as [Hli Hri]. simpl in *.
  apply list_eq_same_length with i0; [done..|].
  intros r rowo rowi Hr Hrowo Hrowi.
  rewrite Forall_lookup in Hro. rewrite Forall_lookup in Hri.
  apply list_eq_same_length with i1; [by eapply Hri|by eapply Hro|].
  intros c y x Hc Hy Hx.
  assert (Hatx : at2 (Grid i0 i1 ic) r c = Some x) by (apply at2_Some; eauto).
  assert (Haty : at2 (Grid i0 i1 oc) r c = Some y) by (apply at2_Some; eauto).
  rewrite (Hpix r c x Hatx) in Haty. injection Haty as <-.
  unfold noisy_pixel.
  specialize (Hu (Z.of_nat r) (Z.of_nat c)).
  replace (Qltb _ pepper) with false by (symmetry; apply Qltb_false; lra).
  by replace (Qltb _ (pepper + salt)) with false
    by (symmetry; apply Qltb_false; lra).
Qed.

Lemma salt_and_pepper_pixels_witness :
  ∃ noisy_image,
    salt_and_pepper (fun _ _ => 1 # 2) (Grid 1 2 [[Num 1; Num 2]]) 0 0
      = Ok noisy_image ∧
    (∀ r c x, at2 (Grid 1 2 [[Num 1; Num 2]]) r c = Some x →
       at2 noisy_image r c = Some (noisy_pixel (1 # 2) 0 0 x)) ∧
    noisy_image = Grid 1 2 [[Num 1; Num 2]].
Proof.
  destruct (salt_and_pepper_pixels (fun _ _ => 1 # 2)
              (Grid 1 2 [[Num 1; Num 2]]) 0 0)
    as (noisy_image & Hrun & _ & _ & _ & Hpix & Hsame).
  - split; [reflexivity|]. by repeat constructor.
  - simpl. lia.
  - simpl. lia.
  - lra.
  - lra.
  - lra.
  - intros _ _. lra.
  - exists noisy_image. split; [exact Hrun|]. split; [exact Hpix|].
    by apply Hsame.
Defined.

(** X29.  On an image without pixels [salt_and_pepper] cannot return: the
    percentage in its log message divides the number of pepper pixels by
    the number of pixels, and Python raises [ZeroDivisionError]. *)
Theorem salt_and_pepper_empty (random_sample : Z → Z → Q)
    (image : grid npfloat) (pepper salt : Q) :
  shape0 image = 0 ∨ shape1 image = 0 →
  salt_and_pepper random_sample image pepper salt
  = Raise (ZeroDivisionError "division by zero").
Proof.
  intros Hempty. unfold salt_and_pepper.
  rewrite np_zeros_Ok. cbn [mbind result_bind].
  assert (Hloop : ∀ acc,
    for_each (range 0 (Z.of_nat (shape0 image)))
      (fun row noisy_image =>
         for_each (range 0 (Z.of_nat (shape1 image)))
           (fun col noisy_image =>
              x ← getitem image row col;
              new_pixel ← random_choice (random_sample row col)
                            [Num 0; Num 1; x]
                            [pepper; salt; 1 - (pepper + salt)]%Q;
              setitem noisy_image row col new_pixel)
           noisy_image) acc = Ok acc).
  { intros acc. destruct Hempty as [-> | ->]; [done|].
    change (range 0 (Z.of_nat 0)) with (@nil Z). cbn [for_each].
    apply for_each_skip. }
  rewrite Hloop. cbn [mbind result_bind].
  destruct (Z.eqb_spec (Z.of_nat (shape0 image) * Z.of_nat (shape1 image)) 0);
    [done|lia].
Qed.

Lemma salt_and_pepper_empty_witness :
  salt_and_pepper (fun _ _ => 1 # 2) (Grid 0 3 []) (1 # 100) (1 # 100)
  = Raise (ZeroDivisionError "division by zero").
Proof.
  apply (salt_and_pepper_empty (fun _ _ => 1 # 2) (Grid 0 3 [])
           (1 # 100) (1 # 100)).
  left. reflexivity.
Defined.

(** X30.  A negative probability, or probabilities of salt and pepper that sum
    to more than 1, are refused by [random.choice] at the first pixel:
    [salt_and_pepper] raises [ValueError] on every image that has a
    pixel. *)
Theorem salt_and_pepper_probabilities (random_sample : Z → Z → Q)
    (image : grid npfloat) (pepper salt : Q) :
  wf image → 0 < shape0 image → 0 < shape1 image →
  (pepper < 0)%Q ∨ (salt < 0)%Q ∨ (1 < pepper + salt)%Q →
  salt_and_pepper random_sample image pepper salt
  = Raise (ValueError "probabilities are not non-negative").
Proof.
  intros Hwf H0 H1 Hneg. unfold salt_and_pepper.
  rewrite np_zeros_Ok. cbn [mbind result_bind].
  rewrite (range_cons 0 (Z.of_nat (shape0 image))) by lia. cbn [for_each].
  rewrite (range_cons 0 (Z.of_nat (shape1 image))) by lia. cbn [for_each].
  destruct (at2_is_Some image 0 0 Hwf) as [x Hx]; [lia..|].
  pose proof (getitem_Ok image 0 0 x Hwf Hx) as Hget.
  change (Z.of_nat 0) with 0%Z in Hget. rewrite Hget.
  cbn [mbind result_bind].
  by rewrite random_choice_negative.
Qed.

Lemma salt_and_pepper_probabilities_witness :
  salt_and_pepper (fun _ _ => 1 # 2) (Grid 1 2 [[Num 1; Num 2]])
    (3 # 4) (1 # 2)
  = Raise (ValueError "probabilities are not non-negative").
Proof.
  apply (salt_and_pepper_probabilities (fun _ _ => 1 # 2)
           (Grid 1 2 [[Num 1; Num 2]]) (3 # 4) (1 # 2)).
  - split; [reflexivity|]. by repeat constructor.
  - simpl. lia.
  - simpl. lia.
  - right. right. lra.
Defined.

